(** * mouse2: aggregate detection, configuration generator, vector utilities

    A shallow embedding of
      - calculate_aggregation.py   (determine_aggregates and its command line),
      - mouse2_tests/create_configuration.py (the synthetic configuration
        generator),
      - utilities.py               (normalize_vectors),
    together with the parts of the third-party libraries they call
    (networkx's Graph.add_edge and dfs_postorder_nodes, Python's list.remove
    and dict item assignment).

    Conventions.
      - Python ints (atom indices) are [Z]; lists are [list]; a dict whose
        insertion order is observable is an association list.
      - A Python exception is a value of [py_exception]; a call that can
        raise returns an [outcome].
      - Loops that Python runs until a condition fails take a [fuel]
        argument; the fuel handed over by the callers is shown to suffice.
      - The floats of normalize_vectors are IEEE 754 binary64 numbers, with
        their rounding, overflow and underflow.  The floats of the generator
        are read as real numbers ([R]): there rounding is not modelled. *)

From Stdlib Require Import List ZArith Lia Bool String Ascii Permutation Arith.
From Stdlib Require Import DecimalString.
From Stdlib Require Import Reals Lra Psatz.
From Stdlib Require Import SpecFloat.
Import ListNotations.

Set Warnings "-register-all".

(** ** Python runtime values shared by the modules *)

Inductive py_exception : Type :=
| KeyError (key : Z)        (* networkx: G[n] for a node n that is not in G *)
| ValueError                (* list.remove(x): x not in list *)
| SelectionError            (* MDAnalysis: select_atoms on a malformed query *)
| OSError                   (* MDAnalysis: Universe(...) on unreadable input *)
| TypeError.                (* an operation between a number and None *)

Inductive outcome (A : Type) : Type :=
| Returns (a : A)
| Raises (e : py_exception)
| OutOfFuel.

Arguments Returns {A} a.
Arguments Raises {A} e.
Arguments OutOfFuel {A}.

(** A JSON-serialisable Python value, as json.dumps receives it. *)
Inductive pyvalue : Type :=
| PyStr (s : string)
| PyInt (z : Z)
| PyList (l : list pyvalue)
| PyDict (items : list (string * pyvalue)).

(** [d[k] = v] on a dict kept in insertion order: an existing key keeps its
    place and gets the new value, a new key goes last. *)
Fixpoint dict_set {V : Type} (d : list (string * V)) (k : string) (v : V)
  : list (string * V) :=
  match d with
  | [] => [(k, v)]
  | (k', v') :: d' =>
      if String.eqb k' k then (k', v) :: d' else (k', v') :: dict_set d' k v
  end.

Definition dict_keys {V : Type} (d : list (string * V)) : list string :=
  map fst d.

(** [l.remove(x)]: drops the first occurrence of [x]; [None] stands for the
    ValueError raised when there is none. *)
Fixpoint list_remove (x : Z) (l : list Z) : option (list Z) :=
  match l with
  | [] => None
  | y :: l' =>
      if Z.eqb y x then Some l'
      else match list_remove x l' with
           | Some r => Some (y :: r)
           | None => None
           end
  end.

Definition mem (x : Z) (l : list Z) : bool := existsb (Z.eqb x) l.

(** ** networkx: undirected Graph and depth-first postorder *)

Module nx.

(** [Graph._adj]: node -> its neighbours, both in insertion order. *)
Definition Graph : Type := list (Z * list Z).

Definition empty : Graph := [].

Fixpoint adj (G : Graph) (n : Z) : option (list Z) :=
  match G with
  | [] => None
  | (k, vs) :: G' => if Z.eqb k n then Some vs else adj G' n
  end.

Definition has_node (G : Graph) (n : Z) : bool :=
  match adj G n with Some _ => true | None => false end.

Definition nodes (G : Graph) : list Z := map fst G.

(** [if u not in self._node: self._adj[u] = {}] *)
Definition add_node (G : Graph) (u : Z) : Graph :=
  if has_node G u then G else G ++ [(u, [])].

(** [self._adj[u][v] = datadict] *)
Fixpoint adj_set (G : Graph) (u v : Z) : Graph :=
  match G with
  | [] => []
  | (k, vs) :: G' =>
      if Z.eqb k u then (k, if mem v vs then vs else vs ++ [v]) :: G'
      else (k, vs) :: adj_set G' u v
  end.

(** [Graph.add_edge(u, v)]: both end points become nodes, and each is
    entered in the other's adjacency. *)
Definition add_edge (G : Graph) (u v : Z) : Graph :=
  adj_set (adj_set (add_node (add_node G u) v) u v) v u.

(** The traversal of [dfs_labeled_edges] (networkx 2.x): a stack of
    (parent, depth_now, iterator over the parent's neighbours), the set of
    visited nodes, and the nodes yielded so far with label "reverse".  The
    result pairs what was yielded with the exception that ended the
    generator, if any; [None] means the fuel ran out. *)
Fixpoint dfs_loop (G : Graph) (fuel : nat) (visited : list Z)
  (stack : list (Z * nat * list Z)) (out : list Z)
  : option (list Z * option py_exception) :=
  match stack with
  | [] => Some (out, None)
  | (parent, depth_now, children) :: below =>
      match fuel with
      | O => None
      | S fuel' =>
          match children with
          | [] =>
              (* StopIteration: stack.pop(); if stack: yield ..., parent, "reverse" *)
              match below with
              | [] => dfs_loop G fuel' visited [] out
              | _ :: _ => dfs_loop G fuel' visited below (out ++ [parent])
              end
          | child :: rest =>
              let stack' := (parent, depth_now, rest) :: below in
              if mem child visited then
                (* "nontree" *)
                dfs_loop G fuel' visited stack' out
              else if (1 <? depth_now)%nat then
                match adj G child with
                | None => Some (out, Some (KeyError child))
                | Some cs =>
                    dfs_loop G fuel' (child :: visited)
                      ((child, pred depth_now, cs) :: stack') out
                end
              else dfs_loop G fuel' (child :: visited) stack' out
          end
      end
  end.

(** One unit of fuel per node and per adjacency entry. *)
Definition dfs_fuel (G : Graph) : nat :=
  fold_right (fun kv acc => (S (List.length (snd kv)) + acc)%nat) O G.

(** [dfs_postorder_nodes(G, source)]: the nodes [v] of the labelled edges
    [(u, v, "reverse")], in the order they are generated.  [G[source]] is
    evaluated before anything is yielded; the start node is yielded last.
    The depth limit defaults to [len(G)]. *)
Definition dfs_postorder_nodes (G : Graph) (source : Z)
  : option (list Z * option py_exception) :=
  match adj G source with
  | None => Some ([], Some (KeyError source))
  | Some cs =>
      match dfs_loop G (dfs_fuel G) [source] [(source, List.length G, cs)] [] with
      | Some (out, None) => Some (out ++ [source], None)
      | r => r
      end
  end.

End nx.

(** ** MDAnalysis and the neighbour-list engine, as far as the program uses them *)

Module mda.

(** What the numeric side provides.  Positions, box and cutoff are floats;
    the program only ever asks whether two atoms of a frame are within the
    cutoff of each other, and for the textual forms [str(r_neigh)] and
    [str(ts)]. *)
Record Numerics : Type := {
  float : Type;
  str_float : float -> string;
  float_of_string : string -> option float;   (* float(s); None: ValueError *)
  default_r_neigh : float;                    (* the literal 1.2 *)
  Timestep : Type;
  str_Timestep : Timestep -> string;
  (* minimum-image distance of atoms i and j in the frame <= r_max *)
  within : Timestep -> float -> Z -> Z -> bool
}.

(** A loaded universe: atoms are numbered [0 .. n_atoms-1]; [select] gives
    the atoms a selection string matches ([None]: the string is rejected). *)
Record Universe (N : Numerics) : Type := {
  n_atoms : nat;
  trajectory : list (Timestep N);
  select : string -> option (Z -> bool)
}.

Arguments n_atoms {N} u.
Arguments trajectory {N} u.
Arguments select {N} u s.

(** [u.atoms.indices] *)
Definition atoms_indices {N} (u : Universe N) : list Z :=
  map Z.of_nat (seq 0 (n_atoms u)).

(** [u.select_atoms(selection).indices]: the matching atoms, in index order. *)
Definition select_atoms {N} (u : Universe N) (selection : string)
  : outcome (list Z) :=
  match select u selection with
  | Some p => Returns (filter p (atoms_indices u))
  | None => Raises SelectionError
  end.

End mda.

(** ** calculate_aggregation.py *)

Module aggregation.

(** How far parsing went: on, or to [sys.exit(status)] (status 2 after
    [parser.error], 0 after the help), or out of fuel. *)
Inductive parsing (A : Type) : Type :=
| Goes_on (a : A)
| SystemExit (status : Z)
| Fuel_out.

Arguments Goes_on {A} a.
Arguments SystemExit {A} status.
Arguments Fuel_out {A}.

Section Engine.

Variable N : mda.Numerics.

(** Modelled from the spec: [calculate_neighborlists_from_distances] of the
    module [aggregation], which is not among the source files.  Section 4.1:
    a mapping from each particle index to the indices of all other
    particles whose minimum-image distance does not exceed the cutoff, self
    excluded, keyed in the order of the given indices.  The positions and
    the box are those of the frame [ts]. *)
Definition calculate_neighborlists_from_distances
  (atom_indices : list Z) (ts : mda.Timestep N) (r_max : mda.float N)
  : list (Z * list Z) :=
  map (fun i =>
         (i, filter (fun j => negb (Z.eqb j i) && mda.within N ts r_max i j)
               atom_indices))
      atom_indices.

(** Lines 85-89: one [add_edge] per (atom, neighbour) pair. *)
Definition build_graph (neighborlists : list (Z * list Z)) : nx.Graph :=
  fold_left
    (fun graph entry =>
       fold_left (fun g neighbor => nx.add_edge g (fst entry) neighbor)
                 (snd entry) graph)
    neighborlists nx.empty.

(** Lines 97-99: the [for] loop over the generator.  Every yielded atom is
    appended to the aggregate and removed from the list of unassigned
    indices. *)
Fixpoint collect (aggregate_atoms : list Z) (aggregate atom_indices_list : list Z)
  : outcome (list Z * list Z) :=
  match aggregate_atoms with
  | [] => Returns (aggregate, atom_indices_list)
  | atom :: rest =>
      match list_remove atom atom_indices_list with
      | None => Raises ValueError
      | Some l' => collect rest (aggregate ++ [atom]) l'
      end
  end.

(** Lines 93-100: the [while len(atom_indices_list) > 0] loop.  An exception
    of the generator surfaces after the atoms it yielded before have been
    processed. *)
Fixpoint partition_loop (graph : nx.Graph) (fuel : nat)
  (atom_indices_list : list Z) (aggregates : list (list Z))
  : outcome (list (list Z)) :=
  match atom_indices_list with
  | [] => Returns aggregates
  | first :: _ =>
      match fuel with
      | O => OutOfFuel
      | S fuel' =>
          match nx.dfs_postorder_nodes graph first with
          | None => OutOfFuel
          | Some (aggregate_atoms, stop) =>
              match collect aggregate_atoms [] atom_indices_list with
              | Returns (aggregate, l') =>
                  match stop with
                  | Some e => Raises e
                  | None => partition_loop graph fuel' l' (aggregates ++ [aggregate])
                  end
              | Raises e => Raises e
              | OutOfFuel => OutOfFuel
              end
          end
      end
  end.

(** Lines 66-100: the aggregates of one frame. *)
Definition frame_aggregates (atom_indices : list Z) (ts : mda.Timestep N)
  (r_neigh : mda.float N) : outcome (list (list Z)) :=
  let neighborlists :=
    calculate_neighborlists_from_distances atom_indices ts r_neigh in
  let graph := build_graph neighborlists in
  partition_loop graph (List.length atom_indices) atom_indices [].

Definition aggregates_value (aggregates : list (list Z)) : pyvalue :=
  PyList (map (fun a => PyList (map PyInt a)) aggregates).

(** Lines 62-101: [for ts in u.trajectory: ... data[str(ts)] = aggregates]. *)
Fixpoint trajectory_loop (atom_indices : list Z) (r_neigh : mda.float N)
  (frames : list (mda.Timestep N)) (data : list (string * pyvalue))
  : outcome (list (string * pyvalue)) :=
  match frames with
  | [] => Returns data
  | ts :: rest =>
      match frame_aggregates atom_indices ts r_neigh with
      | Returns aggregates =>
          trajectory_loop atom_indices r_neigh rest
            (dict_set data (mda.str_Timestep N ts) (aggregates_value aggregates))
      | Raises e => Raises e
      | OutOfFuel => OutOfFuel
      end
  end.

Definition describe (r_neigh : mda.float N) (selection : option string) : string :=
  let description :=
    ("Lists of aggregates for a given timestep. Cutoff radius" ++
     " r_neigh =" ++ mda.str_float N r_neigh)%string in
  match selection with
  | Some s => (description ++ " Selection: " ++ s)%string
  | None => description
  end.

(** Lines 54-58: the atoms the analysis works on. *)
Definition selected_atoms (u : mda.Universe N) (selection : option string)
  : outcome (list Z) :=
  match selection with
  | Some s => mda.select_atoms u s
  | None => Returns (mda.atoms_indices u)
  end.

(** Lines 17-102. *)
Definition determine_aggregates (u : mda.Universe N) (r_neigh : mda.float N)
  (selection : option string) : outcome pyvalue :=
  let description := describe r_neigh selection in
  match selected_atoms u selection with
  | Returns atom_indices =>
      match trajectory_loop atom_indices r_neigh (mda.trajectory u) [] with
      | Returns data =>
          Returns (PyDict [("description"%string, PyStr description);
                           ("data"%string, PyDict data)])
      | Raises e => Raises e
      | OutOfFuel => OutOfFuel
      end
  | Raises e => Raises e
  | OutOfFuel => OutOfFuel
  end.

(** *** The command line (lines 104-131)

    [parser.parse_args()] is followed as argparse of Python 3.11 runs it
    (Lib/argparse.py: [parse_known_args], [_parse_optional],
    [_get_option_tuples], [_match_argument], [_get_values]) for the parser
    that lines 108-123 build.  A word of the command line is a [string];
    its characters are read as code points below 256, among which the
    [\d] of a regular expression matches 0 to 9 and nothing else. *)

(** [parser._actions]: the help action that ArgumentParser adds itself
    ([-h], [--help], nargs = 0), then the arguments of lines 112-123:
    INPUT (nargs = '+', hence required), [--r_neigh] (type = float,
    nargs = '?', default 1.2, const None) and [--selection] (type = str,
    nargs = '?', default None, const None). *)
Inductive action : Type :=
| help_action
| input_action
| r_neigh_action
| selection_action.

(** [parser._option_string_actions], in the order of insertion. *)
Definition _option_string_actions : list (string * action) :=
  [("-h"%string, help_action); ("--help"%string, help_action);
   ("--r_neigh"%string, r_neigh_action);
   ("--selection"%string, selection_action)].

(** [parser._get_positional_actions()] *)
Definition _get_positional_actions : list action := [input_action].

(** [d.get(k)] *)
Fixpoint get_action (k : string) (d : list (string * action)) : option action :=
  match d with
  | [] => None
  | (k', a) :: d' => if String.eqb k' k then Some a else get_action k d'
  end.

(** [c in parser.prefix_chars], the prefix characters being "-". *)
Definition in_prefix_chars (c : ascii) : bool := Ascii.eqb c "-".

(** [c in s] *)
Fixpoint contains (c : ascii) (s : string) : bool :=
  match s with
  | EmptyString => false
  | String c' s' => Ascii.eqb c' c || contains c s'
  end.

(** [s.split(c, 1)] for a string [s] that contains [c]: what is before the
    first [c], and what is after it. *)
Fixpoint split_once (c : ascii) (s : string) : string * string :=
  match s with
  | EmptyString => (EmptyString, EmptyString)
  | String c' s' =>
      if Ascii.eqb c' c then (EmptyString, s')
      else let '(before, after) := split_once c s' in (String c' before, after)
  end.

Definition is_digit (c : ascii) : bool :=
  let n := nat_of_ascii c in ((48 <=? n) && (n <=? 57))%nat.

(** What is left of [s] after its leading digits. *)
Fixpoint skip_digits (s : string) : string :=
  match s with
  | EmptyString => EmptyString
  | String c s' => if is_digit c then skip_digits s' else s
  end.

(** Where [$] matches: at the end, and before a newline that ends the
    string. *)
Definition at_end (s : string) : bool :=
  String.eqb s "" || String.eqb s (String (ascii_of_nat 10) "").

(** [parser._negative_number_matcher.match(s)]: the regular expression
    [^-\d+$|^-\d*\.\d+$]. *)
Definition _negative_number_matcher (s : string) : bool :=
  match s with
  | String "-"%char s1 =>
      let s2 := skip_digits s1 in
      (negb (String.length s2 =? String.length s1)%nat && at_end s2)
      || match s2 with
         | String "."%char s3 =>
             let s4 := skip_digits s3 in
             negb (String.length s4 =? String.length s3)%nat && at_end s4
         | _ => false
         end
  | _ => false
  end.

(** An option tuple [(action, option_string, explicit_arg)]; the action is
    [None] for a word that looks like an option the parser does not
    have. *)
Definition option_tuple : Type := (option action * string * option string)%type.

(** [parser._get_option_tuples(option_string)], called on words of two
    characters or more ([allow_abbrev] is on); [None]: [parser.error]. *)
Definition _get_option_tuples (option_string : string)
  : option (list option_tuple) :=
  match option_string with
  | String c0 (String c1 _) =>
      if in_prefix_chars c0 && in_prefix_chars c1 then
        let '(option_prefix, explicit_arg) :=
          if contains "=" option_string
          then let '(before, after) := split_once "=" option_string in
               (before, Some after)
          else (option_string, None) in
        Some (flat_map
                (fun '(option_string', a) =>
                   if String.prefix option_prefix option_string'
                   then [(Some a, option_string', explicit_arg)] else [])
                _option_string_actions)
      else if in_prefix_chars c0 && negb (in_prefix_chars c1) then
        let option_prefix := option_string in
        let short_option_prefix := substring 0 2 option_string in
        let short_explicit_arg :=
          substring 2 (String.length option_string - 2) option_string in
        Some (flat_map
                (fun '(option_string', a) =>
                   if String.eqb option_string' short_option_prefix
                   then [(Some a, option_string', Some short_explicit_arg)]
                   else if String.prefix option_prefix option_string'
                   then [(Some a, option_string', None)] else [])
                _option_string_actions)
      else None
  | _ => None
  end.

(** What [parser._parse_optional(arg_string)] makes of a word: a
    positional ([None] in Python), an option tuple, or [parser.error] for
    an ambiguous abbreviation. *)
Inductive parsed_optional : Type :=
| meant_positional
| meant_optional (t : option_tuple)
| ambiguous.

Definition _parse_optional (arg_string : string) : parsed_optional :=
  match arg_string with
  | EmptyString => meant_positional
  | String c0 _ =>
      if negb (in_prefix_chars c0) then meant_positional
      else
        match get_action arg_string _option_string_actions with
        | Some a => meant_optional (Some a, arg_string, None)
        | None =>
            if (String.length arg_string =? 1)%nat then meant_positional
            else
              let before_equals :=
                if contains "=" arg_string then
                  let '(option_string, explicit_arg) :=
                    split_once "=" arg_string in
                  match get_action option_string _option_string_actions with
                  | Some a => Some (Some a, option_string, Some explicit_arg)
                  | None => None
                  end
                else None in
              match before_equals with
              | Some t => meant_optional t
              | None =>
                  match _get_option_tuples arg_string with
                  | None => ambiguous
                  | Some (_ :: _ :: _) => ambiguous
                  | Some [t] => meant_optional t
                  | Some [] =>
                      (* no option string of the parser looks like a
                         negative number *)
                      if _negative_number_matcher arg_string
                      then meant_positional
                      else if contains " " arg_string then meant_positional
                      else meant_optional (None, arg_string, None)
                  end
              end
        end
  end.

(** A character of [arg_strings_pattern]: 'O' for an option, 'A' for an
    argument, '-' for the word "--". *)
Inductive pattern_char : Type := pattern_O | pattern_A | pattern_dash.

(** The first loop of [_parse_known_args]: [option_string_indices] (a dict
    from the index of a word to its option tuple) and
    [arg_strings_pattern]; every word after "--" is an argument.  [None]:
    [parser.error]. *)
Fixpoint classify (i : nat) (arg_strings : list string)
  : option (list (nat * option_tuple) * list pattern_char) :=
  match arg_strings with
  | [] => Some ([], [])
  | arg_string :: rest =>
      if String.eqb arg_string "--" then
        Some ([], pattern_dash :: map (fun _ => pattern_A) rest)
      else
        match _parse_optional arg_string with
        | ambiguous => None
        | meant_positional =>
            match classify (S i) rest with
            | Some (indices, pattern) => Some (indices, pattern_A :: pattern)
            | None => None
            end
        | meant_optional t =>
            match classify (S i) rest with
            | Some (indices, pattern) =>
                Some ((i, t) :: indices, pattern_O :: pattern)
            | None => None
            end
        end
  end.

(** How much of the pattern the regular expressions of
    [_get_nargs_pattern] match at its start. *)
Fixpoint leading_dashes (pattern : list pattern_char) : nat :=
  match pattern with
  | pattern_dash :: pattern' => S (leading_dashes pattern')
  | _ => 0
  end.

Fixpoint leading_arguments_or_dashes (pattern : list pattern_char) : nat :=
  match pattern with
  | pattern_A :: pattern' => S (leading_arguments_or_dashes pattern')
  | pattern_dash :: pattern' => S (leading_arguments_or_dashes pattern')
  | _ => 0
  end.

(** [parser._match_argument(action, arg_strings_pattern)]: the length of
    the match of the group [-*A[A-]*] for INPUT, of [A?] for [--r_neigh]
    and [--selection] (for an option the dashes are taken out of the
    expression), of the empty group for the help action.  [None]: no
    match, an ArgumentError. *)
Definition _match_argument (a : action) (arg_strings_pattern : list pattern_char)
  : option nat :=
  match a with
  | help_action => Some 0%nat
  | input_action =>
      let d := leading_dashes arg_strings_pattern in
      match skipn d arg_strings_pattern with
      | pattern_A :: pattern' =>
          Some (d + 1 + leading_arguments_or_dashes pattern')%nat
      | _ => None
      end
  | r_neigh_action | selection_action =>
      match arg_strings_pattern with
      | pattern_A :: _ => Some 1%nat
      | _ => Some 0%nat
      end
  end.

(** [parser._match_arguments_partial(actions, arg_strings_pattern)] for
    the positionals still to parse: the one positional of the parser, or
    none. *)
Definition _match_arguments_partial (actions : list action)
  (arg_strings_pattern : list pattern_char) : list nat :=
  match actions with
  | [a] =>
      match _match_argument a arg_strings_pattern with
      | Some arg_count => [arg_count]
      | None => []
      end
  | _ => []
  end.

(** The namespace while it is filled: [input] is None until stored. *)
Record namespace : Type := {
  ns_input : option (list string);
  ns_r_neigh : option (mda.float N);
  ns_selection : option string
}.

(** The defaults that [parse_known_args] sets first. *)
Definition defaults : namespace :=
  {| ns_input := None;
     ns_r_neigh := Some (mda.default_r_neigh N);
     ns_selection := None |}.

(** [arg_strings.remove('--')] of [_get_values], which ignores the
    ValueError. *)
Fixpoint remove_dashes (arg_strings : list string) : list string :=
  match arg_strings with
  | [] => []
  | s :: rest =>
      if String.eqb s "--" then rest else s :: remove_dashes rest
  end.

(** [take_action(action, argument_strings)]: the values are made by
    [_get_values] (an ArgumentError of the conversion ends in
    [parser.error]) and handed to the action: a store action sets its
    attribute, the help action prints the help and exits.  An option
    without a word stores its const, None.  (An option never gets more
    than one word.) *)
Definition take_action (a : action) (argument_strings : list string)
  (ns : namespace) : parsing namespace :=
  let arg_strings := remove_dashes argument_strings in
  match a with
  | help_action => SystemExit 0
  | input_action =>
      Goes_on {| ns_input := Some arg_strings;
                 ns_r_neigh := ns_r_neigh ns;
                 ns_selection := ns_selection ns |}
  | r_neigh_action =>
      match arg_strings with
      | [] =>
          Goes_on {| ns_input := ns_input ns;
                     ns_r_neigh := None;
                     ns_selection := ns_selection ns |}
      | [arg_string] =>
          match mda.float_of_string N arg_string with
          | Some value =>
              Goes_on {| ns_input := ns_input ns;
                         ns_r_neigh := Some value;
                         ns_selection := ns_selection ns |}
          | None => SystemExit 2
          end
      | _ => SystemExit 2
      end
  | selection_action =>
      match arg_strings with
      | [] =>
          Goes_on {| ns_input := ns_input ns;
                     ns_r_neigh := ns_r_neigh ns;
                     ns_selection := None |}
      | [arg_string] =>
          Goes_on {| ns_input := ns_input ns;
                     ns_r_neigh := ns_r_neigh ns;
                     ns_selection := Some arg_string |}
      | _ => SystemExit 2
      end
  end.

(** The actions of a list of action tuples, taken in turn. *)
Fixpoint take_actions (action_tuples : list (action * list string * string))
  (ns : namespace) : parsing namespace :=
  match action_tuples with
  | [] => Goes_on ns
  | (a, args, _) :: rest =>
      match take_action a args ns with
      | Goes_on ns' => take_actions rest ns'
      | SystemExit status => SystemExit status
      | Fuel_out => Fuel_out
      end
  end.

(** [s[1]] *)
Definition second_char (s : string) : ascii :=
  match s with
  | String _ (String c _) => c
  | _ => zero
  end.

Section Words.

Variable arg_strings : list string.
Variable option_string_indices : list (nat * option_tuple).
Variable arg_strings_pattern : list pattern_char.

(** The turn of the [while True] loop of [consume_optional] for an
    option without explicit argument: it takes the words that follow. *)
Definition following_arguments (start_index : nat) (a : action)
  (option_string : string)
  : option (list (action * list string * string) * nat) :=
  let start := (start_index + 1)%nat in
  let selected_patterns := skipn start arg_strings_pattern in
  match _match_argument a selected_patterns with
  | None => None
  | Some arg_count =>
      let stop := (start + arg_count)%nat in
      let args := firstn arg_count (skipn start arg_strings) in
      Some ([(a, args, option_string)], stop)
  end.

(** The [while True] loop of [consume_optional] from a turn with an
    explicit argument: the action tuples and the index where the words of
    the option stop; [None]: an ArgumentError.  A single-dash option
    without arguments hands the tail of the word on, as further
    single-dash options. *)
Fixpoint explicit_arguments (start_index : nat) (a : action)
  (option_string : string) (explicit_arg : string)
  : option (list (action * list string * string) * nat) :=
  match _match_argument a [pattern_A] with
  | None => None
  | Some arg_count =>
      match explicit_arg with
      | String c tail =>
          if (arg_count =? 0)%nat
             && negb (in_prefix_chars (second_char option_string)) then
            let option_string' := String "-" (String c "") in
            match get_action option_string' _option_string_actions with
            | Some a' =>
                let rest :=
                  match tail with
                  | EmptyString =>
                      following_arguments start_index a' option_string'
                  | _ => explicit_arguments start_index a' option_string' tail
                  end in
                match rest with
                | Some (action_tuples, stop) =>
                    Some ((a, [], option_string) :: action_tuples, stop)
                | None => None
                end
            | None => None
            end
          else if (arg_count =? 1)%nat then
            Some ([(a, [explicit_arg], option_string)], (start_index + 1)%nat)
          else None
      | EmptyString =>
          if (arg_count =? 1)%nat then
            Some ([(a, [explicit_arg], option_string)], (start_index + 1)%nat)
          else None
      end
  end.

Record loop_state : Type := {
  start_index : nat;
  positionals : list action;
  ns : namespace;
  extras : list string
}.

(** [option_string_indices.get(i)] *)
Fixpoint get_tuple (i : nat) (d : list (nat * option_tuple)) : option option_tuple :=
  match d with
  | [] => None
  | (i', t) :: d' => if (i' =? i)%nat then Some t else get_tuple i d'
  end.

(** [consume_optional(start_index)], at the index of an option. *)
Definition consume_optional (st : loop_state) : parsing loop_state :=
  match get_tuple (start_index st) option_string_indices with
  | None => SystemExit 2
  | Some (None, _, _) =>
      Goes_on {| start_index := (start_index st + 1)%nat;
                 positionals := positionals st;
                 ns := ns st;
                 extras := extras st
                           ++ firstn 1 (skipn (start_index st) arg_strings) |}
  | Some (Some a, option_string, explicit_arg) =>
      let tuples :=
        match explicit_arg with
        | Some e => explicit_arguments (start_index st) a option_string e
        | None => following_arguments (start_index st) a option_string
        end in
      match tuples with
      | None => SystemExit 2
      | Some (action_tuples, stop) =>
          match take_actions action_tuples (ns st) with
          | Goes_on ns' =>
              Goes_on {| start_index := stop;
                         positionals := positionals st;
                         ns := ns';
                         extras := extras st |}
          | SystemExit status => SystemExit status
          | Fuel_out => Fuel_out
          end
      end
  end.

(** The loop of [consume_positionals] over the positionals matched. *)
Fixpoint take_positionals (actions : list action) (arg_counts : list nat)
  (start : nat) (ns0 : namespace) : parsing (nat * namespace) :=
  match actions, arg_counts with
  | a :: actions', arg_count :: arg_counts' =>
      let args := firstn arg_count (skipn start arg_strings) in
      match take_action a args ns0 with
      | Goes_on ns' =>
          take_positionals actions' arg_counts' (start + arg_count)%nat ns'
      | SystemExit status => SystemExit status
      | Fuel_out => Fuel_out
      end
  | _, _ => Goes_on (start, ns0)
  end.

(** [consume_positionals(start_index)] *)
Definition consume_positionals (st : loop_state) : parsing loop_state :=
  let selected_pattern := skipn (start_index st) arg_strings_pattern in
  let arg_counts := _match_arguments_partial (positionals st) selected_pattern in
  match take_positionals (positionals st) arg_counts (start_index st) (ns st) with
  | Goes_on (stop, ns') =>
      Goes_on {| start_index := stop;
                 positionals := skipn (List.length arg_counts) (positionals st);
                 ns := ns';
                 extras := extras st |}
  | SystemExit status => SystemExit status
  | Fuel_out => Fuel_out
  end.

(** [max(option_string_indices)], or -1 *)
Definition max_option_string_index : Z :=
  fold_right (fun it m => Z.max (Z.of_nat (fst it)) m) (-1)%Z
             option_string_indices.

(** [min(index for index in option_string_indices if index >= start_index)],
    asked for when there is such an index. *)
Definition next_option_string_index (start : nat) : nat :=
  let later :=
    filter (fun i => (start <=? i)%nat) (map fst option_string_indices) in
  match later with
  | [] => start
  | i :: rest => fold_right Nat.min i rest
  end.

(** The loop [while start_index <= max_option_string_index]: positionals
    and options are consumed in turn. *)
Fixpoint consume_loop (fuel : nat) (st : loop_state) : parsing loop_state :=
  if (Z.of_nat (start_index st) <=? max_option_string_index)%Z then
    match fuel with
    | O => Fuel_out
    | S fuel' =>
        let next := next_option_string_index (start_index st) in
        let consumed :=
          if negb (start_index st =? next)%nat then
            match consume_positionals st with
            | Goes_on st' =>
                Goes_on (st', (start_index st <? start_index st')%nat)
            | SystemExit status => SystemExit status
            | Fuel_out => Fuel_out
            end
          else Goes_on (st, false) in
        match consumed with
        | Goes_on (st', true) => consume_loop fuel' st'
        | Goes_on (st', false) =>
            let st'' :=
              match get_tuple (start_index st') option_string_indices with
              | Some _ => st'
              | None =>
                  let strings :=
                    firstn (next - start_index st')
                           (skipn (start_index st') arg_strings) in
                  {| start_index := next;
                     positionals := positionals st';
                     ns := ns st';
                     extras := extras st' ++ strings |}
              end in
            match consume_optional st'' with
            | Goes_on st3 => consume_loop fuel' st3
            | SystemExit status => SystemExit status
            | Fuel_out => Fuel_out
            end
        | SystemExit status => SystemExit status
        | Fuel_out => Fuel_out
        end
    end
  else Goes_on st.

End Words.

Record Namespace : Type := {
  input : list string;
  r_neigh : option (mda.float N);     (* None: --r_neigh without a word *)
  selection : option string
}.

(** [parser.parse_args()] on the words [sys.argv[1:]].  After the loop the
    positionals that follow the last option are consumed; INPUT is
    required (it is among the actions seen exactly when it was stored);
    words left over are unrecognized arguments. *)
Definition parse_args (arg_strings : list string) : parsing Namespace :=
  match classify 0 arg_strings with
  | None => SystemExit 2
  | Some (option_string_indices, arg_strings_pattern) =>
      let st0 := {| start_index := 0;
                    positionals := _get_positional_actions;
                    ns := defaults;
                    extras := [] |} in
      match consume_loop arg_strings option_string_indices arg_strings_pattern
                         (List.length arg_strings) st0 with
      | Goes_on st1 =>
          match consume_positionals arg_strings arg_strings_pattern st1 with
          | Goes_on st2 =>
              let extras' :=
                extras st2 ++ skipn (start_index st2) arg_strings in
              match ns_input (ns st2) with
              | None => SystemExit 2
              | Some files =>
                  match extras' with
                  | [] =>
                      Goes_on {| input := files;
                                 r_neigh := ns_r_neigh (ns st2);
                                 selection := ns_selection (ns st2) |}
                  | _ :: _ => SystemExit 2
                  end
              end
          | SystemExit status => SystemExit status
          | Fuel_out => Fuel_out
          end
      | SystemExit status => SystemExit status
      | Fuel_out => Fuel_out
      end
  end.

(** What the process leaves behind: a usage error of argparse (message on
    stderr, exit status 2), the help (exit status 0), an uncaught
    exception (traceback, exit status 1), or the printed document (exit
    status 0). *)
Inductive process_result : Type :=
| UsageError
| HelpPrinted
| Traceback (e : py_exception)
| Printed (document : pyvalue)
| Hangs.

(** [mda.Universe] applied to [args.input] reads the files; [None]: it
    raises. *)
Variable load : list string -> option (mda.Universe N).

(** The run when [args.r_neigh] is None ([--r_neigh] given without a
    word): the description ends in "None" and the neighbour lists are asked
    for with [r_max = None]; what the engine does with it is not in the
    listing. *)
Variable without_cutoff : mda.Universe N -> option string -> process_result.

(** Lines 129-131: the document is printed; an exception ends the process
    with a traceback. *)
Definition report (result : outcome pyvalue) : process_result :=
  match result with
  | Returns document => Printed document
  | Raises e => Traceback e
  | OutOfFuel => Hangs
  end.

Definition main (argv : list string) : process_result :=
  match parse_args argv with
  | SystemExit status =>
      if (status =? 0)%Z then HelpPrinted else UsageError
  | Fuel_out => Hangs
  | Goes_on args =>
      match load (input args) with
      | None => Traceback OSError
      | Some u =>
          match r_neigh args with
          | Some r => report (determine_aggregates u r (selection args))
          | None => without_cutoff u (selection args)
          end
      end
  end.

End Engine.

End aggregation.

(** ** A small concrete instance, for running the definitions

    Cutoffs and coordinates are decimal numbers with one digit after the
    point, kept as a number of tenths; atoms sit on a line; a frame is its
    number and the coordinates of the atoms. *)

Module line.

Definition digit (c : ascii) : option Z :=
  let n := nat_of_ascii c in
  if ((48 <=? n) && (n <=? 57))%nat then Some (Z.of_nat (n - 48)) else None.

Fixpoint digits (s : string) (acc : Z) : option Z :=
  match s with
  | EmptyString => Some acc
  | String c s' =>
      match digit c with
      | Some d => digits s' (10 * acc + d)%Z
      | None => None
      end
  end.

(** [float(s)] on the words [d...d] and [-d...d]; other words are taken as
    not numeric. *)
Definition float_of_string (s : string) : option Z :=
  match s with
  | EmptyString => None
  | String "-"%char EmptyString => None
  | String "-"%char s' => option_map (fun n => (- (10 * n))%Z) (digits s' 0%Z)
  | _ => option_map (fun n => (10 * n)%Z) (digits s 0%Z)
  end.

Definition str_nat (n : nat) : string :=
  NilZero.string_of_uint (Nat.to_uint n).

(** [str(x)] for a float given in tenths: "1.2", "0.0", "-1.0". *)
Definition str_float (tenths : Z) : string :=
  let a := Z.abs tenths in
  ((if (tenths <? 0)%Z then "-" else "") ++
   str_nat (Z.to_nat (a / 10)) ++ "." ++ str_nat (Z.to_nat (a mod 10)))%string.

Record Timestep : Type := { frame : nat; x : list Z }.

Definition str_Timestep (ts : Timestep) : string :=
  ("< Timestep " ++ str_nat (frame ts) ++ " >")%string.

Definition coordinate (ts : Timestep) (i : Z) : Z :=
  nth (Z.to_nat i) (x ts) 0%Z.

Definition within (ts : Timestep) (r_max : Z) (i j : Z) : bool :=
  (Z.abs (coordinate ts i - coordinate ts j) <=? r_max)%Z.

Definition numerics : mda.Numerics := {|
  mda.float := Z;
  mda.str_float := str_float;
  mda.float_of_string := float_of_string;
  mda.default_r_neigh := 12%Z;
  mda.Timestep := Timestep;
  mda.str_Timestep := str_Timestep;
  mda.within := within
|}.

(** Selections "all" and "none"; anything else is rejected. *)
Definition select (s : string) : option (Z -> bool) :=
  if String.eqb s "all" then Some (fun _ => true)
  else if String.eqb s "none" then Some (fun _ => false)
  else None.

Definition universe (n : nat) (frames : list Timestep) : mda.Universe numerics :=
  @mda.Build_Universe numerics n frames select.

(** Section 8, worked example: three particles at 0, 1 and 2. *)
Definition three_in_a_row : mda.Universe numerics :=
  universe 3 [ {| frame := 0; x := [0; 10; 20]%Z |} ].

(** Particles 0 and 1 next to each other, particle 2 far away. *)
Definition pair_and_loner : mda.Universe numerics :=
  universe 3 [ {| frame := 0; x := [0; 10; 500]%Z |} ].

(** Two frames: one chain of four, then two pairs. *)
Definition two_frames : mda.Universe numerics :=
  universe 4 [ {| frame := 0; x := [0; 10; 20; 30]%Z |};
               {| frame := 1; x := [0; 10; 100; 110]%Z |} ].

(** Two particles at the same place. *)
Definition coincident : mda.Universe numerics :=
  universe 2 [ {| frame := 0; x := [50; 50]%Z |} ].

Definition load (files : list string) : option (mda.Universe numerics) :=
  match files with
  | [f] =>
      if String.eqb f "three.gro" then Some three_in_a_row
      else if String.eqb f "loner.gro" then Some pair_and_loner
      else if String.eqb f "two_frames.gro" then Some two_frames
      else if String.eqb f "coincident.gro" then Some coincident
      else None
  | _ => None
  end.

(** The cutoff None: the comparison of a distance with it raises. *)
Definition without_cutoff (u : mda.Universe numerics) (selection : option string)
  : aggregation.process_result :=
  aggregation.Traceback TypeError.

End line.

Module line_runs.

Definition cutoff_description : string :=
  "Lists of aggregates for a given timestep. Cutoff radius r_neigh =1.2".

(** What determine_aggregates returns for [line.two_frames] at cutoff 1.2. *)
Definition two_frames_document : pyvalue :=
  PyDict
    [("description"%string, PyStr cutoff_description);
     ("data"%string,
      PyDict
        [("< Timestep 0 >"%string,
          PyList [PyList [PyInt 3; PyInt 2; PyInt 1; PyInt 0]]);
         ("< Timestep 1 >"%string,
          PyList [PyList [PyInt 1; PyInt 0]; PyList [PyInt 3; PyInt 2]])])].

(** ... and for [line.three_in_a_row]. *)
Definition three_document : pyvalue :=
  PyDict
    [("description"%string, PyStr cutoff_description);
     ("data"%string,
      PyDict
        [("< Timestep 0 >"%string,
          PyList [PyList [PyInt 2; PyInt 1; PyInt 0]])])].

(** ... and for [line.coincident] at cutoff 0. *)
Definition coincident_document : pyvalue :=
  PyDict
    [("description"%string,
      PyStr "Lists of aggregates for a given timestep. Cutoff radius r_neigh =0.0");
     ("data"%string,
      PyDict [("< Timestep 0 >"%string, PyList [PyList [PyInt 1; PyInt 0]])])].

(** Command lines, as the words of [sys.argv[1:]]. *)
Definition zero_cutoff : list string :=
  ["coincident.gro"; "--r_neigh"; "0"]%string.

Definition negative_cutoff : list string :=
  ["three.gro"; "--r_neigh"; "-1"]%string.

Definition word_cutoff : list string :=
  ["three.gro"; "--r_neigh"; "wide"]%string.

End line_runs.

(** ** mouse2_tests/create_configuration.py *)

Module generator.

Local Open Scope R_scope.

Definition vec : Type := (R * R * R)%type.

Definition vadd (a b : vec) : vec :=
  let '(ax, ay, az) := a in
  let '(bx, by_, bz) := b in
  (ax + bx, ay + by_, az + bz).

Definition vsub (a b : vec) : vec :=
  let '(ax, ay, az) := a in
  let '(bx, by_, bz) := b in
  (ax - bx, ay - by_, az - bz).

(** Lines 32-41. *)
Definition RANDOM_SEED : Z := 42.
Definition CELL : list R := [100; 100; 100; 90; 90; 90].
Definition NMOL : nat := 4000.
Definition NPOLY : nat := 20.
Definition LBOND : R := 1.
Definition RTUBE : R := 53 / 100.
Definition PITCH : R := 166 / 100.
Definition PER_TURN : R := 33 / 10.

(** The two sources of random numbers the script draws from.  [random] is
    Python's module of that name: [seed] gives the generator state after
    [random.seed(a)], [random] is [random.random()].  [Rotation.random()] of
    scipy draws from numpy's global generator, whose state at start-up is
    not set by the script. *)
Record Randomness : Type := {
  py_state : Type;
  seed : Z -> py_state;
  random : py_state -> R * py_state;
  np_state : Type;
  Rotation : Type;
  Rotation_random : np_state -> Rotation * np_state;
  Rotation_apply : Rotation -> vec -> vec
}.

(** Python slices [s[:n]] and [s[-n:]]. *)
Definition slice_to (n : nat) (s : string) : string := substring 0 n s.

Definition slice_last (n : nat) (s : string) : string :=
  substring (String.length s - n) n s.

Definition is_random (system_type : string) : bool :=
  String.eqb (slice_to 6 system_type) "random".

Definition is_rods (system_type : string) : bool :=
  String.eqb (slice_last 4 system_type) "rods".

Definition is_helices (system_type : string) : bool :=
  String.eqb (slice_last 7 system_type) "helices".

Definition is_disordered (system_type : string) : bool :=
  String.eqb (slice_to 10 system_type) "disordered".

Section Generator.

Variable E : Randomness.

(** Lines 111-130: the coordinates of the next atom, from those of atom
    [iatom].  The three tests are independent [if]s. *)
Definition next_coordinates (system_type : string) (iatom : nat) (xyz : vec)
  (np : np_state E) : vec * np_state E :=
  let '(xyz1, np1) :=
    if is_random system_type then
      let bond_vector := (0, 0, LBOND) in
      let '(rotation, np') := Rotation_random E np in
      let rotated_bond := Rotation_apply E rotation bond_vector in
      (vadd xyz rotated_bond, np')
    else (xyz, np) in
  let xyz2 :=
    if is_rods system_type then
      let bond_vector := (0, 0, LBOND) in
      vadd xyz1 bond_vector
    else xyz1 in
  let xyz3 :=
    if is_helices system_type then
      (RTUBE * cos (INR (iatom + 1) * 2 * PI / PER_TURN),
       RTUBE * sin (INR (iatom + 1) * 2 * PI / PER_TURN),
       PITCH * INR (iatom + 1) / PER_TURN)
    else xyz2 in
  (xyz3, np1).

(** Lines 99-130: [for iatom in range(NPOLY)], with [count] atoms still to
    make.  Returns the positions given to the atoms, the bonds appended, the
    next free atom index and the state of numpy's generator. *)
Fixpoint atom_loop (system_type : string) (count iatom : nat) (xyz : vec)
  (ix : Z) (np : np_state E)
  : list vec * list (Z * Z) * Z * np_state E :=
  match count with
  | O => ([], [], ix, np)
  | S count' =>
      let bond := if (0 <? iatom)%nat then [((ix - 1)%Z, ix)] else [] in
      let '(xyz', np') := next_coordinates system_type iatom xyz np in
      let '(positions, bonds, ix', np'') :=
        atom_loop system_type count' (S iatom) xyz' (ix + 1)%Z np' in
      (xyz :: positions, bond ++ bonds, ix', np'')
  end.

(** The local coordinates of one molecule: what [molecule_group] holds
    before line 137. *)
Definition chain (system_type : string) (np : np_state E) : list vec :=
  let '(positions, _, _, _) :=
    atom_loop system_type NPOLY 0 (0, 0, 0) 0%Z np in
  positions.

Record Molecule : Type := {
  resid : Z;
  local_positions : list vec;
  molecule_rotation : Rotation E;
  translation_vector : vec;
  molecule_bonds : list (Z * Z)
}.

Record loop_state : Type := {
  ix : Z;
  py : py_state E;
  np : np_state E
}.

(** Lines 93-142: one turn of [for imol in range(NMOL)].  [shared] is the
    rotation bound before the loop, if any; [None] as a result stands for
    the UnboundLocalError of reading [molecule_rotation] unassigned. *)
Definition place_molecule (system_type : string) (shared : option (Rotation E))
  (imol : nat) (st : loop_state) : option (Molecule * loop_state) :=
  let '(positions, bonds, ix', np1) :=
    atom_loop system_type NPOLY 0 (0, 0, 0) (ix st) (np st) in
  let '(r1, py1) := random E (py st) in
  let '(r2, py2) := random E py1 in
  let '(r3, py3) := random E py2 in
  let translation :=
    (nth 0 CELL 0 * r1, nth 1 CELL 0 * r2, nth 2 CELL 0 * r3) in
  let '(rotation, np2) :=
    if is_disordered system_type then
      let '(r, np') := Rotation_random E np1 in (Some r, np')
    else (shared, np1) in
  match rotation with
  | None => None
  | Some r =>
      Some ({| resid := Z.of_nat imol + 1;
               local_positions := positions;
               molecule_rotation := r;
               translation_vector := translation;
               molecule_bonds := bonds |},
            {| ix := ix'; py := py3; np := np2 |})
  end.

Fixpoint molecule_loop (system_type : string) (shared : option (Rotation E))
  (count imol : nat) (st : loop_state) : option (list Molecule) :=
  match count with
  | O => Some []
  | S count' =>
      match place_molecule system_type shared imol st with
      | None => None
      | Some (m, st') =>
          match molecule_loop system_type shared count' (S imol) st' with
          | None => None
          | Some ms => Some (m :: ms)
          end
      end
  end.

(** Lines 67-142: the molecules in the order they are made.  [np0] is the
    state of numpy's generator when the script starts. *)
Definition molecules (system_type : string) (np0 : np_state E)
  : option (list Molecule) :=
  let py0 := seed E RANDOM_SEED in
  let '(shared, np1) :=
    if negb (is_disordered system_type) then
      let '(r, np') := Rotation_random E np0 in (Some r, np')
    else (None, np0) in
  molecule_loop system_type shared NMOL 0 {| ix := 0; py := py0; np := np1 |}.

(** Lines 137-139: rotate, then translate. *)
Definition placed_positions (m : Molecule) : list vec :=
  map (fun p => vadd (Rotation_apply E (molecule_rotation m) p)
                     (translation_vector m))
      (local_positions m).

(** What [all_molecules.write(args.output)] is given. *)
Record Configuration : Type := {
  dimensions : list R;
  positions : list vec;
  types : list string;
  masses : list R;
  resids : list Z;
  bonds : list (Z * Z);
  bond_types : list string
}.

Definition assemble (ms : list Molecule) : Configuration :=
  let all_bonds := List.concat (map molecule_bonds ms) in
  {| dimensions := CELL;
     positions := List.concat (map placed_positions ms);
     types := List.concat (map (fun m => map (fun _ => "1"%string) (local_positions m)) ms);
     masses := List.concat (map (fun m => map (fun _ => 1) (local_positions m)) ms);
     resids := List.concat (map (fun m => map (fun _ => resid m) (local_positions m)) ms);
     bonds := all_bonds;
     bond_types := map (fun _ => "1"%string) all_bonds |}.

(** [main()] for [--type system_type]. *)
Definition main (system_type : string) (np0 : np_state E)
  : option Configuration :=
  match molecules system_type np0 with
  | Some ms => Some (assemble ms)
  | None => None
  end.

End Generator.

(** A concrete source of randomness for running the generator: both
    generator states are counters; a rotation is the identity or the half
    turn about the x axis. *)
Definition counting : Randomness := {|
  py_state := nat;
  seed := fun a => Z.to_nat a;
  random := fun s => (INR (s mod 10) / 10, S s);
  np_state := nat;
  Rotation := bool;
  Rotation_random := fun s => (Nat.odd s, S s);
  Rotation_apply := fun r v =>
    let '(vx, vy, vz) := v in if r then (vx, - vy, - vz) else v
|}.

End generator.

(** ** IEEE 754 binary64, the floats of a numpy array

    The arithmetic of numpy on float64 is that of the processor: each
    operation gives the exact result rounded to the nearest representable
    number, ties to even, with signed zeros, infinities and NaN.  It is
    taken from the specification of floating-point arithmetic of the
    Standard Library ([SpecFloat]), at 53 bits of precision and exponents
    below 1024. *)

Module float64.

Definition prec : Z := 53.
Definition emax : Z := 1024.

Definition float : Type := spec_float.

Definition zero : float := S754_zero false.

Definition mul : float -> float -> float := SFmul prec emax.
Definition add : float -> float -> float := SFadd prec emax.
Definition div : float -> float -> float := SFdiv prec emax.
Definition sqrt : float -> float := SFsqrt prec emax.

End float64.

(** ** utilities.py *)

Module utilities.

(** A two-dimensional array of float64: the list of its rows. *)
Definition array2 : Type := list (list float64.float).

(** [np.linalg.norm(vectors, axis = 1)] on one row: numpy computes
    [sqrt(add.reduce(x.conj() * x, axis))]; the reduction starts from the
    identity 0.0 and adds the squares in the order of the row (rows of
    fewer than 8 numbers are not summed pairwise). *)
Definition norm (row : list float64.float) : float64.float :=
  float64.sqrt
    (fold_left float64.add (map (fun a => float64.mul a a) row) float64.zero).

(** Lines 14-21.  [norms] is the column of the row norms; the division
    broadcasts it over the columns. *)
Definition normalize_vectors (vectors : array2) : array2 :=
  let norms := map norm vectors in
  map (fun rn => map (fun a => float64.div a (snd rn)) (fst rn))
      (combine vectors norms).

End utilities.

(** ** Notions used to state the properties *)

Module graph.

(** [v] is in the adjacency of [u]. *)
Definition edge (G : nx.Graph) (u v : Z) : Prop :=
  exists vs, nx.adj G u = Some vs /\ In v vs.

(** [v] can be reached from [s] along edges. *)
Inductive reach (G : nx.Graph) (s : Z) : Z -> Prop :=
| reach_refl : reach G s s
| reach_step (u v : Z) : reach G s u -> edge G u v -> reach G s v.

(** An undirected graph as [add_edge] keeps it: no node is listed twice and
    every edge is entered at both ends. *)
Definition undirected (G : nx.Graph) : Prop :=
  NoDup (nx.nodes G) /\ forall u v, edge G u v -> edge G v u.

(** The fuel the traversal still needs: what is left of the iterators on
    the stack, and the nodes not yet visited with their adjacencies. *)
Fixpoint unvisited_weight (G : nx.Graph) (visited : list Z) : nat :=
  match G with
  | [] => O
  | (k, vs) :: G' =>
      ((if mem k visited then O else S (List.length vs))
       + unvisited_weight G' visited)%nat
  end.

Fixpoint stack_weight (stack : list (Z * nat * list Z)) : nat :=
  match stack with
  | [] => O
  | (_, _, children) :: below => (S (List.length children) + stack_weight below)%nat
  end.

Definition stack_nodes (stack : list (Z * nat * list Z)) : list Z :=
  map (fun fr => fst (fst fr)) stack.

(** [depth_now] of a stack entry plus the number of entries below it is the
    depth limit. *)
Fixpoint depths_ok (limit : nat) (stack : list (Z * nat * list Z)) : Prop :=
  match stack with
  | [] => True
  | (_, depth_now, _) :: below =>
      (depth_now + List.length below = limit)%nat /\ depths_ok limit below
  end.

(** The iterator of a stack entry ranges over neighbours of its node, and
    the neighbours it has passed are visited. *)
Definition iterator_ok (G : nx.Graph) (visited : list Z)
  (fr : Z * nat * list Z) : Prop :=
  exists vs, nx.adj G (fst (fst fr)) = Some vs
             /\ (forall v, In v (snd fr) -> In v vs)
             /\ (forall v, In v vs -> In v (snd fr) \/ In v visited).

Record dfs_invariant (G : nx.Graph) (s : Z) (visited : list Z)
  (stack : list (Z * nat * list Z)) (out : list Z) : Prop := {
  inv_nodup : NoDup (out ++ stack_nodes stack);
  inv_visited : forall v, In v visited <-> In v out \/ In v (stack_nodes stack);
  inv_iter : Forall (iterator_ok G visited) stack;
  inv_done : forall u v, In u out -> edge G u v -> In v visited;
  inv_reach : forall v, In v visited -> reach G s v;
  inv_depth : depths_ok (List.length G) stack;
  inv_bottom : exists above d rem, stack = above ++ [(s, d, rem)]
}.

(** What the finished traversal has produced: the nodes reachable from [s],
    each once. *)
Definition component_of (G : nx.Graph) (s : Z) (ys : list Z) : Prop :=
  NoDup ys /\ forall v, In v ys <-> reach G s v.

(** A set of indices no edge leaves. *)
Definition closed (G : nx.Graph) (L : list Z) : Prop :=
  forall u v, In u L -> edge G u v -> In v L.

(** Every node has a neighbour: nodes come into the graph with an edge. *)
Definition no_bare_node (G : nx.Graph) : Prop :=
  forall n, In n (nx.nodes G) -> exists v, edge G n v.

End graph.

(** The distinct members of a list, in the order of their first
    occurrence. *)
Fixpoint first_occurrences (l : list string) : list string :=
  match l with
  | [] => []
  | k :: l' => k :: filter (fun k' => negb (String.eqb k' k)) (first_occurrences l')
  end.

Definition has_key (k : string) (keys : list string) : bool :=
  existsb (fun k' => String.eqb k' k) keys.

(** A run of assignments [d[k] = v]. *)
Definition set_all {V : Type} (kvs : list (string * V)) (d : list (string * V))
  : list (string * V) :=
  fold_left (fun d kv => dict_set d (fst kv) (snd kv)) kvs d.

(** [value] is what the loop over the trajectory records for the frame. *)
Definition frame_value (N : mda.Numerics) (indices : list Z) (r : mda.float N)
  (ts : mda.Timestep N) (value : pyvalue) : Prop :=
  exists aggregates,
    aggregation.frame_aggregates N indices ts r = Returns aggregates
    /\ value = aggregation.aggregates_value aggregates.

(** A list of aggregates that partitions a set of indices. *)
Definition partitions (aggregates : list (list Z)) (indices : list Z) : Prop :=
  Permutation (List.concat aggregates) indices
  /\ NoDup (List.concat aggregates)
  /\ Forall (fun a => a <> []) aggregates.

(** Neighbours of a selected particle in a frame, as the neighbour-list
    engine sees them: another selected particle within the cutoff, looked at
    from either side. *)
Definition has_neighbour (N : mda.Numerics) (ts : mda.Timestep N)
  (r : mda.float N) (indices : list Z) (k : Z) : Prop :=
  exists j, In j indices /\ j <> k
            /\ (mda.within N ts r k j = true \/ mda.within N ts r j k = true).

Definition isolated (N : mda.Numerics) (ts : mda.Timestep N)
  (r : mda.float N) (indices : list Z) (k : Z) : Prop :=
  forall j, In j indices -> j <> k ->
            mda.within N ts r k j = false /\ mda.within N ts r j k = false.

(** The (atom, neighbour) pairs of a neighbour list, in the order the graph
    construction meets them. *)
Definition pairs_of (neighborlists : list (Z * list Z)) : list (Z * Z) :=
  flat_map (fun entry => map (pair (fst entry)) (snd entry)) neighborlists.

(** Index [i] is in exactly one aggregate, and there exactly once. *)
Definition exactly_once (aggregates : list (list Z)) (i : Z) : Prop :=
  List.length (filter (mem i) aggregates) = 1%nat
  /\ count_occ Z.eq_dec (List.concat aggregates) i = 1%nat.

(** ** Notions used to state the properties of the generator *)

Module cli_notions.

(** The word begins with "-". *)
Definition starts_with_dash (word : string) : bool :=
  match word with
  | String c _ => Ascii.eqb c "-"
  | EmptyString => false
  end.

(** A word that begins with "-" and goes on with a character other than
    "-" and "h", without a space, and that is not of the forms -digits or
    -digits.digits: such as -1e3, -inf, -1. or -x. *)
Definition option_like (word : string) : bool :=
  match word with
  | String c0 (String c1 _) =>
      Ascii.eqb c0 "-" && negb (Ascii.eqb c1 "-") && negb (Ascii.eqb c1 "h")
      && negb (aggregation._negative_number_matcher word)
      && negb (aggregation.contains " " word)
  | _ => false
  end.

End cli_notions.

Module generator_notions.
Import generator.
Local Open Scope R_scope.

Definition origin : vec := (0, 0, 0).

(** Distance of a point from the z axis, the axis of the helix. *)
Definition radial (v : vec) : R :=
  let '(vx, vy, _) := v in sqrt (vx * vx + vy * vy).

Definition z_of (v : vec) : R := snd v.

(** The coordinates line 128-130 compute from the count [k]. *)
Definition helix_code (k : nat) : vec :=
  (RTUBE * cos (INR k * 2 * PI / PER_TURN),
   RTUBE * sin (INR k * 2 * PI / PER_TURN),
   PITCH * INR k / PER_TURN).

(** The point of the helix at parameter [t]. *)
Definition helix_point (t : R) : vec :=
  (RTUBE * cos (2 * PI * t / PER_TURN),
   RTUBE * sin (2 * PI * t / PER_TURN),
   PITCH * t / PER_TURN).

Definition positions_of {S : Type} (al : list vec * list (Z * Z) * Z * S)
  : list vec := fst (fst (fst al)).
Definition bonds_of {S : Type} (al : list vec * list (Z * Z) * Z * S)
  : list (Z * Z) := snd (fst (fst al)).
Definition ix_of {S : Type} (al : list vec * list (Z * Z) * Z * S) : Z :=
  snd (fst al).
Definition np_of {S : Type} (al : list vec * list (Z * Z) * Z * S) : S :=
  snd al.

Section Streams.

Variable E : Randomness.

(** The [k]-th rotation numpy's generator hands out, counted from 0, when
    nothing else draws from it. *)
Definition nth_rotation (k : nat) (np0 : np_state E) : Rotation E :=
  fst (Rotation_random E
         (Nat.iter k (fun s => snd (Rotation_random E s)) np0)).

(** Three calls of [random.random()]: the state after them, and the
    translation made of them. *)
Definition skip3 (py0 : py_state E) : py_state E :=
  snd (random E (snd (random E (snd (random E py0))))).

Definition translation_at (py0 : py_state E) : vec :=
  let r1 := random E py0 in
  let r2 := random E (snd r1) in
  let r3 := random E (snd r2) in
  (nth 0 CELL 0 * fst r1, nth 1 CELL 0 * fst r2, nth 2 CELL 0 * fst r3).

End Streams.

End generator_notions.

(** ** Notions used to state the property of normalize_vectors *)

Module utilities_notions.
Local Open Scope R_scope.

(** The power of two [2^e]. *)
Definition pow2 (e : Z) : R := powerRZ 2 e.

(** The real number a finite float stands for (0 for the others). *)
Definition F2R (x : float64.float) : R :=
  match x with
  | S754_finite s m e => (if s then -1 else 1) * (IZR (Zpos m) * pow2 e)
  | _ => 0
  end.

(** Neither an infinity nor NaN. *)
Definition is_finite (x : float64.float) : bool :=
  match x with
  | S754_zero _ | S754_finite _ _ _ => true
  | _ => false
  end.

Definition is_zero (x : float64.float) : bool :=
  match x with
  | S754_zero _ => true
  | _ => false
  end.

(** A float64 number that is zero or of magnitude between 2^-500 and
    2^500 (about 3e-151 and 3e150): its square neither underflows nor
    overflows. *)
Definition moderate (x : float64.float) : Prop :=
  valid_binary float64.prec float64.emax x = true
  /\ (is_zero x = true
      \/ exists s m e, x = S754_finite s m e
                       /\ pow2 (-500) <= IZR (Zpos m) * pow2 e <= pow2 500).

(** Zero or a positive number. *)
Definition is_nonneg (x : float64.float) : bool :=
  match x with
  | S754_zero false | S754_finite false _ _ => true
  | _ => false
  end.

(** [r] is [v] within the relative error [u]. *)
Definition close (u v r : R) : Prop := (1 - u) * v <= r <= (1 + u) * v.

Definition sum_of_squares (row : list R) : R :=
  fold_right (fun a acc => a * a + acc) 0 row.

(** The Euclidean norm of a row of real numbers. *)
Definition euclidean_norm (row : list R) : R := sqrt (sum_of_squares row).

(** Where a real number [u] lies between the integers [m] and [m + 1]:
    what the location of the rounding functions records. *)
Definition loc_ok (u : R) (m : Z) (l : location) : Prop :=
  match l with
  | loc_Exact => u = IZR m
  | loc_Inexact Lt => IZR m < u < IZR m + / 2
  | loc_Inexact Eq => u = IZR m + / 2
  | loc_Inexact Gt => IZR m + / 2 < u < IZR m + 1
  end.

End utilities_notions.

(** ** float64 numbers used in the examples *)

Module utilities_samples.

Definition f_0 : float64.float := S754_zero false.
(** 1.0, 3.0 and 4.0 *)
Definition f_1 : float64.float := S754_finite false 4503599627370496 (-52).
Definition f_3 : float64.float := S754_finite false 6755399441055744 (-51).
Definition f_4 : float64.float := S754_finite false 4503599627370496 (-50).
(** 0.6 and 0.8, as float64 has them *)
Definition f_0_6 : float64.float := S754_finite false 5404319552844595 (-53).
Definition f_0_8 : float64.float := S754_finite false 7205759403792794 (-53).
(** 1e200 and 1e-200, as float64 has them *)
Definition f_1e200 : float64.float := S754_finite false 5883593420661338 612.
Definition f_1em200 : float64.float :=
  S754_finite false 6894565328877484 (-717).
(** 0.7071067811865475 and 0.7071067811865476, next to each other *)
Definition f_0_707_475 : float64.float :=
  S754_finite false 6369051672525772 (-53).
Definition f_0_707_476 : float64.float :=
  S754_finite false 6369051672525773 (-53).

End utilities_samples.

(** ** Further notions: neighbour chains, order of the aggregates, lookup *)

From Stdlib Require Import Sorted.

Module aggregate_notions.

(** Two selected particles of a frame are linked when they are different
    and one is within the cutoff of the other. *)
Definition linked (N : mda.Numerics) (ts : mda.Timestep N) (r : mda.float N)
  (indices : list Z) (i j : Z) : Prop :=
  In i indices /\ In j indices /\ i <> j
  /\ (mda.within N ts r i j = true \/ mda.within N ts r j i = true).

(** [j] is reached from [i] through a chain of linked particles. *)
Inductive connected (N : mda.Numerics) (ts : mda.Timestep N)
  (r : mda.float N) (indices : list Z) (i : Z) : Z -> Prop :=
| connected_refl : connected N ts r indices i i
| connected_step (j k : Z) :
    connected N ts r indices i j -> linked N ts r indices j k ->
    connected N ts r indices i k.

(** The index a traversal was seeded at is the last one it yields. *)
Definition seed_of (aggregate : list Z) : Z := last aggregate 0%Z.

(** [d[k]] on a dict kept in insertion order; [None]: the key is missing. *)
Fixpoint dict_get {V : Type} (d : list (string * V)) (k : string) : option V :=
  match d with
  | [] => None
  | (k', v) :: d' => if String.eqb k' k then Some v else dict_get d' k
  end.

(** The indices of a list that are not in [ys], in the order of the list. *)
Definition without (ys L : list Z) : list Z :=
  filter (fun a => negb (mem a ys)) L.

End aggregate_notions.

(** ** Further notions for the generator *)

Module placement_notions.
Import generator.
Local Open Scope R_scope.

(** Euclidean distance of two points. *)
Definition dist (a b : vec) : R :=
  let '(ax, ay, az) := a in
  let '(bx, by_, bz) := b in
  sqrt ((ax - bx) * (ax - bx) + (ay - by_) * (ay - by_) + (az - bz) * (az - bz)).

(** The bonds lines 105-106 append for a molecule whose first atom has
    index [base]. *)
Definition bonds_from (base : Z) : list (Z * Z) :=
  map (fun j => ((base + Z.of_nat j)%Z, (base + Z.of_nat j + 1)%Z))
      (seq 0 (NPOLY - 1)).

(** One step of numpy's generator. *)
Definition np_step (E : Randomness) (s : np_state E) : np_state E :=
  snd (Rotation_random E s).

End placement_notions.

(** * Properties *)

(** ** Lists *)

Lemma mem_In (x : Z) (l : list Z) : mem x l = true <-> In x l.
Proof.
  unfold mem. rewrite existsb_exists. split.
  - intros [y [Hy He]]. apply Z.eqb_eq in He. now subst.
  - intros H. exists x. split; [assumption | apply Z.eqb_refl].
Qed.

Lemma mem_not_In (x : Z) (l : list Z) : mem x l = false <-> ~ In x l.
Proof.
  rewrite <- mem_In. destruct (mem x l); split; congruence.
Qed.

Lemma list_remove_In (x : Z) (l : list Z) :
  In x l -> exists l', list_remove x l = Some l' /\ Permutation l (x :: l').
Proof.
  induction l as [|y l IH]; simpl; [contradiction|].
  intros Hin. destruct (Z.eqb_spec y x) as [->|Hne].
  - exists l. split; [reflexivity | apply Permutation_refl].
  - destruct Hin as [Heq|Hin]; [congruence|].
    destruct (IH Hin) as [l' [Hr Hp]]. rewrite Hr.
    exists (y :: l'). split; [reflexivity|].
    eapply perm_trans; [apply perm_skip, Hp | apply perm_swap].
Qed.

Lemma list_remove_None (x : Z) (l : list Z) :
  list_remove x l = None <-> ~ In x l.
Proof.
  split.
  - intros Hn Hin. destruct (list_remove_In x l Hin) as [l' [Hr _]]. congruence.
  - induction l as [|y l IH]; simpl; [reflexivity|].
    intros Hnin. destruct (Z.eqb_spec y x) as [->|Hne]; [tauto|].
    rewrite IH; tauto.
Qed.

(** ** The graph that [add_edge] builds *)

Module graph_facts.
Import nx graph.

Lemma adj_Some_In G n vs : adj G n = Some vs -> In n (nodes G).
Proof.
  induction G as [|[k ws] G IH]; simpl; [discriminate|].
  destruct (Z.eqb_spec k n); [now left | intros H; right; auto].
Qed.

Lemma adj_None_not_In G n : adj G n = None <-> ~ In n (nodes G).
Proof.
  induction G as [|[k ws] G IH]; simpl; [tauto|].
  destruct (Z.eqb_spec k n); split; try discriminate; tauto.
Qed.

Lemma has_node_In G n : has_node G n = true <-> In n (nodes G).
Proof.
  unfold has_node. destruct (adj G n) eqn:Ha.
  - split; [intros _; eapply adj_Some_In; eassumption | reflexivity].
  - split; [discriminate | intros H; apply adj_None_not_In in Ha; tauto].
Qed.

Lemma adj_app_new G u n :
  adj (G ++ [(u, [])]) n =
  match adj G n with
  | Some vs => Some vs
  | None => if Z.eqb u n then Some [] else None
  end.
Proof.
  induction G as [|[k ws] G IH]; simpl; [reflexivity|].
  destruct (Z.eqb k n); [reflexivity | apply IH].
Qed.

Lemma adj_add_node G u n :
  adj (add_node G u) n =
  match adj G n with
  | Some vs => Some vs
  | None => if Z.eqb u n then Some [] else None
  end.
Proof.
  unfold add_node, has_node. destruct (adj G u) eqn:Hu.
  - destruct (adj G n) eqn:Hn; [reflexivity|].
    destruct (Z.eqb_spec u n); [congruence | reflexivity].
  - apply adj_app_new.
Qed.

Lemma adj_adj_set G u v n :
  adj (adj_set G u v) n =
  match adj G n with
  | Some vs =>
      if Z.eqb n u then Some (if mem v vs then vs else vs ++ [v]) else Some vs
  | None => None
  end.
Proof.
  induction G as [|[k ws] G IH]; simpl; [reflexivity|].
  destruct (Z.eqb_spec k u) as [->|Hku]; simpl.
  - destruct (Z.eqb_spec u n) as [->|Hun].
    + now rewrite Z.eqb_refl.
    + destruct (adj G n); [|reflexivity].
      destruct (Z.eqb_spec n u); [congruence | reflexivity].
  - destruct (Z.eqb_spec k n) as [->|Hkn].
    + destruct (Z.eqb_spec n u); [congruence | reflexivity].
    + apply IH.
Qed.

Lemma nodes_adj_set G u v : nodes (adj_set G u v) = nodes G.
Proof.
  unfold nodes. induction G as [|[k ws] G IH]; simpl; [reflexivity|].
  destruct (Z.eqb k u); simpl; [reflexivity | now rewrite IH].
Qed.

Lemma nodes_add_node G u :
  nodes (add_node G u) = if has_node G u then nodes G else nodes G ++ [u].
Proof.
  unfold add_node, nodes. destruct (has_node G u); [reflexivity|].
  now rewrite map_app.
Qed.

Lemma NoDup_add_node G u : NoDup (nodes G) -> NoDup (nodes (add_node G u)).
Proof.
  intros H. rewrite nodes_add_node. destruct (has_node G u) eqn:Hu; [assumption|].
  apply NoDup_app; [assumption | constructor; [simpl; tauto | constructor] |].
  intros x Hx [<-|[]]. apply has_node_In in Hx. congruence.
Qed.

Lemma In_nodes_add_node G u n :
  In n (nodes (add_node G u)) <-> In n (nodes G) \/ n = u.
Proof.
  rewrite nodes_add_node. destruct (has_node G u) eqn:Hu.
  - apply has_node_In in Hu. split; [tauto | intros [H| ->]; assumption].
  - rewrite in_app_iff. simpl. intuition congruence.
Qed.

Lemma NoDup_add_edge G a b : NoDup (nodes G) -> NoDup (nodes (add_edge G a b)).
Proof.
  intros H. unfold add_edge. rewrite !nodes_adj_set.
  now apply NoDup_add_node, NoDup_add_node.
Qed.

Lemma In_nodes_add_edge G a b n :
  In n (nodes (add_edge G a b)) <-> In n (nodes G) \/ n = a \/ n = b.
Proof.
  unfold add_edge. rewrite !nodes_adj_set, !In_nodes_add_node. tauto.
Qed.

Lemma In_snoc_mem (v x : Z) (vs : list Z) :
  In x (if mem v vs then vs else vs ++ [v]) <-> In x vs \/ x = v.
Proof.
  destruct (mem v vs) eqn:Hm.
  - apply mem_In in Hm. split; [tauto | intros [H| ->]; assumption].
  - rewrite in_app_iff. simpl. intuition congruence.
Qed.

Lemma edge_add_node G x u v : edge (add_node G x) u v <-> edge G u v.
Proof.
  unfold edge. rewrite adj_add_node. destruct (adj G u) as [vs|]; [tauto|].
  destruct (Z.eqb x u).
  - split; intros [ws [[= <-] Hin]]. destruct Hin.
  - split; intros [ws [[=] _]].
Qed.

Lemma edge_adj_set G a b u v :
  edge (adj_set G a b) u v <->
  edge G u v \/ (u = a /\ v = b /\ In a (nodes G)).
Proof.
  unfold edge. rewrite adj_adj_set. destruct (adj G u) as [vs|] eqn:Hu.
  - destruct (Z.eqb_spec u a) as [Hua|Hua].
    + split.
      * intros [ws [[= <-] Hin]]. apply In_snoc_mem in Hin.
        destruct Hin as [Hin|Hin]; [left; eauto | right].
        subst. repeat split. eapply adj_Some_In; eassumption.
      * intros H. eexists; split; [reflexivity|]. apply In_snoc_mem.
        destruct H as [[ws [[= <-] Hin]]|[_ [-> _]]]; tauto.
    + split.
      * intros [ws [[= <-] Hin]]. eauto.
      * intros [H|[? _]]; [assumption | contradiction].
  - split.
    + intros [ws [[=] _]].
    + intros [[ws [[=] _]]|[-> [_ Hin]]].
      apply adj_None_not_In in Hu. contradiction.
Qed.

(** The edges after [add_edge G a b]: those of [G], and [a - b] both ways. *)
Lemma edge_add_edge G a b u v :
  edge (add_edge G a b) u v <->
  edge G u v \/ (u = a /\ v = b) \/ (u = b /\ v = a).
Proof.
  unfold add_edge. rewrite !edge_adj_set, !edge_add_node, !nodes_adj_set.
  assert (Ha : In a (nodes (add_node (add_node G a) b)))
    by (rewrite !In_nodes_add_node; tauto).
  assert (Hb : In b (nodes (add_node (add_node G a) b)))
    by (rewrite !In_nodes_add_node; tauto).
  tauto.
Qed.

Lemma undirected_empty : undirected empty.
Proof.
  split; [constructor | intros u v [vs [[=] _]]].
Qed.

Lemma undirected_add_edge G a b : undirected G -> undirected (add_edge G a b).
Proof.
  intros [Hnd Hsym]. split; [now apply NoDup_add_edge|].
  intros u v. rewrite !edge_add_edge. intros [H|[[-> ->]|[-> ->]]]; auto.
Qed.

Lemma edge_node_l G u v : edge G u v -> In u (nodes G).
Proof. intros [vs [Ha _]]. eapply adj_Some_In; eassumption. Qed.

Lemma edge_node_r G u v : undirected G -> edge G u v -> In v (nodes G).
Proof. intros [_ Hsym] H. eapply edge_node_l, Hsym, H. Qed.

Lemma reach_trans G s u v : reach G s u -> reach G u v -> reach G s v.
Proof.
  intros Hsu Huv. induction Huv; [assumption | eapply reach_step; eassumption].
Qed.

Lemma reach_sym G s v : undirected G -> reach G s v -> reach G v s.
Proof.
  intros [_ Hsym] H. induction H as [|u v _ IH He]; [constructor|].
  eapply reach_trans; [|exact IH].
  eapply reach_step; [constructor | apply Hsym, He].
Qed.

Lemma reach_closed G L s v : closed G L -> In s L -> reach G s v -> In v L.
Proof.
  intros Hc Hs H. induction H; [assumption | eapply Hc; eassumption].
Qed.

End graph_facts.

(** ** Depth-first postorder visits the component of its start node *)

Module dfs_facts.
Import nx graph graph_facts.

Lemma unvisited_weight_fresh G c visited :
  ~ In c (nodes G) ->
  unvisited_weight G (c :: visited) = unvisited_weight G visited.
Proof.
  induction G as [|[k vs] G IH]; simpl; [reflexivity|].
  intros Hn. destruct (Z.eqb_spec k c) as [->|Hkc]; [tauto|].
  simpl. rewrite IH by tauto. reflexivity.
Qed.

(** Visiting a node takes its share out of the unvisited weight. *)
Lemma unvisited_weight_visit G c cs visited :
  NoDup (nodes G) -> adj G c = Some cs -> ~ In c visited ->
  (unvisited_weight G (c :: visited) + S (List.length cs)
   = unvisited_weight G visited)%nat.
Proof.
  induction G as [|[k vs] G IH]; simpl; [discriminate|].
  intros Hnd Ha Hnv. inversion Hnd as [|? ? Hk Hnd']; subst.
  destruct (Z.eqb_spec k c) as [->|Hkc].
  - injection Ha as ->. simpl.
    apply mem_not_In in Hnv. rewrite Hnv.
    rewrite unvisited_weight_fresh by assumption. lia.
  - simpl. specialize (IH Hnd' Ha Hnv). lia.
Qed.

Lemma iterator_ok_mono G visited visited' fr :
  (forall v, In v visited -> In v visited') ->
  iterator_ok G visited fr -> iterator_ok G visited' fr.
Proof.
  intros Hsub [vs [Ha [Hin Hout]]]. exists vs. repeat split; auto.
  intros v Hv. destruct (Hout v Hv); auto.
Qed.

Section Traversal.

Variable G : Graph.
Variable s : Z.
Hypothesis HG : undirected G.

Lemma stack_nodes_in_graph visited stack :
  Forall (iterator_ok G visited) stack -> incl (stack_nodes stack) (nodes G).
Proof.
  induction 1 as [|fr stack [vs [Ha _]] _ IH]; intros x; simpl; [tauto|].
  intros [<-|Hx]; [eapply adj_Some_In; eassumption | auto].
Qed.

(** The iterator of the top entry is exhausted and there is an entry below:
    the top node is yielded. *)
Lemma invariant_pop visited p d b below out :
  dfs_invariant G s visited ((p, d, []) :: b :: below) out ->
  dfs_invariant G s visited (b :: below) (out ++ [p]).
Proof.
  intros [Hnd Hvis Hit Hdone Hreach Hdepth Hbot]. split.
  - rewrite <- app_assoc. exact Hnd.
  - intros v. rewrite Hvis, in_app_iff. simpl. tauto.
  - now inversion Hit.
  - intros u v Hu He. apply in_app_iff in Hu. destruct Hu as [Hu|[<-|[]]].
    + eauto.
    + inversion Hit as [|? ? [vs [Ha [_ Hout]]] _]; subst. simpl in *.
      destruct He as [ws [Hws Hin]]. rewrite Ha in Hws. injection Hws as <-.
      destruct (Hout v Hin) as [[]|]; assumption.
  - exact Hreach.
  - apply Hdepth.
  - destruct Hbot as [above [d' [rem Heq]]].
    destruct above as [|a above]; simpl in Heq; [discriminate|].
    injection Heq as _ Heq. eauto.
Qed.

(** The next neighbour has been visited already. *)
Lemma invariant_skip visited p d c rest below out :
  dfs_invariant G s visited ((p, d, c :: rest) :: below) out ->
  In c visited ->
  dfs_invariant G s visited ((p, d, rest) :: below) out.
Proof.
  intros [Hnd Hvis Hit Hdone Hreach Hdepth Hbot] Hc. split; try assumption.
  - inversion Hit as [|? ? [vs [Ha [Hin Hout]]] Hbelow]; subst. constructor.
    + exists vs. simpl in *. repeat split; auto.
      intros v Hv. destruct (Hout v Hv) as [[<-|]|]; auto.
    + assumption.
  - destruct Hbot as [above [d' [rem Heq]]].
    destruct above as [|a above]; simpl in Heq.
    + injection Heq as Hp _ _ Hb. exists [], d, rest.
      simpl. now rewrite Hb, Hp.
    + injection Heq as _ Heq. exists ((p, d, rest) :: above), d', rem.
      simpl. now rewrite Heq.
Qed.

(** The next neighbour is new: it is a node of the graph, the depth limit
    has not been reached, and it goes on the stack. *)
Lemma invariant_push visited p d c rest below out :
  dfs_invariant G s visited ((p, d, c :: rest) :: below) out ->
  ~ In c visited ->
  exists cs,
    adj G c = Some cs /\ (1 < d)%nat
    /\ dfs_invariant G s (c :: visited)
         ((c, pred d, cs) :: (p, d, rest) :: below) out
    /\ (unvisited_weight G (c :: visited) + S (List.length cs)
        = unvisited_weight G visited)%nat.
Proof.
  intros [Hnd Hvis Hit Hdone Hreach Hdepth Hbot] Hc.
  destruct HG as [HndG Hsym].
  assert (Hpc : edge G p c).
  { inversion Hit as [|? ? [vs [Ha [Hin _]]] _]; subst. exists vs.
    split; [exact Ha | apply Hin; now left]. }
  destruct (Hsym _ _ Hpc) as [cs [Hcs Hpcs]].
  exists cs. split; [exact Hcs|].
  assert (Hstack : incl (stack_nodes ((p, d, c :: rest) :: below)) (nodes G))
    by (eapply stack_nodes_in_graph; eassumption).
  assert (Hfresh : ~ In c (out ++ stack_nodes ((p, d, c :: rest) :: below))).
  { intros Hin. apply Hc, Hvis. now apply in_app_iff. }
  assert (Hd : (1 < d)%nat).
  { assert (Hlen : (List.length (c :: stack_nodes ((p, d, c :: rest) :: below))
                    <= List.length (nodes G))%nat).
    { apply NoDup_incl_length.
      - constructor.
        + intros Hin. apply Hfresh, in_app_iff. now right.
        + eapply NoDup_app_remove_l; eassumption.
      - intros x [<-|Hx]; [eapply adj_Some_In; eassumption | auto]. }
    unfold nodes, stack_nodes in Hlen. simpl in Hlen, Hdepth.
    rewrite !length_map in Hlen. lia. }
  split; [exact Hd|]. split.
  - split.
    + simpl. eapply Permutation_NoDup; [apply Permutation_middle|].
      constructor; assumption.
    + intros v. simpl. rewrite Hvis. simpl. tauto.
    + constructor.
      * exists cs. simpl. repeat split; auto.
      * inversion Hit as [|? ? [vs [Ha [Hin Hout]]] Hbelow]; subst. constructor.
        -- exists vs. simpl in *. repeat split; auto.
           intros v Hv. destruct (Hout v Hv) as [[<-|]|]; auto.
        -- eapply Forall_impl; [|exact Hbelow].
           intros fr. apply iterator_ok_mono. intros v; simpl; auto.
    + intros u v Hu He. right. eauto.
    + intros v [<-|Hv]; [|auto].
      eapply reach_step; [|exact Hpc]. apply Hreach, Hvis. right. now left.
    + simpl in *. split; [lia | exact Hdepth].
    + destruct Hbot as [above [d' [rem Heq]]].
      destruct above as [|a above]; simpl in Heq.
      * injection Heq as Hp _ _ Hb.
        exists [(c, pred d, cs)], d, rest. simpl. now rewrite Hb, Hp.
      * injection Heq as _ Heq.
        exists ((c, pred d, cs) :: (p, d, rest) :: above), d', rem.
        simpl. now rewrite Heq.
  - apply unvisited_weight_visit; assumption.
Qed.

(** The iterator of the only entry is exhausted: the traversal is over. *)
Lemma invariant_finish visited p d out :
  dfs_invariant G s visited [(p, d, [])] out ->
  component_of G s (out ++ [s]).
Proof.
  intros [Hnd Hvis Hit Hdone Hreach Hdepth Hbot].
  assert (p = s) as ->.
  { destruct Hbot as [above [d' [rem Heq]]].
    destruct above as [|a [|a' above]]; simpl in Heq; try discriminate.
    now injection Heq. }
  simpl in *.
  assert (Hset : forall v, In v visited <-> In v (out ++ [s])).
  { intros v. rewrite Hvis, in_app_iff. simpl. tauto. }
  assert (Hclosed : closed G (out ++ [s])).
  { intros u v Hu He. apply Hset. apply in_app_iff in Hu.
    destruct Hu as [Hu|[<-|[]]]; [eauto|].
    inversion Hit as [|? ? [vs [Ha [_ Hout]]] _]; subst. simpl in *.
    destruct He as [ws [Hws Hin]]. rewrite Ha in Hws. injection Hws as <-.
    destruct (Hout v Hin) as [[]|Hv]. exact Hv. }
  split; [exact Hnd|]. intros v. split.
  - intros Hv. apply Hreach, Hset, Hv.
  - apply reach_closed; [exact Hclosed|]. apply in_app_iff. right. now left.
Qed.

(** With one unit of fuel per remaining iterator step and per unvisited
    node and adjacency entry, the loop runs to the end without exception and
    leaves the component of [s]. *)
Lemma dfs_loop_component fuel : forall visited stack out,
  dfs_invariant G s visited stack out ->
  stack <> [] ->
  (stack_weight stack + unvisited_weight G visited <= fuel)%nat ->
  exists out',
    dfs_loop G fuel visited stack out = Some (out', None)
    /\ component_of G s (out' ++ [s]).
Proof.
  induction fuel as [|fuel IH]; intros visited stack out Hinv Hne Hfuel.
  - destruct stack as [|[[p d] children] below]; [congruence | simpl in Hfuel; lia].
  - destruct stack as [|[[p d] children] below]; [congruence|].
    simpl. destruct children as [|c rest].
    + destruct below as [|b below].
      * exists out. split; [destruct fuel; reflexivity|].
        eapply invariant_finish; eassumption.
      * apply IH; [eapply invariant_pop; eassumption | discriminate|].
        simpl in *. destruct b as [[? ?] ?]. lia.
    + destruct (mem c visited) eqn:Hm.
      * apply IH; [|discriminate | simpl in *; lia].
        apply mem_In in Hm. eapply invariant_skip; eassumption.
      * apply mem_not_In in Hm.
        destruct (invariant_push _ _ _ _ _ _ _ Hinv Hm)
          as [cs [Hcs [Hd [Hinv' Hw]]]].
        apply Nat.ltb_lt in Hd. rewrite Hd, Hcs.
        apply IH; [exact Hinv' | discriminate | simpl in *; lia].
Qed.

End Traversal.

Lemma unvisited_weight_start G s cs :
  NoDup (nodes G) -> adj G s = Some cs ->
  (S (List.length cs) + unvisited_weight G [s] = dfs_fuel G)%nat.
Proof.
  intros Hnd Ha.
  pose proof (unvisited_weight_visit G s cs [] Hnd Ha (fun H => H)) as Hv.
  assert (Hall : unvisited_weight G [] = dfs_fuel G).
  { clear. unfold dfs_fuel. induction G as [|[k vs] G IH]; simpl; [reflexivity|].
    now rewrite IH. }
  lia.
Qed.

(** [dfs_postorder_nodes] from a node of an undirected graph yields the
    connected component of that node, each node once, and raises nothing. *)
Theorem dfs_postorder_nodes_component G s :
  undirected G -> In s (nodes G) ->
  exists ys,
    dfs_postorder_nodes G s = Some (ys, None) /\ component_of G s ys.
Proof.
  intros HG Hs. unfold dfs_postorder_nodes.
  destruct (adj G s) as [cs|] eqn:Hcs;
    [|apply adj_None_not_In in Hcs; contradiction].
  destruct (dfs_loop_component G s HG (dfs_fuel G) [s]
              [(s, List.length G, cs)] []) as [out [Hrun Hc]].
  - split.
    + simpl. constructor; [simpl; tauto | constructor].
    + intros v. simpl. tauto.
    + constructor; [|constructor]. exists cs. simpl. auto.
    + intros u v [].
    + intros v [<-|[]]. constructor.
    + simpl. split; [lia | exact I].
    + exists [], (List.length G), cs. reflexivity.
  - discriminate.
  - simpl. pose proof (unvisited_weight_start G s cs (proj1 HG) Hcs). lia.
  - rewrite Hrun. eauto.
Qed.

(** From a node that is not in the graph, the generator raises KeyError
    before it yields anything. *)
Lemma dfs_postorder_nodes_missing G s :
  ~ In s (nodes G) ->
  dfs_postorder_nodes G s = Some ([], Some (KeyError s)).
Proof.
  intros Hs. apply adj_None_not_In in Hs. unfold dfs_postorder_nodes.
  now rewrite Hs.
Qed.

End dfs_facts.

(** ** The partition loop of determine_aggregates *)

Module aggregation_facts.
Import nx graph graph_facts dfs_facts aggregation.

(** Removing atoms that are all different and all still unassigned never
    fails, and leaves the other unassigned atoms. *)
Lemma collect_returns (ys : list Z) : forall aggregate L,
  NoDup ys -> incl ys L ->
  exists L',
    collect ys aggregate L = Returns (aggregate ++ ys, L')
    /\ Permutation L (ys ++ L').
Proof.
  induction ys as [|y ys IH]; intros aggregate L Hnd Hincl; simpl.
  - exists L. rewrite app_nil_r. split; [reflexivity | apply Permutation_refl].
  - inversion Hnd as [|? ? Hy Hnd']; subst.
    destruct (list_remove_In y L (Hincl y (or_introl eq_refl))) as [L1 [Hr Hp]].
    rewrite Hr.
    destruct (IH (aggregate ++ [y]) L1 Hnd') as [L' [Hc Hp']].
    + intros z Hz. assert (Hz' : In z (y :: L1)).
      { eapply Permutation_in; [exact Hp|]. apply Hincl. now right. }
      destruct Hz' as [<-|Hz']; [contradiction | assumption].
    + exists L'. rewrite Hc, <- app_assoc. split; [reflexivity|].
      eapply perm_trans; [exact Hp|]. simpl. now apply perm_skip.
Qed.

Lemma component_in_graph G s ys :
  undirected G -> In s (nodes G) -> component_of G s ys ->
  forall v, In v ys -> In v (nodes G).
Proof.
  intros HG Hs [_ Hc] v Hv. apply Hc in Hv.
  destruct Hv as [|u v _ He]; [assumption | eapply edge_node_r; eassumption].
Qed.

Section Loop.

Variable G : Graph.
Hypothesis HG : undirected G.

(** Taking a whole component out of a closed set of indices leaves a closed
    set. *)
Lemma closed_remove_component L s ys L' :
  NoDup L -> closed G L -> In s L -> component_of G s ys ->
  Permutation L (ys ++ L') -> closed G L'.
Proof.
  intros Hnd Hc Hs [Hndy Hy] Hp u v Hu He.
  assert (HndL : NoDup (ys ++ L')) by (eapply Permutation_NoDup; eassumption).
  assert (Hv : In v (ys ++ L')).
  { eapply Permutation_in; [exact Hp|]. eapply Hc; [|exact He].
    eapply Permutation_in; [apply Permutation_sym, Hp|].
    apply in_app_iff. now right. }
  apply in_app_iff in Hv. destruct Hv as [Hv|Hv]; [|assumption].
  exfalso. apply Hy in Hv.
  assert (Hu' : In u ys).
  { apply Hy. eapply reach_step; [exact Hv|]. now apply (proj2 HG). }
  revert Hu' Hu. clear -HndL. induction ys as [|y ys IH]; simpl; [tauto|].
  inversion HndL as [|? ? Hny Hnd']; subst.
  intros [<-|Hu'] Hu; [apply Hny, in_app_iff; now right | now apply IH].
Qed.

(** The loop either returns a partition of the indices it was given, made of
    connected components, or stops with the KeyError of a start index that
    is not a node of the graph.  It never fails in [list.remove] and never
    runs out of fuel. *)
Lemma partition_loop_cases fuel : forall L aggregates,
  NoDup L -> closed G L -> (List.length L <= fuel)%nat ->
  (exists new,
      partition_loop G fuel L aggregates = Returns (aggregates ++ new)
      /\ partitions new L
      /\ (forall u, In u L -> In u (nodes G))
      /\ Forall (fun a => exists s, In s L /\ component_of G s a) new)
  \/ (exists k,
         partition_loop G fuel L aggregates = Raises (KeyError k)
         /\ In k L /\ ~ In k (nodes G)).
Proof.
  induction fuel as [|fuel IH]; intros L aggregates Hnd Hc Hlen.
  - destruct L; [|simpl in Hlen; lia]. left. exists []. simpl.
    rewrite app_nil_r. repeat split; try constructor. intros u [].
  - destruct L as [|first L0].
    { left. exists []. simpl. rewrite app_nil_r.
      repeat split; try constructor. intros u []. }
    simpl. destruct (in_dec Z.eq_dec first (nodes G)) as [Hin|Hnin].
    + destruct (dfs_postorder_nodes_component G first HG Hin) as [ys [Hrun Hcomp]].
      rewrite Hrun.
      assert (Hys : incl ys (first :: L0)).
      { intros v Hv. apply (proj2 Hcomp) in Hv.
        eapply reach_closed; [exact Hc | now left | exact Hv]. }
      destruct (collect_returns ys [] (first :: L0) (proj1 Hcomp) Hys)
        as [L' [Hcol Hp]].
      rewrite Hcol. simpl.
      assert (Hfirst : In first ys) by (apply (proj2 Hcomp); constructor).
      assert (HndL : NoDup (ys ++ L')) by (eapply Permutation_NoDup; eassumption).
      assert (Hlen' : (List.length L' <= fuel)%nat).
      { apply Permutation_length in Hp. rewrite length_app in Hp.
        simpl in Hp, Hlen. destruct ys; [destruct Hfirst | simpl in Hp; lia]. }
      assert (HndL' : NoDup L') by (eapply NoDup_app_remove_l; eassumption).
      assert (Hc' : closed G L').
      { exact (closed_remove_component (first :: L0) first ys L' Hnd Hc
                 (or_introl eq_refl) Hcomp Hp). }
      destruct (IH L' (aggregates ++ [ys]) HndL' Hc' Hlen')
        as [[new [Hr [Hpart [Hnodes Hcomps]]]]|[k [Hr [Hk Hkn]]]].
      * left. exists (ys :: new). rewrite Hr, <- app_assoc. split; [reflexivity|].
        destruct Hpart as [Hperm [_ Hne]].
        assert (Hall : Permutation (List.concat (ys :: new)) (first :: L0)).
        { simpl. eapply perm_trans; [|apply Permutation_sym, Hp].
          now apply Permutation_app_head. }
        split; [|split].
        -- split; [exact Hall | split].
           ++ eapply Permutation_NoDup; [apply Permutation_sym, Hall | exact Hnd].
           ++ constructor; [|exact Hne]. intros ->. destruct Hfirst.
        -- intros u Hu.
           assert (Hu' : In u (ys ++ L'))
             by (eapply Permutation_in; [exact Hp | exact Hu]).
           apply in_app_iff in Hu'. destruct Hu' as [Hu'|Hu']; [|auto].
           eapply component_in_graph; eassumption.
        -- constructor.
           ++ exists first. split; [now left | exact Hcomp].
           ++ eapply Forall_impl; [|exact Hcomps].
              intros a [s [Hs Ha]]. exists s. split; [|exact Ha].
              apply (Permutation_in s (Permutation_sym Hp)).
              apply in_app_iff. now right.
      * right. exists k. split; [exact Hr|]. split; [|exact Hkn].
        apply (Permutation_in k (Permutation_sym Hp)).
        apply in_app_iff. now right.
    + right. exists first. rewrite (dfs_postorder_nodes_missing G first Hnin).
      simpl. repeat split; [now left | exact Hnin].
Qed.

End Loop.

(** *** The graph of a frame *)

Lemma build_graph_pairs nl :
  build_graph nl =
  fold_left (fun g ab => add_edge g (fst ab) (snd ab)) (pairs_of nl) empty.
Proof.
  unfold build_graph, pairs_of. generalize empty.
  induction nl as [|[i ns] nl IH]; intros G; simpl; [reflexivity|].
  rewrite fold_left_app, IH. f_equal.
  clear. revert G. induction ns as [|n ns IH]; intros G; simpl; [reflexivity|].
  apply IH.
Qed.

Lemma fold_add_edge pairs : forall G,
  undirected G -> no_bare_node G ->
  undirected (fold_left (fun g ab => add_edge g (fst ab) (snd ab)) pairs G)
  /\ no_bare_node (fold_left (fun g ab => add_edge g (fst ab) (snd ab)) pairs G)
  /\ forall u v,
       edge (fold_left (fun g ab => add_edge g (fst ab) (snd ab)) pairs G) u v
       <-> edge G u v \/ In (u, v) pairs \/ In (v, u) pairs.
Proof.
  induction pairs as [|[a b] pairs IH]; intros G HG Hbare; simpl.
  - split; [exact HG | split; [exact Hbare | intros u v; tauto]].
  - destruct (IH (add_edge G a b)) as [HG' [Hbare' Hedge]].
    + now apply undirected_add_edge.
    + intros n Hn. apply In_nodes_add_edge in Hn.
      destruct Hn as [Hn|[->| ->]].
      * destruct (Hbare n Hn) as [v Hv]. exists v. apply edge_add_edge. tauto.
      * exists b. apply edge_add_edge. tauto.
      * exists a. apply edge_add_edge. tauto.
    + split; [exact HG' | split; [exact Hbare'|]].
      intros u v. rewrite Hedge, edge_add_edge. split.
      * intros [[H|[[-> ->]|[-> ->]]]|[H|H]]; auto.
      * intros [H|[[[= -> ->]|H]|[[= -> ->]|H]]]; auto.
Qed.

Lemma build_graph_spec nl :
  undirected (build_graph nl) /\ no_bare_node (build_graph nl)
  /\ forall u v, edge (build_graph nl) u v <->
                 In (u, v) (pairs_of nl) \/ In (v, u) (pairs_of nl).
Proof.
  rewrite build_graph_pairs.
  destruct (fold_add_edge (pairs_of nl) empty undirected_empty)
    as [HG [Hbare Hedge]].
  - intros n [].
  - split; [exact HG | split; [exact Hbare|]].
    intros u v. rewrite Hedge. split; [|tauto].
    intros [[vs [[=] _]]|H]; exact H.
Qed.

Section Frame.

Variable N : mda.Numerics.
Variable ts : mda.Timestep N.
Variable r : mda.float N.
Variable indices : list Z.

Let nl := calculate_neighborlists_from_distances N indices ts r.

Lemma In_pairs_of a b :
  In (a, b) (pairs_of nl) <->
  In a indices /\ In b indices /\ b <> a /\ mda.within N ts r a b = true.
Proof.
  unfold pairs_of, nl, calculate_neighborlists_from_distances.
  rewrite in_flat_map. split.
  - intros [[i ns] [Hin Hab]]. apply in_map_iff in Hin.
    destruct Hin as [i' [[= <- <-] Hi]]. simpl in Hab.
    apply in_map_iff in Hab. destruct Hab as [b' [[= <- <-] Hb]].
    apply filter_In in Hb. destruct Hb as [Hb Hw].
    apply andb_true_iff in Hw. destruct Hw as [Hne Hw].
    apply negb_true_iff, Z.eqb_neq in Hne. auto.
  - intros [Ha [Hb [Hne Hw]]].
    eexists. split; [apply in_map_iff; exists a; split; [reflexivity | exact Ha]|].
    simpl. apply in_map. apply filter_In. split; [exact Hb|].
    apply andb_true_iff. split; [|exact Hw].
    now apply negb_true_iff, Z.eqb_neq.
Qed.

Lemma frame_graph_closed : closed (build_graph nl) indices.
Proof.
  intros u v _ He. apply (proj2 (proj2 (build_graph_spec nl))) in He.
  rewrite !In_pairs_of in He. tauto.
Qed.

Lemma frame_graph_node k :
  In k (nodes (build_graph nl)) <-> In k indices /\ has_neighbour N ts r indices k.
Proof.
  destruct (build_graph_spec nl) as [HG [Hbare Hedge]]. split.
  - intros Hk. destruct (Hbare k Hk) as [v Hv]. apply Hedge in Hv.
    rewrite !In_pairs_of in Hv. unfold has_neighbour.
    destruct Hv as [[? [? [? ?]]]|[? [? [? ?]]]]; split; try assumption;
      exists v; repeat split; auto.
  - intros [Hk [j [Hj [Hne Hw]]]]. apply edge_node_l with (v := j).
    apply Hedge. rewrite !In_pairs_of. destruct Hw; [left | right]; auto.
Qed.

Lemma isolated_no_neighbour k :
  isolated N ts r indices k <-> ~ has_neighbour N ts r indices k.
Proof.
  unfold isolated, has_neighbour. split.
  - intros Hiso [j [Hj [Hne Hw]]]. destruct (Hiso j Hj Hne) as [H1 H2].
    destruct Hw; congruence.
  - intros Hno j Hj Hne.
    destruct (mda.within N ts r k j) eqn:H1;
      [exfalso; apply Hno; exists j; auto|].
    destruct (mda.within N ts r j k) eqn:H2;
      [exfalso; apply Hno; exists j; auto|].
    split; reflexivity.
Qed.

(** The aggregates of a frame: a partition of the selected indices into
    connected components when every selected particle has a neighbour, and
    the KeyError of an isolated particle otherwise. *)
Lemma frame_aggregates_cases :
  NoDup indices ->
  (exists aggregates,
      frame_aggregates N indices ts r = Returns aggregates
      /\ partitions aggregates indices
      /\ (forall k, In k indices -> has_neighbour N ts r indices k)
      /\ Forall (fun a => exists s, In s indices
                                    /\ component_of (build_graph nl) s a)
           aggregates)
  \/ (exists k,
         frame_aggregates N indices ts r = Raises (KeyError k)
         /\ In k indices /\ isolated N ts r indices k).
Proof.
  intros Hnd. unfold frame_aggregates. fold nl.
  destruct (partition_loop_cases (build_graph nl)
              (proj1 (build_graph_spec nl)) (List.length indices) indices []
              Hnd frame_graph_closed (le_n _))
    as [[new [Hr [Hpart [Hnodes Hcomps]]]]|[k [Hr [Hk Hkn]]]].
  - left. exists new. simpl in Hr. repeat split; try assumption; try apply Hpart.
    intros k Hk. now apply frame_graph_node, Hnodes.
  - right. exists k. split; [exact Hr|]. split; [exact Hk|].
    apply isolated_no_neighbour. intros Hn. apply Hkn, frame_graph_node. auto.
Qed.

End Frame.

End aggregation_facts.

(** ** Dicts in insertion order *)

Module dict_facts.

Lemma has_key_In k keys : has_key k keys = true <-> In k keys.
Proof.
  unfold has_key. rewrite existsb_exists. split.
  - intros [k' [Hin He]]. apply String.eqb_eq in He. now subst.
  - intros H. exists k. split; [exact H | apply String.eqb_refl].
Qed.

Lemma dict_keys_set {V} (d : list (string * V)) k v :
  dict_keys (dict_set d k v) =
  if has_key k (dict_keys d) then dict_keys d else dict_keys d ++ [k].
Proof.
  unfold dict_keys. induction d as [|[k' v'] d IH]; simpl; [reflexivity|].
  destruct (String.eqb k' k); simpl; [reflexivity|].
  rewrite IH. now destruct (has_key k (map fst d)).
Qed.

Lemma In_dict_set {V} (d : list (string * V)) k v kv :
  In kv (dict_set d k v) -> In kv d \/ kv = (k, v).
Proof.
  induction d as [|[k' v'] d IH]; simpl.
  - intros [<-|[]]. now right.
  - destruct (String.eqb_spec k' k) as [->|Hne]; simpl.
    + intros [<-|H]; auto.
    + intros [<-|H]; auto. destruct (IH H); auto.
Qed.

Lemma In_set_all {V} (kvs : list (string * V)) : forall d kv,
  In kv (set_all kvs d) -> In kv d \/ In kv kvs.
Proof.
  induction kvs as [|[k v] kvs IH]; intros d kv; simpl; [auto|].
  intros H. apply IH in H. destruct H as [H|H]; [|auto].
  apply In_dict_set in H. destruct H as [H| ->]; auto.
Qed.

Lemma filter_filter {A} (f g : A -> bool) l :
  filter f (filter g l) = filter (fun a => g a && f a) l.
Proof.
  induction l as [|a l IH]; simpl; [reflexivity|].
  destruct (g a); simpl; [destruct (f a)|]; now rewrite IH.
Qed.

Lemma filter_keep_all {A} (f : A -> bool) l :
  (forall a, In a l -> f a = true) -> filter f l = l.
Proof.
  induction l as [|a l IH]; simpl; intros H; [reflexivity|].
  rewrite (H a (or_introl eq_refl)), IH; auto.
Qed.

(** The keys after a run of assignments: the old keys, then the new ones in
    the order of their first assignment. *)
Lemma dict_keys_set_all {V} (kvs : list (string * V)) : forall d,
  dict_keys (set_all kvs d) =
  dict_keys d ++
  filter (fun k => negb (has_key k (dict_keys d)))
         (first_occurrences (map fst kvs)).
Proof.
  induction kvs as [|[k v] kvs IH]; intros d; simpl.
  - now rewrite app_nil_r.
  - rewrite IH, dict_keys_set. destruct (has_key k (dict_keys d)) eqn:Hk; simpl.
    + f_equal. rewrite filter_filter. apply filter_ext_in. intros k' _.
      destruct (String.eqb_spec k' k) as [->|Hne]; simpl; [now rewrite Hk|].
      reflexivity.
    + rewrite <- app_assoc. simpl. do 2 f_equal.
      rewrite filter_filter. apply filter_ext. intros k'.
      unfold has_key. rewrite existsb_app. simpl.
      rewrite orb_false_r, negb_orb.
      rewrite (String.eqb_sym k k'). apply andb_comm.
Qed.

Lemma In_first_occurrences l k : In k (first_occurrences l) <-> In k l.
Proof.
  induction l as [|a l IH]; simpl; [tauto|].
  rewrite filter_In, IH. destruct (String.eqb_spec k a) as [->|Hne]; simpl.
  - split; auto.
  - split; [tauto | intros [H|H]; [congruence | auto]].
Qed.

Lemma NoDup_first_occurrences l : NoDup (first_occurrences l).
Proof.
  induction l as [|a l IH]; simpl; constructor.
  - rewrite filter_In, String.eqb_refl. simpl. intros [_ [=]].
  - now apply NoDup_filter.
Qed.

Lemma first_occurrences_NoDup l : NoDup l -> first_occurrences l = l.
Proof.
  induction 1 as [|a l Ha _ IH]; simpl; [reflexivity|].
  rewrite IH. f_equal. apply filter_keep_all. intros k Hk.
  destruct (String.eqb_spec k a) as [->|Hne]; [contradiction | reflexivity].
Qed.

End dict_facts.

(** ** determine_aggregates *)

Module document_facts.
Import nx graph aggregation aggregation_facts dict_facts.

Section Document.

Variable N : mda.Numerics.

Lemma atoms_indices_NoDup (u : mda.Universe N) : NoDup (mda.atoms_indices u).
Proof.
  unfold mda.atoms_indices. apply Finite.Injective_map_NoDup.
  - intros a b. apply Nat2Z.inj.
  - apply seq_NoDup.
Qed.

(** The selected indices are pairwise different. *)
Lemma selected_atoms_NoDup (u : mda.Universe N) selection indices :
  selected_atoms N u selection = Returns indices -> NoDup indices.
Proof.
  unfold selected_atoms, mda.select_atoms. destruct selection as [sel|].
  - destruct (mda.select u sel); [|discriminate].
    intros [= <-]. apply NoDup_filter, atoms_indices_NoDup.
  - intros [= <-]. apply atoms_indices_NoDup.
Qed.

(** When the loop over the trajectory returns, every frame has produced its
    aggregates, and the data are those values assigned in frame order. *)
Lemma trajectory_loop_returns indices r frames : forall data data',
  trajectory_loop N indices r frames data = Returns data' ->
  exists values,
    Forall2 (frame_value N indices r) frames values
    /\ data' = set_all (combine (map (mda.str_Timestep N) frames) values) data.
Proof.
  induction frames as [|ts frames IH]; intros data data'; simpl.
  - intros [= <-]. exists []. split; [constructor | reflexivity].
  - destruct (frame_aggregates N indices ts r) as [aggregates| |] eqn:Hf;
      try discriminate.
    intros H. destruct (IH _ _ H) as [values [Hall ->]].
    exists (aggregates_value aggregates :: values). split; [|reflexivity].
    constructor; [|exact Hall]. exists aggregates. auto.
Qed.

(** The loop over the trajectory returns, or stops at the first frame with
    an isolated selected particle. *)
Lemma trajectory_loop_cases indices r frames : forall data,
  NoDup indices ->
  (exists data', trajectory_loop N indices r frames data = Returns data')
  \/ (exists ts k,
         trajectory_loop N indices r frames data = Raises (KeyError k)
         /\ In ts frames /\ In k indices /\ isolated N ts r indices k).
Proof.
  induction frames as [|ts frames IH]; intros data Hnd; simpl.
  - left. eauto.
  - destruct (frame_aggregates_cases N ts r indices Hnd)
      as [[aggregates [Hr _]]|[k [Hr [Hk Hiso]]]]; rewrite Hr.
    + destruct (IH (dict_set data (mda.str_Timestep N ts)
                      (aggregates_value aggregates)) Hnd)
        as [H|[ts' [k [H [Hts [Hk Hiso]]]]]]; [left; exact H|].
      right. exists ts', k. auto.
    + right. exists ts, k. auto.
Qed.

Lemma Forall2_combine_keys {A B} (P : A -> B -> Prop) (f : A -> string) l vs :
  Forall2 P l vs -> map fst (combine (map f l) vs) = map f l.
Proof.
  induction 1; simpl; [reflexivity | now f_equal].
Qed.

Lemma Forall2_combine_In {A B} (P : A -> B -> Prop) (f : A -> string) l vs k v :
  Forall2 P l vs -> In (k, v) (combine (map f l) vs) ->
  exists a, In a l /\ k = f a /\ P a v.
Proof.
  induction 1 as [|a b l vs Hab _ IH]; simpl; [tauto|].
  intros [[= <- <-]|H]; [exists a; auto|].
  destruct (IH H) as [a' [Ha' H']]. exists a'. auto.
Qed.

(** The outcomes of determine_aggregates. *)
Lemma determine_aggregates_cases (u : mda.Universe N) r selection :
  (exists indices values,
      selected_atoms N u selection = Returns indices
      /\ Forall2 (frame_value N indices r) (mda.trajectory u) values
      /\ determine_aggregates N u r selection =
         Returns (PyDict
           [("description"%string, PyStr (describe N r selection));
            ("data"%string,
             PyDict (set_all
                       (combine (map (mda.str_Timestep N) (mda.trajectory u))
                                values) []))]))
  \/ (exists indices ts k,
         selected_atoms N u selection = Returns indices
         /\ In ts (mda.trajectory u) /\ In k indices
         /\ isolated N ts r indices k
         /\ determine_aggregates N u r selection = Raises (KeyError k))
  \/ (selected_atoms N u selection = Raises SelectionError
      /\ determine_aggregates N u r selection = Raises SelectionError).
Proof.
  unfold determine_aggregates.
  destruct (selected_atoms N u selection) as [indices|e|] eqn:Hsel.
  - pose proof (selected_atoms_NoDup u selection indices Hsel) as Hnd.
    destruct (trajectory_loop_cases indices r (mda.trajectory u) [] Hnd)
      as [[data' Hr]|[ts [k [Hr [Hts [Hk Hiso]]]]]]; rewrite Hr.
    + left. destruct (trajectory_loop_returns _ _ _ _ _ Hr) as [values [Hall ->]].
      exists indices, values. auto.
    + right. left. exists indices, ts, k. auto.
  - right. right. unfold selected_atoms, mda.select_atoms in Hsel.
    destruct selection as [sel|]; [|discriminate].
    destruct (mda.select u sel); [discriminate|]. injection Hsel as <-. auto.
  - unfold selected_atoms, mda.select_atoms in Hsel.
    destruct selection as [sel|]; [|discriminate].
    destruct (mda.select u sel); discriminate.
Qed.

End Document.

End document_facts.
(** ** The command line of the detector: how argparse reads its words *)

Module cli_facts.
Import aggregation cli_notions.

(** *** Words *)

Lemma get_action_keys s a :
  get_action s _option_string_actions = Some a ->
  s = "-h"%string \/ s = "--help"%string \/ s = "--r_neigh"%string
  \/ s = "--selection"%string.
Proof.
  unfold _option_string_actions. cbn [get_action].
  destruct (String.eqb_spec "-h" s) as [<-|_]; [now left|].
  destruct (String.eqb_spec "--help" s) as [<-|_]; [now right; left|].
  destruct (String.eqb_spec "--r_neigh" s) as [<-|_]; [now right; right; left|].
  destruct (String.eqb_spec "--selection" s) as [<-|_]; [now right; right; right|].
  discriminate.
Qed.

Lemma get_action_second s a :
  get_action s _option_string_actions = Some a ->
  second_char s = "h"%char \/ second_char s = "-"%char.
Proof.
  intros H. apply get_action_keys in H.
  destruct H as [ -> | [ -> | [ -> | -> ]]]; cbn; auto.
Qed.

Lemma get_action_other c1 rest :
  c1 <> "-"%char -> c1 <> "h"%char ->
  get_action (String "-" (String c1 rest)) _option_string_actions = None.
Proof.
  intros H1 H2.
  destruct (get_action (String "-" (String c1 rest)) _option_string_actions)
    as [a|] eqn:Ha; [|reflexivity].
  apply get_action_second in Ha. cbn in Ha. destruct Ha; congruence.
Qed.

Lemma get_action_dash : get_action "-" _option_string_actions = None.
Proof. reflexivity. Qed.

(** A word that begins with "-" and goes on with a character other than
    "-" and "h" is no option of the parser, nor an abbreviation of one. *)
Lemma parse_optional_other c1 rest :
  c1 <> "-"%char -> c1 <> "h"%char ->
  let word := String "-" (String c1 rest) in
  _parse_optional word
  = if _negative_number_matcher word then meant_positional
    else if contains " " word then meant_positional
    else meant_optional (None, word, None).
Proof.
  intros H1 H2 word. unfold _parse_optional. subst word. cbv beta iota.
  change (in_prefix_chars "-") with true. cbn [negb].
  rewrite (get_action_other c1 rest H1 H2).
  set (word := String "-" (String c1 rest)).
  change (String.length word =? 1)%nat with false. cbv iota.
  assert (Hbefore :
    (if contains "=" word
     then let '(option_string, explicit_arg) := split_once "=" word in
          match get_action option_string _option_string_actions with
          | Some a => Some (Some a, option_string, Some explicit_arg)
          | None => None
          end
     else None) = None).
  { destruct (contains "=" word); [|reflexivity].
    unfold word. cbn [split_once]. change (Ascii.eqb "-" "=") with false.
    cbv iota. destruct (Ascii.eqb c1 "=").
    - cbn. reflexivity.
    - destruct (split_once "=" rest) as [before after]. cbv iota beta.
      now rewrite (get_action_other c1 before H1 H2). }
  rewrite Hbefore.
  assert (Htuples : _get_option_tuples word = Some []).
  { unfold word, _get_option_tuples.
    change (in_prefix_chars "-") with true.
    assert (Hc : in_prefix_chars c1 = false)
      by (unfold in_prefix_chars; now apply Ascii.eqb_neq).
    rewrite Hc. cbn [andb negb]. f_equal.
    unfold _option_string_actions. cbn [flat_map app substring].
    assert (Hh : Ascii.eqb "h" c1 = false)
      by (apply Ascii.eqb_neq; congruence).
    assert (Hd : Ascii.eqb "-" c1 = false)
      by (apply Ascii.eqb_neq; congruence).
    cbn [String.eqb]. change (Ascii.eqb "-" "-") with true.
    rewrite Hh, Hd. cbn [andb].
    cbn [String.prefix].
    destruct (ascii_dec "-" "-") as [_|Hn]; [|congruence].
    destruct (ascii_dec c1 "h") as [->|_]; [congruence|].
    destruct (ascii_dec c1 "-") as [->|_]; [congruence|].
    reflexivity. }
  rewrite Htuples. reflexivity.
Qed.

Lemma parse_optional_no_dash word :
  starts_with_dash word = false -> _parse_optional word = meant_positional.
Proof.
  destruct word as [|c0 rest]; [reflexivity|]. cbn [starts_with_dash].
  intros H. unfold _parse_optional, in_prefix_chars. now rewrite H.
Qed.

Lemma no_dash_not_dashes word :
  starts_with_dash word = false -> String.eqb word "--" = false.
Proof.
  destruct word as [|c0 rest]; [reflexivity|]. cbn [starts_with_dash String.eqb].
  now intros ->.
Qed.

(** A word that the negative-number matcher accepts goes on, after its
    "-", with a digit or a point. *)
Lemma negative_number_second word :
  _negative_number_matcher word = true ->
  exists c1 rest,
    word = String "-" (String c1 rest) /\ (is_digit c1 = true \/ c1 = "."%char).
Proof.
  destruct word as [|c0 s1]; [discriminate|]. unfold _negative_number_matcher.
  destruct (Ascii.eqb_spec c0 "-") as [->|Hc0].
  - destruct s1 as [|c1 rest].
    + cbn. discriminate.
    + intros H. exists c1, rest. split; [reflexivity|].
      destruct (is_digit c1) eqn:Hd; [now left|right].
      cbn [skip_digits] in H. rewrite Hd in H.
      rewrite Nat.eqb_refl in H. cbn [negb andb orb] in H.
      destruct (Ascii.eqb_spec c1 ".") as [->|Hc1]; [reflexivity|].
      destruct c1 as [[] [] [] [] [] [] [] []]; try discriminate H;
        exfalso; apply Hc1; reflexivity.
  - intros H. exfalso.
    destruct c0 as [[] [] [] [] [] [] [] []]; try discriminate H.
    apply Hc0. reflexivity.
Qed.

Lemma digit_or_point c1 :
  is_digit c1 = true \/ c1 = "."%char -> c1 <> "-"%char /\ c1 <> "h"%char.
Proof.
  intros [H| ->]; split; intros Heq; try subst c1; discriminate.
Qed.

Lemma parse_optional_negative word :
  _negative_number_matcher word = true -> _parse_optional word = meant_positional.
Proof.
  intros H. destruct (negative_number_second word H) as [c1 [rest [-> Hc1]]].
  destruct (digit_or_point c1 Hc1) as [H1 H2].
  rewrite (parse_optional_other c1 rest H1 H2). now rewrite H.
Qed.

Lemma negative_not_dashes word :
  _negative_number_matcher word = true -> String.eqb word "--" = false.
Proof.
  intros H. destruct (negative_number_second word H) as [c1 [rest [-> Hc1]]].
  destruct (digit_or_point c1 Hc1) as [H1 _].
  cbn [String.eqb]. apply Ascii.eqb_neq in H1. now rewrite H1.
Qed.

Lemma parse_optional_option_like word :
  option_like word = true ->
  _parse_optional word = meant_optional (None, word, None)
  /\ String.eqb word "--" = false.
Proof.
  destruct word as [|c0 [|c1 rest]]; try discriminate. unfold option_like.
  intros H. repeat (apply andb_prop in H; destruct H as [H ?]).
  apply Ascii.eqb_eq in H. subst c0.
  repeat match goal with
         | Hn : negb _ = true |- _ => apply negb_true_iff in Hn
         end.
  match goal with Hd : Ascii.eqb c1 "-" = false |- _ =>
    pose proof Hd as Hd'; apply Ascii.eqb_neq in Hd end.
  match goal with Hh : Ascii.eqb c1 "h" = false |- _ =>
    apply Ascii.eqb_neq in Hh end.
  split.
  - rewrite parse_optional_other by assumption.
    match goal with Hm : _negative_number_matcher _ = false |- _ => rewrite Hm end.
    match goal with Hs : contains _ _ = false |- _ => now rewrite Hs end.
  - cbn [String.eqb]. rewrite Hd'. reflexivity.
Qed.

(** The word is taken as an argument: it does not begin with "-", or it
    looks like a negative number. *)
Lemma argument_word word :
  starts_with_dash word = false \/ _negative_number_matcher word = true ->
  _parse_optional word = meant_positional /\ String.eqb word "--" = false.
Proof.
  intros [H|H].
  - split; [now apply parse_optional_no_dash | now apply no_dash_not_dashes].
  - split; [now apply parse_optional_negative | now apply negative_not_dashes].
Qed.

(** *** The first loop *)

Lemma classify_arguments files : forall i rest,
  Forall (fun f => starts_with_dash f = false) files ->
  classify i (files ++ rest)
  = match classify (i + List.length files) rest with
    | Some (indices, pattern) =>
        Some (indices, map (fun _ => pattern_A) files ++ pattern)
    | None => None
    end.
Proof.
  induction files as [|f files IH]; intros i rest Hall.
  - cbn [app List.length map]. rewrite Nat.add_0_r.
    now destruct (classify i rest) as [[? ?]|].
  - inversion Hall as [|? ? Hf Hfiles]; subst.
    cbn [app classify]. rewrite (no_dash_not_dashes f Hf).
    rewrite (parse_optional_no_dash f Hf), (IH (S i) rest Hfiles).
    cbn [List.length]. rewrite Nat.add_succ_r. cbn [Nat.add].
    now destruct (classify (S (i + List.length files)) rest) as [[? ?]|].
Qed.

Lemma remove_dashes_arguments files :
  Forall (fun f => starts_with_dash f = false) files ->
  remove_dashes files = files.
Proof.
  induction 1 as [|f files Hf _ IH]; [reflexivity|].
  cbn [remove_dashes]. now rewrite (no_dash_not_dashes f Hf), IH.
Qed.

Lemma classify_r_neigh_argument i word :
  starts_with_dash word = false \/ _negative_number_matcher word = true ->
  classify i ["--r_neigh"%string; word]
  = Some ([(i, (Some r_neigh_action, "--r_neigh"%string, None))],
          [pattern_O; pattern_A]).
Proof.
  intros Hword. destruct (argument_word word Hword) as [Hp Hd].
  cbn [classify]. rewrite Hd, Hp.
  change (String.eqb "--r_neigh" "--") with false. cbv iota.
  change (_parse_optional "--r_neigh")
    with (meant_optional (Some r_neigh_action, "--r_neigh"%string, None)).
  reflexivity.
Qed.

Lemma classify_r_neigh_option_like i word :
  option_like word = true ->
  classify i ["--r_neigh"%string; word]
  = Some ([(i, (Some r_neigh_action, "--r_neigh"%string, None));
           (S i, (None, word, None))],
          [pattern_O; pattern_O]).
Proof.
  intros Hword. destruct (parse_optional_option_like word Hword) as [Hp Hd].
  cbn [classify]. rewrite Hd, Hp.
  change (String.eqb "--r_neigh" "--") with false. cbv iota.
  change (_parse_optional "--r_neigh")
    with (meant_optional (Some r_neigh_action, "--r_neigh"%string, None)).
  reflexivity.
Qed.

(** *** Lists *)

Lemma firstn_length_app {A} (l r : list A) :
  firstn (List.length l) (l ++ r) = l.
Proof. induction l; cbn; [now destruct r | now f_equal]. Qed.

Lemma skipn_length_app {A} (l r : list A) :
  skipn (List.length l) (l ++ r) = r.
Proof. induction l; cbn; [reflexivity | assumption]. Qed.

Lemma skipn_length_map_app {A B} (f : A -> B) (l : list A) (r : list B) :
  skipn (List.length l) (map f l ++ r) = r.
Proof. induction l; cbn; [reflexivity | assumption]. Qed.

Lemma leading_arguments_map {A} (l : list A) p :
  leading_arguments_or_dashes (map (fun _ => pattern_A) l ++ pattern_O :: p)
  = List.length l.
Proof. induction l; cbn; [reflexivity | now f_equal]. Qed.

Lemma leading_arguments_all {A} (l : list A) :
  leading_arguments_or_dashes (map (fun _ => pattern_A) l) = List.length l.
Proof. induction l; cbn; [reflexivity | now f_equal]. Qed.

(** Comparisons of indices that linear arithmetic decides. *)
Ltac decide_indices :=
  repeat match goal with
         | |- context [(?a =? ?b)%nat] =>
             first [ replace (a =? b)%nat with true
                       by (symmetry; apply Nat.eqb_eq; lia)
                   | replace (a =? b)%nat with false
                       by (symmetry; apply Nat.eqb_neq; lia) ]
         | |- context [(?a <=? ?b)%nat] =>
             first [ replace (a <=? b)%nat with true
                       by (symmetry; apply Nat.leb_le; lia)
                   | replace (a <=? b)%nat with false
                       by (symmetry; apply Nat.leb_gt; lia) ]
         end.

Section Parse.

Variable N : mda.Numerics.

(** *** The turns of the loop *)

Section Loop.

Variable arg_strings : list string.
Variable indices : list (nat * option_tuple).
Variable pattern : list pattern_char.

Lemma consume_loop_done fuel st :
  (max_option_string_index indices < Z.of_nat (start_index N st))%Z ->
  consume_loop N arg_strings indices pattern fuel st = Goes_on st.
Proof.
  intros H. apply Z.leb_gt in H. destruct fuel; cbn [consume_loop]; now rewrite H.
Qed.

(** A turn at the index of an option. *)
Lemma consume_loop_optional fuel st t :
  get_tuple (start_index N st) indices = Some t ->
  next_option_string_index indices (start_index N st) = start_index N st ->
  (Z.of_nat (start_index N st) <= max_option_string_index indices)%Z ->
  consume_loop N arg_strings indices pattern (S fuel) st
  = match consume_optional N arg_strings indices pattern st with
    | Goes_on st' => consume_loop N arg_strings indices pattern fuel st'
    | SystemExit status => SystemExit status
    | Fuel_out => Fuel_out
    end.
Proof.
  intros Ht Hnext Hmax. apply Z.leb_le in Hmax. cbn [consume_loop].
  rewrite Hmax, Hnext, Nat.eqb_refl. cbn [negb]. now rewrite Ht.
Qed.

(** A turn that consumes positionals. *)
Lemma consume_loop_positionals fuel st st' :
  next_option_string_index indices (start_index N st) <> start_index N st ->
  (Z.of_nat (start_index N st) <= max_option_string_index indices)%Z ->
  consume_positionals N arg_strings pattern st = Goes_on st' ->
  (start_index N st < start_index N st')%nat ->
  consume_loop N arg_strings indices pattern (S fuel) st
  = consume_loop N arg_strings indices pattern fuel st'.
Proof.
  intros Hnext Hmax Hpos Hlt. apply Z.leb_le in Hmax. cbn [consume_loop].
  rewrite Hmax. apply not_eq_sym in Hnext. apply Nat.eqb_neq in Hnext.
  rewrite Hnext. cbn [negb]. rewrite Hpos. apply Nat.ltb_lt in Hlt.
  now rewrite Hlt.
Qed.

(** With no positional left, [consume_positionals] consumes nothing. *)
Lemma consume_positionals_none st :
  positionals N st = [] ->
  consume_positionals N arg_strings pattern st = Goes_on st.
Proof.
  intros H. unfold consume_positionals. rewrite H. cbn.
  destruct st; cbn in *. now subst.
Qed.

End Loop.

(** INPUT takes the words [files] found at [start]. *)
Lemma consume_positionals_files before files after st p :
  files <> [] ->
  Forall (fun f => starts_with_dash f = false) files ->
  positionals N st = [input_action] ->
  start_index N st = List.length before ->
  List.length p = List.length before ->
  forall pafter,
  (pafter = [] \/ exists rest, pafter = pattern_O :: rest) ->
  consume_positionals N (before ++ files ++ after)
    (p ++ map (fun _ => pattern_A) files ++ pafter) st
  = Goes_on {| start_index := (List.length before + List.length files)%nat;
               positionals := [];
               ns := {| ns_input := Some files;
                        ns_r_neigh := ns_r_neigh N (ns N st);
                        ns_selection := ns_selection N (ns N st) |};
               extras := extras N st |}.
Proof.
  intros Hne Hfiles Hpos Hstart Hp pafter Hpafter.
  unfold consume_positionals. rewrite Hpos, Hstart.
  assert (Hskip : forall rest,
             skipn (List.length before) (p ++ rest) = rest)
    by (intros rest; rewrite <- Hp; apply skipn_length_app).
  rewrite !Hskip.
  destruct files as [|f fs]; [congruence|].
  assert (Hcount : _match_argument input_action
                     (map (fun _ => pattern_A) (f :: fs) ++ pafter)
                   = Some (S (List.length fs))).
  { cbn [map app _match_argument leading_dashes skipn Nat.add]. f_equal. f_equal.
    destruct Hpafter as [->|[rest ->]].
    - rewrite app_nil_r. apply leading_arguments_all.
    - apply leading_arguments_map. }
  unfold _match_arguments_partial. rewrite Hcount.
  cbn [take_positionals]. rewrite skipn_length_app.
  change (S (List.length fs)) with (List.length (f :: fs)).
  rewrite firstn_length_app. cbn [take_action].
  rewrite (remove_dashes_arguments _ Hfiles). cbn [List.length skipn].
  reflexivity.
Qed.

Lemma parse_files_option files word :
  files <> [] ->
  Forall (fun f => starts_with_dash f = false) files ->
  starts_with_dash word = false \/ _negative_number_matcher word = true ->
  parse_args N (files ++ ["--r_neigh"%string; word])
  = match mda.float_of_string N word with
    | Some r => Goes_on (Build_Namespace N files (Some r) None)
    | None => SystemExit 2
    end.
Proof.
  intros Hne Hfiles Hword. unfold parse_args.
  rewrite (classify_arguments files 0 _ Hfiles).
  rewrite (classify_r_neigh_argument _ word Hword). cbn [Nat.add].
  destruct (argument_word word Hword) as [_ Hd].
  set (n := List.length files).
  set (argv := files ++ ["--r_neigh"%string; word]).
  set (indices := [(n, (Some r_neigh_action, "--r_neigh"%string, None))]).
  set (pattern := map (fun _ => pattern_A) files ++ [pattern_O; pattern_A]).
  assert (Hn : (0 < n)%nat).
  { subst n. destruct files; [congruence | cbn; lia]. }
  assert (Hmax : max_option_string_index indices = Z.of_nat n).
  { unfold max_option_string_index, indices. cbn [fold_right fst]. lia. }
  assert (Hlen : List.length argv = S (S n)).
  { unfold argv. rewrite length_app. cbn [List.length]. fold n. lia. }
  rewrite Hlen.
  (* the first turn: INPUT takes the files *)
  rewrite (consume_loop_positionals argv indices pattern (S n) _
             {| start_index := n; positionals := [];
                ns := {| ns_input := Some files;
                         ns_r_neigh := Some (mda.default_r_neigh N);
                         ns_selection := None |};
                extras := [] |}).
  2:{ cbn [start_index]. unfold next_option_string_index, indices.
      cbn [map fst filter Nat.leb fold_right]. lia. }
  2:{ cbn [start_index]. rewrite Hmax. lia. }
  2:{ exact (consume_positionals_files [] files ["--r_neigh"%string; word]
               {| start_index := 0; positionals := _get_positional_actions;
                  ns := defaults N; extras := [] |} []
               Hne Hfiles eq_refl eq_refl eq_refl [pattern_O; pattern_A]
               (or_intror (ex_intro _ [pattern_A] eq_refl))). }
  2:{ cbn [start_index]. exact Hn. }
  (* the second turn: --r_neigh takes the word *)
  rewrite (consume_loop_optional argv indices pattern n _
             (Some r_neigh_action, "--r_neigh"%string, None)).
  2:{ cbn [start_index]. unfold indices. cbn [get_tuple].
      now rewrite Nat.eqb_refl. }
  2:{ cbn [start_index]. unfold next_option_string_index, indices.
      cbn [map fst filter]. rewrite Nat.leb_refl. reflexivity. }
  2:{ cbn [start_index]. rewrite Hmax. lia. }
  unfold consume_optional. cbn [start_index]. unfold indices at 1.
  cbn [get_tuple]. rewrite Nat.eqb_refl.
  unfold following_arguments.
  replace (skipn (n + 1) pattern) with [pattern_A].
  2:{ unfold pattern. replace (n + 1)%nat with (1 + List.length files)%nat by (subst n; lia).
      rewrite <- (skipn_skipn 1 (List.length files)).
      now rewrite skipn_length_map_app. }
  cbn [_match_argument].
  replace (firstn 1 (skipn (n + 1) argv)) with [word].
  2:{ unfold argv. replace (n + 1)%nat with (1 + List.length files)%nat by (subst n; lia).
      rewrite <- (skipn_skipn 1 (List.length files)).
      now rewrite skipn_length_app. }
  cbn [take_actions take_action remove_dashes]. rewrite Hd.
  cbn [ns ns_input ns_r_neigh ns_selection].
  destruct (mda.float_of_string N word) as [r|]; [|reflexivity].
  rewrite consume_loop_done by (cbn [start_index]; rewrite Hmax; lia).
  rewrite consume_positionals_none by reflexivity.
  cbn [ns ns_input ns_r_neigh ns_selection extras start_index app].
  replace (skipn (n + 1 + 1) argv) with (@nil string).
  2:{ symmetry. apply skipn_all2. rewrite Hlen. lia. }
  reflexivity.
Qed.

Lemma parse_option_files files word :
  files <> [] ->
  Forall (fun f => starts_with_dash f = false) files ->
  starts_with_dash word = false \/ _negative_number_matcher word = true ->
  parse_args N ("--r_neigh"%string :: word :: files)
  = match mda.float_of_string N word with
    | Some r => Goes_on (Build_Namespace N files (Some r) None)
    | None => SystemExit 2
    end.
Proof.
  intros Hne Hfiles Hword. unfold parse_args.
  destruct (argument_word word Hword) as [Hp Hd].
  cbn [classify]. rewrite Hd, Hp.
  change (String.eqb "--r_neigh" "--") with false. cbv iota.
  change (_parse_optional "--r_neigh")
    with (meant_optional (Some r_neigh_action, "--r_neigh"%string, None)).
  cbv iota. rewrite <- (app_nil_r files) at 1.
  rewrite (classify_arguments files 2 [] Hfiles). cbn [classify].
  cbn [List.length].
  match goal with
  | |- context [consume_loop N ?a ?i ?p _ _] =>
      set (argv := a); set (indices := i); set (pattern := p)
  end.
  assert (Hmax : max_option_string_index indices = 0%Z) by reflexivity.
  rewrite (consume_loop_optional argv indices pattern _ _
             (Some r_neigh_action, "--r_neigh"%string, None));
    [|reflexivity|reflexivity|cbn [start_index]; rewrite Hmax; lia].
  unfold consume_optional. cbn [start_index]. unfold indices at 1.
  cbn [get_tuple Nat.eqb]. unfold following_arguments.
  cbn [Nat.add skipn pattern _match_argument firstn argv].
  cbn [take_actions take_action remove_dashes]. rewrite Hd.
  cbn [ns ns_input ns_r_neigh ns_selection defaults].
  destruct (mda.float_of_string N word) as [r|]; [|reflexivity].
  rewrite consume_loop_done by (cbn [start_index]; rewrite Hmax; lia).
  pose proof (consume_positionals_files ["--r_neigh"%string; word] files []
                {| start_index := 2; positionals := _get_positional_actions;
                   ns := {| ns_input := None; ns_r_neigh := Some r;
                            ns_selection := None |};
                   extras := [] |} [pattern_O; pattern_A]
                Hne Hfiles eq_refl eq_refl eq_refl [] (or_introl eq_refl))
    as Hpos.
  rewrite app_nil_r in Hpos. cbn [app List.length] in Hpos.
  fold argv in Hpos. fold pattern in Hpos.
  cbn [positionals ns extras start_index ns_input ns_r_neigh ns_selection
       defaults] in Hpos |- *.
  rewrite Hpos.
  cbn [ns ns_input ns_r_neigh ns_selection extras start_index app].
  replace (skipn (2 + List.length files) argv) with (@nil string).
  2:{ symmetry. apply skipn_all2. unfold argv. cbn [List.length]. lia. }
  reflexivity.
Qed.

Lemma parse_files_option_like files word :
  files <> [] ->
  Forall (fun f => starts_with_dash f = false) files ->
  option_like word = true ->
  parse_args N (files ++ ["--r_neigh"%string; word]) = SystemExit 2.
Proof.
  intros Hne Hfiles Hword. unfold parse_args.
  rewrite (classify_arguments files 0 _ Hfiles).
  rewrite (classify_r_neigh_option_like _ word Hword). cbn [Nat.add].
  set (n := List.length files).
  set (argv := files ++ ["--r_neigh"%string; word]).
  set (indices := [(n, (Some r_neigh_action, "--r_neigh"%string, None));
                   (S n, (None, word, None))]).
  set (pattern := map (fun _ => pattern_A) files ++ [pattern_O; pattern_O]).
  assert (Hn : (0 < n)%nat).
  { subst n. destruct files; [congruence | cbn; lia]. }
  assert (Hmax : max_option_string_index indices = Z.of_nat (S n)).
  { unfold max_option_string_index, indices. cbn [fold_right fst]. lia. }
  assert (Hlen : List.length argv = S (S n)).
  { unfold argv. rewrite length_app. cbn [List.length]. fold n. lia. }
  assert (Hskip : skipn (S n) pattern = [pattern_O]).
  { unfold pattern. change (S n) with (1 + List.length files)%nat.
    rewrite <- (skipn_skipn 1 (List.length files)).
    now rewrite skipn_length_map_app. }
  assert (Hword' : skipn (S n) argv = [word]).
  { unfold argv. change (S n) with (1 + List.length files)%nat.
    rewrite <- (skipn_skipn 1 (List.length files)).
    now rewrite skipn_length_app. }
  set (ns1 := {| ns_input := Some files;
                 ns_r_neigh := Some (mda.default_r_neigh N);
                 ns_selection := None |}).
  set (ns2 := {| ns_input := Some files;
                 ns_r_neigh := @None (mda.float N);
                 ns_selection := None |}).
  set (st1 := {| start_index := n; positionals := []; ns := ns1;
                 extras := [] |}).
  set (st2 := {| start_index := S n; positionals := []; ns := ns2;
                 extras := [] |}).
  set (st3 := {| start_index := S (S n); positionals := []; ns := ns2;
                 extras := [word] |}).
  (* INPUT takes the files *)
  assert (H1 : consume_positionals N argv pattern
                 {| start_index := 0; positionals := _get_positional_actions;
                    ns := defaults N; extras := [] |} = Goes_on st1).
  { exact (consume_positionals_files [] files ["--r_neigh"%string; word]
             {| start_index := 0; positionals := _get_positional_actions;
                ns := defaults N; extras := [] |} []
             Hne Hfiles eq_refl eq_refl eq_refl [pattern_O; pattern_O]
             (or_intror (ex_intro _ [pattern_O] eq_refl))). }
  (* --r_neigh gets no word: the next one is an option *)
  assert (H2 : consume_optional N argv indices pattern st1 = Goes_on st2).
  { unfold consume_optional, st1. cbn [start_index]. unfold indices at 1.
    cbn [get_tuple]. rewrite Nat.eqb_refl. unfold following_arguments.
    replace (n + 1)%nat with (S n) by lia. rewrite Hskip.
    cbn [_match_argument firstn take_actions take_action remove_dashes].
    cbn [ns ns_input ns_r_neigh ns_selection extras positionals ns1].
    unfold st2, ns2. do 2 f_equal. lia. }
  (* the word is an option that the parser does not have *)
  assert (H3 : consume_optional N argv indices pattern st2 = Goes_on st3).
  { unfold consume_optional, st2. cbn [start_index]. unfold indices at 1.
    cbn [get_tuple]. decide_indices. rewrite Hword'.
    cbn [firstn extras ns positionals app].
    unfold st3. do 2 f_equal. lia. }
  rewrite Hlen.
  rewrite (consume_loop_positionals argv indices pattern _ _ st1);
    [| | |exact H1|exact Hn].
  2:{ cbn [start_index]. unfold next_option_string_index, indices.
      cbn [map fst filter Nat.leb fold_right]. lia. }
  2:{ cbn [start_index]. rewrite Hmax. lia. }
  destruct n as [|n'] eqn:Hn'; [lia|].
  rewrite (consume_loop_optional argv indices pattern _ _
             (Some r_neigh_action, "--r_neigh"%string, None)).
  2:{ unfold st1, indices. cbn [start_index get_tuple].
      now rewrite Nat.eqb_refl. }
  2:{ unfold st1. cbn [start_index].
      unfold next_option_string_index, indices.
      cbn [map fst filter]. decide_indices. cbn [fold_right]. lia. }
  2:{ unfold st1. cbn [start_index]. rewrite Hmax. lia. }
  rewrite H2.
  rewrite (consume_loop_optional argv indices pattern _ _ (None, word, None)).
  2:{ unfold st2, indices. cbn [start_index get_tuple].
      decide_indices. reflexivity. }
  2:{ unfold st2. cbn [start_index].
      unfold next_option_string_index, indices.
      cbn [map fst filter]. decide_indices. reflexivity. }
  2:{ unfold st2. cbn [start_index]. rewrite Hmax. lia. }
  rewrite H3.
  rewrite consume_loop_done
    by (unfold st3; cbn [start_index]; rewrite Hmax; lia).
  rewrite consume_positionals_none by reflexivity.
  reflexivity.
Qed.

Lemma parse_option_like_files files word :
  files <> [] ->
  Forall (fun f => starts_with_dash f = false) files ->
  option_like word = true ->
  parse_args N ("--r_neigh"%string :: word :: files) = SystemExit 2.
Proof.
  intros Hne Hfiles Hword. unfold parse_args.
  destruct (parse_optional_option_like word Hword) as [Hp Hd].
  cbn [classify]. rewrite Hd, Hp.
  change (String.eqb "--r_neigh" "--") with false. cbv iota.
  change (_parse_optional "--r_neigh")
    with (meant_optional (Some r_neigh_action, "--r_neigh"%string, None)).
  cbv iota. rewrite <- (app_nil_r files) at 1.
  rewrite (classify_arguments files 2 [] Hfiles). cbn [classify].
  cbn [List.length].
  match goal with
  | |- context [consume_loop N ?a ?i ?p _ _] =>
      set (argv := a); set (indices := i); set (pattern := p)
  end.
  assert (Hmax : max_option_string_index indices = 1%Z) by reflexivity.
  rewrite (consume_loop_optional argv indices pattern _ _
             (Some r_neigh_action, "--r_neigh"%string, None));
    [|reflexivity|reflexivity|cbn [start_index]; rewrite Hmax; lia].
  unfold consume_optional at 1. cbn [start_index]. unfold indices at 1.
  cbn [get_tuple Nat.eqb]. unfold following_arguments.
  cbn [Nat.add skipn pattern _match_argument firstn argv].
  cbn [take_actions take_action remove_dashes].
  cbn [ns ns_input ns_r_neigh ns_selection defaults].
  destruct files as [|f fs]; [congruence|]. cbn [List.length].
  rewrite (consume_loop_optional argv indices pattern _ _ (None, word, None));
    [|reflexivity|reflexivity|cbn [start_index]; rewrite Hmax; lia].
  unfold consume_optional. cbn [start_index]. unfold indices at 1.
  cbn [get_tuple Nat.eqb extras ns positionals app skipn firstn argv Nat.add].
  rewrite consume_loop_done by (cbn [start_index]; rewrite Hmax; lia).
  pose proof (consume_positionals_files ["--r_neigh"%string; word] (f :: fs) []
                {| start_index := 2; positionals := _get_positional_actions;
                   ns := {| ns_input := None; ns_r_neigh := None;
                            ns_selection := None |};
                   extras := [word] |} [pattern_O; pattern_O]
                Hne Hfiles eq_refl eq_refl eq_refl [] (or_introl eq_refl))
    as Hpos.
  rewrite app_nil_r in Hpos. cbn [app List.length] in Hpos.
  fold argv in Hpos. fold pattern in Hpos.
  cbn [positionals ns extras start_index ns_input ns_r_neigh ns_selection
       defaults] in Hpos |- *.
  rewrite Hpos.
  cbn [ns ns_input ns_r_neigh ns_selection extras start_index app].
  reflexivity.
Qed.





(** *** Parsing ends *)

Lemma take_action_ends a args ns0 : take_action N a args ns0 <> Fuel_out.
Proof.
  destruct a; cbn [take_action]; try discriminate.
  - destruct (remove_dashes args) as [|w [|? ?]]; try discriminate.
    destruct (mda.float_of_string N w); discriminate.
  - destruct (remove_dashes args) as [|w [|? ?]]; discriminate.
Qed.

Lemma take_actions_ends action_tuples : forall ns0,
  take_actions N action_tuples ns0 <> Fuel_out.
Proof.
  induction action_tuples as [|[[a args] os] rest IH]; intros ns0;
    cbn [take_actions]; [discriminate|].
  pose proof (take_action_ends a args ns0) as Ha.
  destruct (take_action N a args ns0); [apply IH|discriminate|congruence].
Qed.

Section Ends.

Variable arg_strings : list string.
Variable indices : list (nat * option_tuple).
Variable pattern : list pattern_char.

Lemma take_positionals_ends actions : forall arg_counts start ns0,
  take_positionals N arg_strings actions arg_counts start ns0 <> Fuel_out
  /\ forall stop ns', take_positionals N arg_strings actions arg_counts start ns0
                      = Goes_on (stop, ns') -> (start <= stop)%nat.
Proof.
  induction actions as [|a actions IH]; intros arg_counts start ns0.
  - cbn [take_positionals]. split; [discriminate|]. intros ? ? [= <- <-]. lia.
  - destruct arg_counts as [|arg_count arg_counts]; cbn [take_positionals].
    + split; [discriminate|]. intros ? ? [= <- <-]. lia.
    + pose proof (take_action_ends a
                    (firstn arg_count (skipn start arg_strings)) ns0) as Ha.
      destruct (take_action N a (firstn arg_count (skipn start arg_strings)) ns0)
        as [ns1| |]; [|split; discriminate|congruence].
      destruct (IH arg_counts (start + arg_count)%nat ns1) as [H1 H2].
      split; [exact H1|]. intros stop ns' H. apply H2 in H. lia.
Qed.

Lemma consume_positionals_ends st :
  consume_positionals N arg_strings pattern st <> Fuel_out
  /\ forall st', consume_positionals N arg_strings pattern st = Goes_on st' ->
                 (start_index N st <= start_index N st')%nat.
Proof.
  unfold consume_positionals.
  destruct (take_positionals_ends (positionals N st)
              (_match_arguments_partial (positionals N st)
                 (skipn (start_index N st) pattern))
              (start_index N st) (ns N st)) as [H1 H2].
  destruct (take_positionals N arg_strings (positionals N st) _ _ _)
    as [[stop ns']| |]; [|split; discriminate|congruence].
  split; [discriminate|]. intros st' [= <-]. cbn [start_index].
  now apply (H2 stop ns').
Qed.

Lemma following_arguments_stop start a option_string action_tuples stop :
  following_arguments arg_strings pattern start a option_string
  = Some (action_tuples, stop) -> (start < stop)%nat.
Proof.
  unfold following_arguments.
  destruct (_match_argument a (skipn (start + 1) pattern)); [|discriminate].
  intros [= _ <-]. lia.
Qed.

Lemma explicit_arguments_stop start explicit_arg :
  forall a option_string action_tuples stop,
  explicit_arguments arg_strings pattern start a option_string explicit_arg
  = Some (action_tuples, stop) -> (start < stop)%nat.
Proof.
  induction explicit_arg as [|c tail IH]; intros a option_string tuples stop;
    cbn [explicit_arguments];
    destruct (_match_argument a [pattern_A]) as [arg_count|]; try discriminate.
  - destruct (arg_count =? 1)%nat; [|discriminate]. intros [= _ <-]. lia.
  - destruct ((arg_count =? 0)%nat
              && negb (in_prefix_chars (second_char option_string))).
    + destruct (get_action (String "-" (String c "")) _option_string_actions)
        as [a'|]; [|discriminate].
      destruct tail as [|c' tail'].
      * destruct (following_arguments arg_strings pattern start a' _)
          as [[tuples' stop']|] eqn:Hf; [|discriminate].
        intros [= _ <-]. now apply following_arguments_stop in Hf.
      * destruct (explicit_arguments arg_strings pattern start a' _ _)
          as [[tuples' stop']|] eqn:He; [|discriminate].
        intros [= _ <-]. now apply IH in He.
    + destruct (arg_count =? 1)%nat; [|discriminate]. intros [= _ <-]. lia.
Qed.

Lemma consume_optional_ends st :
  consume_optional N arg_strings indices pattern st <> Fuel_out
  /\ forall st', consume_optional N arg_strings indices pattern st = Goes_on st' ->
                 (start_index N st < start_index N st')%nat.
Proof.
  unfold consume_optional.
  destruct (get_tuple (start_index N st) indices) as [[[[a|] os] e]|];
    [| |split; discriminate].
  - set (tuples := match e with
                   | Some e0 => explicit_arguments arg_strings pattern
                                  (start_index N st) a os e0
                   | None => following_arguments arg_strings pattern
                               (start_index N st) a os
                   end).
    assert (Hstop : forall action_tuples stop,
               tuples = Some (action_tuples, stop) ->
               (start_index N st < stop)%nat).
    { intros action_tuples stop. unfold tuples. destruct e as [e0|].
      - apply explicit_arguments_stop.
      - apply following_arguments_stop. }
    destruct tuples as [[action_tuples stop]|]; [|split; discriminate].
    pose proof (take_actions_ends action_tuples (ns N st)) as Ha.
    destruct (take_actions N action_tuples (ns N st));
      [|split; discriminate|congruence].
    split; [discriminate|]. intros st' [= <-]. cbn [start_index].
    now apply (Hstop action_tuples stop).
  - split; [discriminate|]. intros st' [= <-]. cbn [start_index]. lia.
Qed.

Lemma fold_min_bound start i rest :
  (start <= i)%nat -> Forall (fun k => (start <= k)%nat) rest ->
  (start <= fold_right Nat.min i rest)%nat.
Proof.
  intros Hi. induction 1 as [|k rest Hk _ IH]; cbn [fold_right]; lia.
Qed.

Lemma next_option_string_index_bound start :
  (start <= next_option_string_index indices start)%nat.
Proof.
  unfold next_option_string_index.
  assert (Hall : Forall (fun k => (start <= k)%nat)
                   (filter (fun i => (start <=? i)%nat) (map fst indices))).
  { apply Forall_forall. intros k Hk. apply filter_In in Hk.
    now apply Nat.leb_le. }
  destruct (filter (fun i => (start <=? i)%nat) (map fst indices))
    as [|i rest]; [lia|].
  inversion Hall; subst. now apply fold_min_bound.
Qed.

(** The loop ends within the fuel of one turn for each index up to the
    last option. *)
Lemma consume_loop_ends fuel : forall st,
  (max_option_string_index indices + 1 - Z.of_nat (start_index N st)
   <= Z.of_nat fuel)%Z ->
  consume_loop N arg_strings indices pattern fuel st <> Fuel_out.
Proof.
  induction fuel as [|fuel IH]; intros st Hfuel.
  - cbn [consume_loop].
    destruct (Z.leb_spec (Z.of_nat (start_index N st))
                (max_option_string_index indices)); [lia|discriminate].
  - cbn [consume_loop].
    destruct (Z.leb_spec (Z.of_nat (start_index N st))
                (max_option_string_index indices)) as [Hle|_]; [|discriminate].
    set (next := next_option_string_index indices (start_index N st)).
    pose proof (next_option_string_index_bound (start_index N st)) as Hnext.
    fold next in Hnext.
    destruct (consume_positionals_ends st) as [Hp1 Hp2].
    assert (Hopt : forall st'',
               (start_index N st <= start_index N st'')%nat ->
               match consume_optional N arg_strings indices pattern st'' with
               | Goes_on st3 =>
                   consume_loop N arg_strings indices pattern fuel st3
               | SystemExit status => SystemExit status
               | Fuel_out => Fuel_out
               end <> Fuel_out).
    { intros st'' Hge. destruct (consume_optional_ends st'') as [Ho1 Ho2].
      destruct (consume_optional N arg_strings indices pattern st'')
        as [st3| |]; [|discriminate|congruence].
      apply IH. specialize (Ho2 st3 eq_refl). lia. }
    assert (Hrest : forall st',
               (start_index N st <= start_index N st')%nat ->
               next = next_option_string_index indices (start_index N st) ->
               match
                 consume_optional N arg_strings indices pattern
                   match get_tuple (start_index N st') indices with
                   | Some _ => st'
                   | None =>
                       {| start_index := next;
                          positionals := positionals N st';
                          ns := ns N st';
                          extras := extras N st'
                                    ++ firstn (next - start_index N st')
                                         (skipn (start_index N st') arg_strings) |}
                   end
               with
               | Goes_on st3 =>
                   consume_loop N arg_strings indices pattern fuel st3
               | SystemExit status => SystemExit status
               | Fuel_out => Fuel_out
               end <> Fuel_out).
    { intros st' Hge _. apply Hopt.
      destruct (get_tuple (start_index N st') indices); [exact Hge|].
      cbn [start_index]. exact Hnext. }
    destruct (negb (start_index N st =? next)%nat).
    + destruct (consume_positionals N arg_strings pattern st) as [st'| |];
        [|discriminate|congruence].
      specialize (Hp2 st' eq_refl).
      destruct (Nat.ltb_spec (start_index N st) (start_index N st')).
      * apply IH. lia.
      * now apply Hrest.
    + apply Hrest; [lia|reflexivity].
Qed.

End Ends.

Lemma classify_indices arg_strings : forall i indices pattern,
  classify i arg_strings = Some (indices, pattern) ->
  Forall (fun it => (fst it < i + List.length arg_strings)%nat) indices.
Proof.
  induction arg_strings as [|w rest IH]; intros i indices pattern;
    cbn [classify].
  - intros [= <- _]. constructor.
  - destruct (String.eqb w "--"); [intros [= <- _]; constructor|].
    destruct (_parse_optional w) as [|t|]; [| |discriminate];
      destruct (classify (S i) rest) as [[indices' pattern']|] eqn:Hrest;
      try discriminate; intros [= <- _]; specialize (IH _ _ _ Hrest);
      cbn [List.length].
    + eapply Forall_impl; [|exact IH]. cbn. intros; lia.
    + constructor; [cbn; lia|].
      eapply Forall_impl; [|exact IH]. cbn. intros; lia.
Qed.

Lemma max_option_string_index_bound indices n :
  Forall (fun it : nat * option_tuple => (fst it < n)%nat) indices ->
  (max_option_string_index indices < Z.of_nat n)%Z \/ indices = [].
Proof.
  unfold max_option_string_index.
  induction 1 as [|it indices Hit _ IH]; [now right|left].
  cbn [fold_right]. destruct IH as [IH| ->]; [lia|]. cbn [fold_right]. lia.
Qed.

(** [parse_args] never runs out of the fuel it gives to its loop. *)
Lemma parse_args_ends argv : parse_args N argv <> Fuel_out.
Proof.
  unfold parse_args.
  destruct (classify 0 argv) as [[indices pattern]|] eqn:Hc; [|discriminate].
  pose proof (classify_indices argv 0 indices pattern Hc) as Hall.
  cbn [Nat.add] in Hall.
  pose proof (consume_loop_ends argv indices pattern (List.length argv)
                {| start_index := 0; positionals := _get_positional_actions;
                   ns := defaults N; extras := [] |}) as Hloop.
  cbn [start_index] in Hloop.
  assert (Hfuel : (max_option_string_index indices + 1 - Z.of_nat 0
                   <= Z.of_nat (List.length argv))%Z).
  { destruct (max_option_string_index_bound indices _ Hall) as [H| ->];
      [lia|]. cbn. lia. }
  specialize (Hloop Hfuel).
  destruct (consume_loop N argv indices pattern (List.length argv) _)
    as [st1| |]; [|discriminate|congruence].
  destruct (consume_positionals_ends argv pattern st1) as [Hp _].
  destruct (consume_positionals N argv pattern st1) as [st2| |];
    [|discriminate|congruence].
  destruct (ns_input N (ns N st2)); [|discriminate].
  destruct (extras N st2 ++ skipn (start_index N st2) argv); discriminate.
Qed.

End Parse.

End cli_facts.

(** ** The claims about the aggregate detector *)

Module aggregation_claims.
Import nx graph aggregation aggregation_facts dict_facts document_facts.
Import cli_notions cli_facts.

Lemma count_occ_NoDup_In (l : list Z) i :
  NoDup l -> In i l -> count_occ Z.eq_dec l i = 1%nat.
Proof.
  intros Hnd Hin. apply (proj1 (NoDup_count_occ' Z.eq_dec l) Hnd i Hin).
Qed.

Lemma filter_mem_none (aggregates : list (list Z)) i :
  ~ In i (List.concat aggregates) -> filter (mem i) aggregates = [].
Proof.
  induction aggregates as [|a aggregates IH]; simpl; [reflexivity|].
  intros Hn. rewrite in_app_iff in Hn.
  destruct (mem i a) eqn:Hm; [apply mem_In in Hm; tauto|]. apply IH. tauto.
Qed.

Lemma NoDup_app_disjoint (a b : list Z) i :
  NoDup (a ++ b) -> In i a -> ~ In i b.
Proof.
  induction a as [|x a IH]; simpl; [tauto|].
  intros Hnd [->|Hi] Hb; inversion Hnd as [|? ? Hx Hnd']; subst.
  - apply Hx, in_app_iff. now right.
  - now apply (IH Hnd' Hi).
Qed.

(** In a partition every index is in one aggregate only. *)
Lemma partitions_exactly_once aggregates indices i :
  partitions aggregates indices -> In i indices -> exactly_once aggregates i.
Proof.
  intros [Hperm [Hnd _]] Hi.
  assert (Hin : In i (List.concat aggregates))
    by (eapply Permutation_in; [apply Permutation_sym, Hperm | exact Hi]).
  split; [|now apply count_occ_NoDup_In].
  clear Hperm Hi. induction aggregates as [|a aggregates IH]; simpl in *;
    [contradiction|].
  apply in_app_iff in Hin. destruct (mem i a) eqn:Hm.
  - apply mem_In in Hm. simpl. rewrite filter_mem_none; [reflexivity|].
    eapply NoDup_app_disjoint; eassumption.
  - apply mem_not_In in Hm. destruct Hin as [Hin|Hin]; [contradiction|].
    apply IH; [eapply NoDup_app_remove_l; eassumption | exact Hin].
Qed.

Section Claims.

Variable N : mda.Numerics.

(** C1.  Whenever determine_aggregates returns a document, the aggregates
    recorded for a frame are a partition of the selected index set: the
    concatenated aggregates are a rearrangement of the selected indices, no
    index occurs twice, no aggregate is empty, and every selected index is
    in exactly one aggregate.  This holds for the aggregates of every frame
    of the trajectory and for every entry of the returned data. *)
Theorem determine_aggregates_partition (u : mda.Universe N) r selection document :
  determine_aggregates N u r selection = Returns document ->
  exists indices data,
    selected_atoms N u selection = Returns indices
    /\ document = PyDict [("description"%string, PyStr (describe N r selection));
                          ("data"%string, PyDict data)]
    /\ (forall ts, In ts (mda.trajectory u) ->
        exists aggregates,
          frame_aggregates N indices ts r = Returns aggregates
          /\ partitions aggregates indices
          /\ forall i, In i indices -> exactly_once aggregates i)
    /\ (forall key value, In (key, value) data ->
        exists ts aggregates,
          In ts (mda.trajectory u)
          /\ key = mda.str_Timestep N ts
          /\ value = aggregates_value aggregates
          /\ frame_aggregates N indices ts r = Returns aggregates
          /\ partitions aggregates indices
          /\ forall i, In i indices -> exactly_once aggregates i).
Proof.
  intros Hret.
  destruct (determine_aggregates_cases N u r selection)
    as [[indices [values [Hsel [Hall Hdoc]]]]
       |[[indices [ts [k [_ [_ [_ [_ Hr]]]]]]]|[_ Hr]]]; try congruence.
  rewrite Hdoc in Hret. injection Hret as <-.
  pose proof (selected_atoms_NoDup N u selection indices Hsel) as Hnd.
  assert (Hpart : forall ts aggregates,
             frame_aggregates N indices ts r = Returns aggregates ->
             partitions aggregates indices
             /\ forall i, In i indices -> exactly_once aggregates i).
  { intros ts aggregates Hf.
    destruct (frame_aggregates_cases N ts r indices Hnd)
      as [[aggregates' [Hr [Hp _]]]|[k [Hr _]]]; [|congruence].
    rewrite Hf in Hr. injection Hr as <-.
    split; [exact Hp|]. intros i Hi. eapply partitions_exactly_once; eassumption. }
  exists indices. eexists. split; [exact Hsel|]. split; [reflexivity|]. split.
  - intros ts Hts. clear -Hall Hts Hpart.
    induction Hall as [|ts' v frames values [aggregates [Hf _]] _ IH];
      [destruct Hts|].
    destruct Hts as [<-|Hts]; [|auto].
    exists aggregates. split; [exact Hf | exact (Hpart _ _ Hf)].
  - intros key value Hin. apply In_set_all in Hin. destruct Hin as [[]|Hin].
    destruct (Forall2_combine_In _ _ _ _ _ _ Hall Hin)
      as [ts [Hts [-> [aggregates [Hf ->]]]]].
    exists ts, aggregates. destruct (Hpart ts aggregates Hf). auto 10.
Qed.

(** The aggregates of a frame in which every selected particle has a
    neighbour are returned. *)
Lemma frame_aggregates_returns ts r indices :
  NoDup indices ->
  (forall k, In k indices -> has_neighbour N ts r indices k) ->
  exists aggregates, frame_aggregates N indices ts r = Returns aggregates.
Proof.
  intros Hnd Hall.
  destruct (frame_aggregates_cases N ts r indices Hnd)
    as [[aggregates [Hr _]]|[k [_ [Hk Hiso]]]]; [eauto|].
  apply isolated_no_neighbour in Hiso. destruct (Hiso (Hall k Hk)).
Qed.

(** A frame with an isolated selected particle makes the partition loop
    raise KeyError. *)
Lemma frame_aggregates_isolated ts r indices k :
  NoDup indices -> In k indices -> isolated N ts r indices k ->
  exists k', frame_aggregates N indices ts r = Raises (KeyError k')
             /\ In k' indices /\ isolated N ts r indices k'.
Proof.
  intros Hnd Hk Hiso.
  destruct (frame_aggregates_cases N ts r indices Hnd)
    as [[aggregates [_ [_ [Hall _]]]]|H]; [|exact H].
  apply isolated_no_neighbour in Hiso. destruct (Hiso (Hall k Hk)).
Qed.

(** A trajectory with a frame in which a selected particle is isolated: no
    document is returned, the run ends with a KeyError. *)
Lemma determine_aggregates_isolated (u : mda.Universe N) r selection indices ts k :
  selected_atoms N u selection = Returns indices ->
  In ts (mda.trajectory u) -> In k indices -> isolated N ts r indices k ->
  exists k', determine_aggregates N u r selection = Raises (KeyError k').
Proof.
  intros Hsel Hts Hk Hiso.
  destruct (determine_aggregates_cases N u r selection)
    as [[indices' [values [Hsel' [Hall _]]]]
       |[[indices' [ts' [k' [_ [_ [_ [_ Hr]]]]]]]|[Hsel' _]]];
    [|eauto|congruence].
  exfalso. rewrite Hsel in Hsel'. injection Hsel' as <-.
  pose proof (selected_atoms_NoDup N u selection indices Hsel) as Hnd.
  destruct (frame_aggregates_isolated ts r indices k Hnd Hk Hiso)
    as [k' [Hraise _]].
  clear -Hall Hts Hraise.
  induction Hall as [|ts' v frames values [aggregates [Hf _]] _ IH];
    [destruct Hts|].
  destruct Hts as [->|Hts]; [congruence | auto].
Qed.

(** C10.  determine_aggregates ends in one of three ways: it returns its
    document, it raises the KeyError of a traversal seeded at an isolated
    selected particle, or the selection is rejected.  The ValueError of
    [list.remove] is not among them: every atom the traversal yields is
    still in the list of unassigned indices when it is removed. *)
Theorem list_remove_never_fails (u : mda.Universe N) r selection :
  (exists document, determine_aggregates N u r selection = Returns document)
  \/ (exists k, determine_aggregates N u r selection = Raises (KeyError k))
  \/ determine_aggregates N u r selection = Raises SelectionError.
Proof.
  destruct (determine_aggregates_cases N u r selection)
    as [[indices [values [_ [_ Hdoc]]]]
       |[[indices [ts [k [_ [_ [_ [_ Hr]]]]]]]|[_ Hr]]]; eauto.
Qed.

(** C6.  A document returned by determine_aggregates is a dict with the two
    keys "description" and "data", in this order.  The keys of the data are
    the textual forms of the timesteps of the trajectory: each of them once,
    in the order in which the frames first show them; when the frames have
    pairwise different textual forms, the keys are these forms frame by
    frame. *)
Theorem document_shape (u : mda.Universe N) r selection document :
  determine_aggregates N u r selection = Returns document ->
  exists description data,
    document = PyDict [("description"%string, PyStr description);
                       ("data"%string, PyDict data)]
    /\ dict_keys [("description"%string, PyStr description);
                  ("data"%string, PyDict data)]
       = ["description"%string; "data"%string]
    /\ dict_keys data
       = first_occurrences (map (mda.str_Timestep N) (mda.trajectory u))
    /\ NoDup (dict_keys data)
    /\ (forall key, In key (dict_keys data) <->
                    exists ts, In ts (mda.trajectory u)
                               /\ key = mda.str_Timestep N ts)
    /\ (NoDup (map (mda.str_Timestep N) (mda.trajectory u)) ->
        dict_keys data = map (mda.str_Timestep N) (mda.trajectory u)).
Proof.
  intros Hret.
  destruct (determine_aggregates_cases N u r selection)
    as [[indices [values [Hsel [Hall Hdoc]]]]
       |[[indices [ts [k [_ [_ [_ [_ Hr]]]]]]]|[_ Hr]]]; try congruence.
  rewrite Hdoc in Hret. injection Hret as <-.
  do 2 eexists. split; [reflexivity|]. split; [reflexivity|].
  assert (Hkeys : dict_keys
            (set_all (combine (map (mda.str_Timestep N) (mda.trajectory u))
                              values) [])
          = first_occurrences (map (mda.str_Timestep N) (mda.trajectory u))).
  { rewrite dict_keys_set_all. simpl.
    rewrite (Forall2_combine_keys _ _ _ _ Hall).
    apply filter_keep_all. reflexivity. }
  rewrite Hkeys. split; [reflexivity|]. split; [apply NoDup_first_occurrences|].
  split.
  - intros key. rewrite In_first_occurrences, in_map_iff. split.
    + intros [ts [<- Hts]]. eauto.
    + intros [ts [Hts ->]]. eauto.
  - apply first_occurrences_NoDup.
Qed.

(** The analysis never runs out of the fuel its loops are given. *)
Lemma determine_aggregates_fuel (u : mda.Universe N) r selection :
  determine_aggregates N u r selection <> OutOfFuel.
Proof.
  destruct (determine_aggregates_cases N u r selection)
    as [[indices [values [_ [_ Hr]]]]
       |[[indices [ts [k [_ [_ [_ [_ Hr]]]]]]]|[_ Hr]]]; congruence.
Qed.

(** C5, as amended.  The command line names the input files (words that
    do not begin with "-") and gives --r_neigh with one word, before or
    after them.  A word that argparse takes as the argument of the option
    (it does not begin with "-", or has the form -digits or
    -digits.digits) is handed to float(): if float() rejects it the run
    ends in a usage error; if float() accepts it, whatever its sign, it is
    the cutoff, the input is loaded and the process ends as
    determine_aggregates does with that cutoff, with the printed document
    or with the traceback of its exception.  A word that argparse takes
    for an option (such as -1e3, -inf or -1.) is a usage error even when
    float() accepts it. *)
Theorem r_neigh_usage (load : list string -> option (mda.Universe N))
  (without_cutoff : mda.Universe N -> option string -> process_result)
  (files : list string) (word : string) (argv : list string) :
  files <> [] ->
  Forall (fun f => starts_with_dash f = false) files ->
  argv = files ++ ["--r_neigh"%string; word]
  \/ argv = "--r_neigh"%string :: word :: files ->
  ((starts_with_dash word = false \/ _negative_number_matcher word = true) ->
   (mda.float_of_string N word = None ->
    main N load without_cutoff argv = UsageError)
   /\ (forall r, mda.float_of_string N word = Some r ->
        parse_args N argv
        = Goes_on {| input := files; r_neigh := Some r; selection := None |}
        /\ main N load without_cutoff argv =
           match load files with
           | None => Traceback OSError
           | Some u => report (determine_aggregates N u r None)
           end
        /\ main N load without_cutoff argv <> UsageError
        /\ main N load without_cutoff argv <> HelpPrinted
        /\ main N load without_cutoff argv <> Hangs))
  /\ (option_like word = true ->
      main N load without_cutoff argv = UsageError).
Proof.
  intros Hne Hfiles Hargv. split.
  - intros Hword.
    assert (Hparse : parse_args N argv
                     = match mda.float_of_string N word with
                       | Some r => Goes_on (Build_Namespace N files (Some r) None)
                       | None => SystemExit 2
                       end).
    { destruct Hargv as [->| ->];
        [now apply parse_files_option | now apply parse_option_files]. }
    unfold main. rewrite Hparse. split.
    + intros ->. reflexivity.
    + intros r ->. split; [reflexivity|]. cbn [input r_neigh selection].
      split; [reflexivity|].
      destruct (load files) as [u|]; [|repeat split; discriminate].
      pose proof (determine_aggregates_fuel u r None) as Hfuel.
      destruct (determine_aggregates N u r None);
        cbn [report]; repeat split; congruence.
  - intros Hword. unfold main.
    assert (Hparse : parse_args N argv = SystemExit 2).
    { destruct Hargv as [->| ->];
        [now apply parse_files_option_like | now apply parse_option_like_files]. }
    rewrite Hparse. reflexivity.
Qed.

End Claims.

(** *** Runs of the detector on the particles on a line *)

(** Section 8, worked example.  At cutoff 1.2 the three particles form one
    aggregate, listed in postorder. *)
Example three_in_a_row_wide :
  determine_aggregates line.numerics line.three_in_a_row 12%Z None
  = Returns line_runs.three_document.
Proof. reflexivity. Qed.

(** At cutoff 0.5 no particle has a neighbour: the graph is empty and the
    first traversal raises. *)
Example three_in_a_row_narrow :
  determine_aggregates line.numerics line.three_in_a_row 5%Z None
  = Raises (KeyError 0).
Proof. reflexivity. Qed.

(** A word that is not a number after --r_neigh. *)
Example word_cutoff_rejected :
  main line.numerics line.load line.without_cutoff line_runs.word_cutoff
  = UsageError.
Proof. reflexivity. Qed.

(** A negative cutoff with particles to analyse: accepted, and the analysis
    ends with the KeyError of the first particle. *)
Example negative_cutoff_traceback :
  main line.numerics line.load line.without_cutoff line_runs.negative_cutoff
  = Traceback (KeyError 0).
Proof. reflexivity. Qed.

(** Words after --r_neigh that argparse takes as its argument, and words
    that it takes for options. *)
Example words_taken_as_arguments :
  map _negative_number_matcher ["-1"; "-0.5"; "-.5"; "-12.25"]%string
  = [true; true; true; true]
  /\ map _parse_optional ["-1"; "-0.5"; "0"; "1.2"; "wide"; ""; "-"]%string
     = repeat meant_positional 7.
Proof. split; reflexivity. Qed.

Example words_taken_for_options :
  map option_like ["-1e3"; "-inf"; "-1."; "-nan"; "-x"]%string
  = [true; true; true; true; true]
  /\ map _parse_optional ["-1e3"; "-inf"; "-1."]%string
     = [meant_optional (None, "-1e3", None);
        meant_optional (None, "-inf", None);
        meant_optional (None, "-1.", None)]%string.
Proof. split; reflexivity. Qed.

(** C1, at the two-frame trajectory. *)
Lemma determine_aggregates_partition_witness :
  determine_aggregates line.numerics line.two_frames 12%Z None
  = Returns line_runs.two_frames_document
  /\ exists indices data,
      selected_atoms line.numerics line.two_frames None = Returns indices
      /\ line_runs.two_frames_document
         = PyDict [("description"%string,
                    PyStr (describe line.numerics 12%Z None));
                   ("data"%string, PyDict data)]
      /\ (forall ts, In ts (mda.trajectory line.two_frames) ->
          exists aggregates,
            frame_aggregates line.numerics indices ts 12%Z = Returns aggregates
            /\ partitions aggregates indices
            /\ forall i, In i indices -> exactly_once aggregates i)
      /\ (forall key value, In (key, value) data ->
          exists ts aggregates,
            In ts (mda.trajectory line.two_frames)
            /\ key = mda.str_Timestep line.numerics ts
            /\ value = aggregates_value aggregates
            /\ frame_aggregates line.numerics indices ts 12%Z = Returns aggregates
            /\ partitions aggregates indices
            /\ forall i, In i indices -> exactly_once aggregates i).
Proof.
  split; [reflexivity|].
  apply (determine_aggregates_partition line.numerics line.two_frames 12%Z None
           line_runs.two_frames_document).
  reflexivity.
Defined.

(** C2.  Particles 0 and 1 are neighbours, particle 2 has none.  The first
    aggregate is found; the traversal seeded at particle 2 then raises
    KeyError, and no document is returned. *)
Theorem isolated_particle_raises :
  determine_aggregates line.numerics line.pair_and_loner 12%Z None
  = Raises (KeyError 2).
Proof. reflexivity. Qed.

(** C6, at the three particles in a row. *)
Lemma document_shape_witness :
  determine_aggregates line.numerics line.three_in_a_row 12%Z None
  = Returns line_runs.three_document
  /\ exists description data,
      line_runs.three_document
      = PyDict [("description"%string, PyStr description);
                ("data"%string, PyDict data)]
      /\ dict_keys [("description"%string, PyStr description);
                    ("data"%string, PyDict data)]
         = ["description"%string; "data"%string]
      /\ dict_keys data
         = first_occurrences (map (mda.str_Timestep line.numerics)
                                  (mda.trajectory line.three_in_a_row))
      /\ NoDup (dict_keys data)
      /\ (forall key, In key (dict_keys data) <->
                      exists ts, In ts (mda.trajectory line.three_in_a_row)
                                 /\ key = mda.str_Timestep line.numerics ts)
      /\ (NoDup (map (mda.str_Timestep line.numerics)
                     (mda.trajectory line.three_in_a_row)) ->
          dict_keys data = map (mda.str_Timestep line.numerics)
                               (mda.trajectory line.three_in_a_row)).
Proof.
  split; [reflexivity|].
  apply (document_shape line.numerics line.three_in_a_row 12%Z None
           line_runs.three_document).
  reflexivity.
Defined.

(** C5, as stated, fails: the cutoff 0 is not positive, yet the command
    line is accepted with [r_neigh = 0], the analysis runs and the document
    is printed. *)
Lemma nonpositive_r_neigh_accepted :
  mda.float_of_string line.numerics "0" = Some 0%Z
  /\ (0 <= 0)%Z
  /\ parse_args line.numerics line_runs.zero_cutoff
     = Goes_on (Build_Namespace line.numerics ["coincident.gro"%string]
                  (Some 0%Z) None)
  /\ main line.numerics line.load line.without_cutoff line_runs.zero_cutoff
     = Printed line_runs.coincident_document.
Proof.
  split; [reflexivity|]. split; [lia|]. split; reflexivity.
Qed.

(** C5, as amended, at a negative cutoff. *)
Lemma r_neigh_usage_witness :
  ["three.gro"%string] <> []
  /\ Forall (fun f => starts_with_dash f = false) ["three.gro"%string]
  /\ (line_runs.negative_cutoff
      = ["three.gro"%string] ++ ["--r_neigh"%string; "-1"%string]
      \/ line_runs.negative_cutoff
         = "--r_neigh"%string :: "-1"%string :: ["three.gro"%string])
  /\ ((starts_with_dash "-1" = false \/ _negative_number_matcher "-1" = true) ->
      (mda.float_of_string line.numerics "-1" = None ->
       main line.numerics line.load line.without_cutoff
            line_runs.negative_cutoff = UsageError)
      /\ (forall r, mda.float_of_string line.numerics "-1" = Some r ->
           parse_args line.numerics line_runs.negative_cutoff
           = Goes_on {| input := ["three.gro"%string]; r_neigh := Some r;
                        selection := None |}
           /\ main line.numerics line.load line.without_cutoff
                   line_runs.negative_cutoff =
              match line.load ["three.gro"%string] with
              | None => Traceback OSError
              | Some u => report (determine_aggregates line.numerics u r None)
              end
           /\ main line.numerics line.load line.without_cutoff
                   line_runs.negative_cutoff <> UsageError
           /\ main line.numerics line.load line.without_cutoff
                   line_runs.negative_cutoff <> HelpPrinted
           /\ main line.numerics line.load line.without_cutoff
                   line_runs.negative_cutoff <> Hangs))
  /\ (option_like "-1" = true ->
      main line.numerics line.load line.without_cutoff
           line_runs.negative_cutoff = UsageError).
Proof.
  split; [discriminate|].
  split; [repeat constructor|].
  split; [left; reflexivity|].
  apply (r_neigh_usage line.numerics line.load line.without_cutoff
           ["three.gro"%string] "-1" line_runs.negative_cutoff).
  - discriminate.
  - repeat constructor.
  - left. reflexivity.
Defined.

End aggregation_claims.

(** ** Slices of the type token *)

Module slice_facts.
Import generator.

Lemma substring_whole s : forall n,
  (String.length s <= n)%nat -> substring 0 n s = s.
Proof.
  induction s as [|c s IH]; intros [|n] Hlen; simpl in *; try reflexivity.
  - lia.
  - rewrite IH by lia. reflexivity.
Qed.

Lemma substring_of_prefix s : forall a m n,
  (a + m <= n)%nat -> substring a m (substring 0 n s) = substring a m s.
Proof.
  induction s as [|c s IH]; intros a m n Hle.
  - destruct n; reflexivity.
  - destruct n as [|n].
    + assert (a = O) by lia. assert (m = O) by lia. subst. reflexivity.
    + destruct a as [|a]; simpl.
      * destruct m as [|m]; [reflexivity|]. f_equal. apply (IH O). simpl in *. lia.
      * apply IH. simpl in *. lia.
Qed.

Lemma substring_substring s : forall b a m n,
  (a + m <= n)%nat ->
  substring a m (substring b n s) = substring (a + b) m s.
Proof.
  induction s as [|c s IH]; intros b a m n Hle.
  - destruct b, n, a, m; reflexivity.
  - destruct b as [|b].
    + rewrite Nat.add_0_r. now apply substring_of_prefix.
    + rewrite Nat.add_succ_r. simpl. now apply IH.
Qed.

Lemma length_substring s : forall a n,
  (a + n <= String.length s)%nat -> String.length (substring a n s) = n.
Proof.
  induction s as [|c s IH]; intros a n Hle; simpl in *.
  - assert (a = O) by lia. assert (n = O) by lia. subst. reflexivity.
  - destruct a as [|a].
    + destruct n as [|n]; [reflexivity|]. simpl. rewrite (IH O) by (simpl; lia).
      reflexivity.
    + apply IH. lia.
Qed.

(** [s[-n:][-m:]] is [s[-m:]] when [m <= n]. *)
Lemma slice_last_twice m n s :
  (m <= n)%nat -> slice_last m (slice_last n s) = slice_last m s.
Proof.
  intros Hmn. unfold slice_last.
  destruct (le_lt_dec (String.length s) n) as [Hle|Hlt].
  - replace (String.length s - n)%nat with O by lia.
    now rewrite substring_whole.
  - rewrite length_substring by lia. rewrite substring_substring by lia.
    f_equal. lia.
Qed.

(** A token that ends in "rods" does not end in "helices". *)
Lemma rods_not_helices t : is_rods t = true -> is_helices t = false.
Proof.
  unfold is_rods, is_helices. intros H. apply String.eqb_eq in H.
  apply String.eqb_neq. intros Hh.
  rewrite <- (slice_last_twice 4 7 t) in H by lia. rewrite Hh in H.
  discriminate H.
Qed.

(** A token that starts with "disordered" does not start with "random". *)
Lemma disordered_not_random t : is_disordered t = true -> is_random t = false.
Proof.
  unfold is_disordered, is_random, slice_to. intros H. apply String.eqb_eq in H.
  destruct t as [|c t]; [discriminate H|]. simpl in H. injection H as -> _.
  reflexivity.
Qed.

End slice_facts.

(** ** The chain of one molecule *)

Module chain_facts.
Import generator generator_notions slice_facts.
Local Open Scope R_scope.

Section Chain.

Variable E : Randomness.

Lemma atom_loop_S tok count iatom xyz ix0 np0 :
  atom_loop E tok (S count) iatom xyz ix0 np0 =
  let nc := next_coordinates E tok iatom xyz np0 in
  let al := atom_loop E tok count (S iatom) (fst nc) (ix0 + 1)%Z (snd nc) in
  (xyz :: positions_of al,
   (if (0 <? iatom)%nat then [((ix0 - 1)%Z, ix0)] else []) ++ bonds_of al,
   ix_of al, np_of al).
Proof.
  simpl. destruct (next_coordinates E tok iatom xyz np0) as [xyz' np'].
  simpl. destruct (atom_loop E tok count (S iatom) xyz' (ix0 + 1)%Z np')
    as [[[ps bs] ix'] np''].
  reflexivity.
Qed.

Lemma atom_loop_length tok count : forall iatom xyz ix0 np0,
  List.length (positions_of (atom_loop E tok count iatom xyz ix0 np0)) = count.
Proof.
  induction count as [|count IH]; intros; [reflexivity|].
  rewrite atom_loop_S. cbv zeta. unfold positions_of at 1. simpl.
  now rewrite IH.
Qed.

Lemma next_coordinates_np tok iatom xyz np0 :
  is_random tok = false -> snd (next_coordinates E tok iatom xyz np0) = np0.
Proof.
  intros Hr. unfold next_coordinates. rewrite Hr. reflexivity.
Qed.

(** Without the prefix "random" the chain draws nothing from numpy. *)
Lemma atom_loop_np tok count : forall iatom xyz ix0 np0,
  is_random tok = false ->
  np_of (atom_loop E tok count iatom xyz ix0 np0) = np0.
Proof.
  induction count as [|count IH]; intros iatom xyz ix0 np0 Hr; [reflexivity|].
  rewrite atom_loop_S. cbv zeta. unfold np_of at 1. simpl.
  rewrite IH by assumption. now apply next_coordinates_np.
Qed.

Lemma next_coordinates_rods tok iatom z np0 :
  is_rods tok = true -> is_random tok = false ->
  fst (next_coordinates E tok iatom (0, 0, z) np0) = (0, 0, z + LBOND).
Proof.
  intros Hrods Hrandom. unfold next_coordinates.
  rewrite Hrandom, Hrods, (rods_not_helices tok Hrods). simpl.
  now rewrite Rplus_0_l.
Qed.

(** A rod: atom [k] of the chain is [k] bond lengths up the z axis. *)
Lemma atom_loop_rods tok count : forall iatom z ix0 np0,
  is_rods tok = true -> is_random tok = false ->
  positions_of (atom_loop E tok count iatom (0, 0, z) ix0 np0)
  = map (fun k => (0, 0, z + INR k)) (seq 0 count).
Proof.
  induction count as [|count IH]; intros iatom z ix0 np0 Hrods Hrandom;
    [reflexivity|].
  rewrite atom_loop_S. cbv zeta. unfold positions_of at 1.
  cbn [fst snd seq map]. rewrite next_coordinates_rods by assumption.
  rewrite IH by assumption. rewrite <- seq_shift, map_map.
  f_equal.
  - f_equal. simpl. lra.
  - apply map_ext. intros k. rewrite S_INR. unfold LBOND. f_equal. lra.
Qed.

Lemma helix_code_point k : helix_code k = helix_point (INR k).
Proof.
  unfold helix_code, helix_point.
  replace (INR k * 2 * PI / PER_TURN) with (2 * PI * INR k / PER_TURN)
    by (unfold Rdiv; ring).
  reflexivity.
Qed.

Lemma next_coordinates_helices tok iatom xyz np0 :
  is_helices tok = true ->
  fst (next_coordinates E tok iatom xyz np0) = helix_code (S iatom).
Proof.
  intros Hh. unfold next_coordinates. rewrite Hh, Nat.add_1_r.
  destruct (is_random tok); [destruct (Rotation_random E np0)|]; reflexivity.
Qed.

(** A helix: the first atom stays where the chain starts; atom [k] of the
    later ones is the point of the helix at parameter [k]. *)
Lemma atom_loop_helices tok count : forall iatom xyz ix0 np0,
  is_helices tok = true ->
  positions_of (atom_loop E tok (S count) iatom xyz ix0 np0)
  = xyz :: map helix_code (seq (S iatom) count).
Proof.
  induction count as [|count IH]; intros iatom xyz ix0 np0 Hh.
  - rewrite atom_loop_S. reflexivity.
  - rewrite atom_loop_S. cbv zeta. unfold positions_of at 1.
    cbn [fst snd]. rewrite IH by assumption.
    rewrite next_coordinates_helices by assumption. reflexivity.
Qed.

End Chain.

(** Every point of the helix is at the tube radius from the axis. *)
Lemma radial_helix_point t : radial (helix_point t) = RTUBE.
Proof.
  unfold radial, helix_point.
  replace (RTUBE * cos (2 * PI * t / PER_TURN) * (RTUBE * cos (2 * PI * t / PER_TURN))
           + RTUBE * sin (2 * PI * t / PER_TURN) * (RTUBE * sin (2 * PI * t / PER_TURN)))
    with (RTUBE * RTUBE * (Rsqr (sin (2 * PI * t / PER_TURN))
                           + Rsqr (cos (2 * PI * t / PER_TURN))))
    by (unfold Rsqr; ring).
  rewrite sin2_cos2, Rmult_1_r. apply sqrt_square. unfold RTUBE. lra.
Qed.

End chain_facts.

(** ** The loop over the molecules *)

Module molecule_facts.
Import generator generator_notions slice_facts chain_facts.
Local Open Scope R_scope.

Section Molecules.

Variable E : Randomness.

Lemma place_molecule_eq tok shared imol st :
  place_molecule E tok shared imol st =
  let al := atom_loop E tok NPOLY 0 (0, 0, 0) (ix E st) (np E st) in
  match (if is_disordered tok
         then Some (fst (Rotation_random E (np_of al))) else shared) with
  | None => None
  | Some r =>
      Some ({| resid := Z.of_nat imol + 1;
               local_positions := positions_of al;
               molecule_rotation := r;
               translation_vector := translation_at E (py E st);
               molecule_bonds := bonds_of al |},
            {| ix := ix_of al;
               py := skip3 E (py E st);
               np := if is_disordered tok
                     then snd (Rotation_random E (np_of al)) else np_of al |})
  end.
Proof.
  unfold place_molecule, translation_at, skip3. cbv zeta.
  destruct (atom_loop E tok NPOLY 0 (0, 0, 0) (ix E st) (np E st))
    as [[[ps bs] ix'] np1].
  destruct (random E (py E st)) as [r1 py1].
  destruct (random E py1) as [r2 py2] eqn:H2.
  destruct (random E py2) as [r3 py3] eqn:H3.
  unfold positions_of, bonds_of, ix_of, np_of. cbn [fst snd].
  rewrite H2. cbn [fst snd]. rewrite H3. cbn [fst snd].
  destruct (is_disordered tok).
  - destruct (Rotation_random E np1) as [r np']. reflexivity.
  - destruct shared; reflexivity.
Qed.

Lemma molecule_loop_S tok shared count imol st :
  molecule_loop E tok shared (S count) imol st =
  match place_molecule E tok shared imol st with
  | None => None
  | Some (m, st') =>
      match molecule_loop E tok shared count (S imol) st' with
      | None => None
      | Some ms => Some (m :: ms)
      end
  end.
Proof. reflexivity. Qed.

(** What the loop makes of its [k]-th turn: a chain built from the origin,
    a translation from the [k]-th triple of Python's generator, and a
    rotation that is the shared one, or, for a disordered system, the
    [k]-th one of numpy's generator. *)
Lemma molecule_loop_spec tok shared :
  (is_disordered tok = true \/ exists r, shared = Some r) ->
  forall count imol st,
  exists ms,
    molecule_loop E tok shared count imol st = Some ms
    /\ List.length ms = count
    /\ forall k m, nth_error ms k = Some m ->
         (exists ix0 np0,
             local_positions E m
             = positions_of (atom_loop E tok NPOLY 0 (0, 0, 0) ix0 np0))
         /\ translation_vector E m
            = translation_at E (Nat.iter k (skip3 E) (py E st))
         /\ (is_disordered tok = false -> Some (molecule_rotation E m) = shared)
         /\ (is_disordered tok = true ->
             molecule_rotation E m = nth_rotation E k (np E st)).
Proof.
  intros Hrot. induction count as [|count IH]; intros imol st.
  - exists []. split; [reflexivity|]. split; [reflexivity|].
    intros [|k] m [=].
  - rewrite molecule_loop_S, place_molecule_eq. cbv zeta.
    set (al := atom_loop E tok NPOLY 0 (0, 0, 0) (ix E st) (np E st)).
    destruct (is_disordered tok) eqn:Hd.
    + match goal with
      | |- context [molecule_loop E tok shared count (S imol) ?st'] =>
          destruct (IH (S imol) st') as [ms [Hms [Hlen Hspec]]]
      end.
      rewrite Hms. eexists. split; [reflexivity|]. split; [cbn [List.length]; now rewrite Hlen|].
      assert (Hnp : np_of al = np E st)
        by (apply atom_loop_np, disordered_not_random, Hd).
      intros [|k] m Hm; cbn [nth_error] in Hm.
      * injection Hm as <-.
        cbn [local_positions translation_vector molecule_rotation Nat.iter nat_rect].
        split; [exists (ix E st), (np E st); reflexivity|].
        split; [reflexivity|]. split; [discriminate|].
        intros _. unfold nth_rotation. cbn [Nat.iter nat_rect]. now rewrite Hnp.
      * destruct (Hspec k m Hm) as [Hloc [Htr [_ Hr]]]. cbn [py np] in Htr, Hr.
        split; [exact Hloc|].
        split; [rewrite Htr; now rewrite Nat.iter_succ_r|].
        split; [discriminate|].
        intros _. rewrite (Hr eq_refl). unfold nth_rotation.
        rewrite Nat.iter_succ_r, Hnp. reflexivity.
    + destruct Hrot as [[=]|[r ->]].
      match goal with
      | |- context [molecule_loop E tok (Some r) count (S imol) ?st'] =>
          destruct (IH (S imol) st') as [ms [Hms [Hlen Hspec]]]
      end.
      rewrite Hms. eexists. split; [reflexivity|]. split; [cbn [List.length]; now rewrite Hlen|].
      intros [|k] m Hm; cbn [nth_error] in Hm.
      * injection Hm as <-.
        cbn [local_positions translation_vector molecule_rotation Nat.iter nat_rect].
        split; [exists (ix E st), (np E st); reflexivity|].
        split; [reflexivity|]. split; [reflexivity | discriminate].
      * destruct (Hspec k m Hm) as [Hloc [Htr [Hr _]]]. cbn [py np] in Htr.
        split; [exact Hloc|].
        split; [rewrite Htr; now rewrite Nat.iter_succ_r|].
        split; [exact Hr | discriminate].
Qed.

(** The run of the generator: it makes [NMOL] molecules; see
    [molecule_loop_spec] for what they are. *)
Lemma molecules_spec tok np0 :
  exists ms,
    molecules E tok np0 = Some ms
    /\ List.length ms = NMOL
    /\ forall k m, nth_error ms k = Some m ->
         (exists ix0 np1,
             local_positions E m
             = positions_of (atom_loop E tok NPOLY 0 (0, 0, 0) ix0 np1))
         /\ translation_vector E m
            = translation_at E (Nat.iter k (skip3 E) (seed E RANDOM_SEED))
         /\ (is_disordered tok = false ->
             molecule_rotation E m = nth_rotation E 0 np0)
         /\ (is_disordered tok = true ->
             molecule_rotation E m = nth_rotation E k np0).
Proof.
  unfold molecules. destruct (is_disordered tok) eqn:Hd; cbn [negb].
  - destruct (molecule_loop_spec tok None (or_introl Hd) NMOL 0%nat
                {| ix := 0; py := seed E RANDOM_SEED; np := np0 |})
      as [ms [Hms [Hlen Hspec]]].
    exists ms. split; [exact Hms | split; [exact Hlen|]].
    intros k m Hm. destruct (Hspec k m Hm) as [Hloc [Htr [_ Hr]]].
    cbn [py np] in Htr, Hr.
    split; [exact Hloc|]. split; [exact Htr|]. split; [discriminate | intros _; exact (Hr Hd)].
  - destruct (Rotation_random E np0) as [r np1] eqn:Hdraw.
    destruct (molecule_loop_spec tok (Some r)
                (or_intror (ex_intro _ r eq_refl)) NMOL 0%nat
                {| ix := 0; py := seed E RANDOM_SEED; np := np1 |})
      as [ms [Hms [Hlen Hspec]]].
    exists ms. split; [exact Hms | split; [exact Hlen|]].
    intros k m Hm. destruct (Hspec k m Hm) as [Hloc [Htr [Hr _]]].
    cbn [py np] in Htr.
    split; [exact Hloc|]. split; [exact Htr|]. split; [|discriminate].
    intros _. specialize (Hr Hd). injection Hr as ->.
    unfold nth_rotation. cbn [Nat.iter nat_rect]. now rewrite Hdraw.
Qed.

Lemma chain_eq tok np0 :
  chain E tok np0 = positions_of (atom_loop E tok NPOLY 0 (0, 0, 0) 0%Z np0).
Proof.
  unfold chain.
  destruct (atom_loop E tok NPOLY 0 (0, 0, 0) 0%Z np0) as [[[ps bs] ix'] np'].
  reflexivity.
Qed.

(** The first two particles of a chain. *)
Lemma chain_first_two tok np0 :
  exists tail,
    chain E tok np0
    = (0, 0, 0) :: fst (next_coordinates E tok 0 (0, 0, 0) np0) :: tail.
Proof.
  rewrite chain_eq. unfold NPOLY.
  rewrite (atom_loop_S E tok 19). cbv zeta.
  rewrite (atom_loop_S E tok 18). cbv zeta.
  unfold positions_of. cbn [fst snd]. eexists. reflexivity.
Qed.

(** The first molecule of a run. *)
Lemma first_molecule tok np0 :
  exists m rest,
    molecules E tok np0 = Some (m :: rest)
    /\ local_positions E m
       = chain E tok (if is_disordered tok then np0
                      else snd (Rotation_random E np0))
    /\ molecule_rotation E m = nth_rotation E 0 np0
    /\ translation_vector E m = translation_at E (seed E RANDOM_SEED).
Proof.
  unfold molecules, NMOL. destruct (is_disordered tok) eqn:Hd; cbn [negb].
  - rewrite molecule_loop_S, place_molecule_eq. cbv zeta. rewrite Hd.
    match goal with
    | |- context [molecule_loop E tok None ?c ?i ?st] =>
        destruct (molecule_loop_spec tok None (or_introl Hd) c i st)
          as [rest [Hrest _]]; rewrite Hrest
    end.
    do 2 eexists. split; [reflexivity|]. cbn [local_positions molecule_rotation
      translation_vector ix py np].
    split; [now rewrite chain_eq|]. split; [|reflexivity].
    unfold nth_rotation. cbn [Nat.iter nat_rect].
    rewrite atom_loop_np by (now apply disordered_not_random). reflexivity.
  - destruct (Rotation_random E np0) as [r np1] eqn:Hdraw.
    rewrite molecule_loop_S, place_molecule_eq. cbv zeta. rewrite Hd.
    match goal with
    | |- context [molecule_loop E tok (Some r) ?c ?i ?st] =>
        destruct (molecule_loop_spec tok (Some r)
                    (or_intror (ex_intro _ r eq_refl)) c i st)
          as [rest [Hrest _]]; rewrite Hrest
    end.
    do 2 eexists. split; [reflexivity|]. cbn [local_positions molecule_rotation
      translation_vector ix py np snd].
    split; [now rewrite chain_eq|]. split; [|reflexivity].
    unfold nth_rotation. cbn [Nat.iter nat_rect]. now rewrite Hdraw.
Qed.

End Molecules.

End molecule_facts.
(** ** Floating-point arithmetic: how far a result is from the exact one *)

Module float_facts.
Import utilities_notions.
Local Open Scope R_scope.

(** ** Powers of two *)

Lemma pow2_pos e : 0 < pow2 e.
Proof. unfold pow2. apply powerRZ_lt. lra. Qed.

Lemma pow2_add a b : pow2 (a + b) = pow2 a * pow2 b.
Proof. unfold pow2. apply powerRZ_add. lra. Qed.

Lemma pow2_0 : pow2 0 = 1.
Proof. reflexivity. Qed.

Lemma pow2_1 : pow2 1 = 2.
Proof. unfold pow2. simpl. lra. Qed.

Lemma pow2_succ e : pow2 (e + 1) = 2 * pow2 e.
Proof. rewrite pow2_add, pow2_1. ring. Qed.

Lemma pow2_opp e : pow2 (- e) = / pow2 e.
Proof. unfold pow2. apply powerRZ_neg'. Qed.

Lemma pow2_sub a b : pow2 (a - b) = pow2 a / pow2 b.
Proof.
  unfold Z.sub. rewrite pow2_add, pow2_opp. reflexivity.
Qed.

Lemma pow2_IZR e : (0 <= e)%Z -> pow2 e = IZR (2 ^ e).
Proof.
  intros He. unfold pow2. rewrite <- (Z2Nat.id e He) at 1.
  rewrite <- pow_powerRZ. rewrite <- (Z2Nat.id e He) at 2.
  rewrite <- Zpower_nat_Z. generalize (Z.to_nat e). intros n.
  induction n as [|n IH].
  - reflexivity.
  - rewrite Zpower_nat_succ_r, mult_IZR, <- IH. simpl. ring.
Qed.

Lemma pow2_le a b : (a <= b)%Z -> pow2 a <= pow2 b.
Proof.
  intros H. replace b with (a + (b - a))%Z by lia. rewrite pow2_add.
  rewrite (pow2_IZR (b - a)) by lia. pose proof (pow2_pos a) as Ha.
  assert (1 <= IZR (2 ^ (b - a))).
  { apply IZR_le. assert (0 < 2 ^ (b - a))%Z by (apply Z.pow_pos_nonneg; lia). lia. }
  rewrite <- (Rmult_1_r (pow2 a)) at 1. apply Rmult_le_compat_l; lra.
Qed.

Lemma pow2_lt a b : (a < b)%Z -> pow2 a < pow2 b.
Proof.
  intros H. replace b with (a + (b - a))%Z by lia. rewrite pow2_add.
  rewrite (pow2_IZR (b - a)) by lia. pose proof (pow2_pos a) as Ha.
  assert (2 <= IZR (2 ^ (b - a))).
  { apply IZR_le. replace (b - a)%Z with (1 + (b - a - 1))%Z by lia.
    rewrite Z.pow_add_r by lia.
    assert (0 < 2 ^ (b - a - 1))%Z by (apply Z.pow_pos_nonneg; lia). lia. }
  rewrite <- (Rmult_1_r (pow2 a)) at 1. apply Rmult_lt_compat_l; lra.
Qed.

Lemma pow2_lt_inv a b : pow2 a < pow2 b -> (a < b)%Z.
Proof.
  intros H. destruct (Z_lt_le_dec a b) as [Hlt|Hle]; [exact Hlt|].
  apply pow2_le in Hle. lra.
Qed.

Lemma pow2_le_inv a b : pow2 a <= pow2 b -> (a <= b)%Z.
Proof.
  intros H. destruct (Z_le_gt_dec a b) as [Hle|Hgt]; [exact Hle|].
  assert (b < a)%Z by lia. apply pow2_lt in H0. lra.
Qed.

(** ** The number of binary digits *)

Lemma digits2_pos_bounds p :
  (2 ^ (Zpos (digits2_pos p) - 1) <= Zpos p < 2 ^ Zpos (digits2_pos p))%Z.
Proof.
  induction p as [p IH|p IH|]; cbn [digits2_pos].
  - rewrite Pos2Z.inj_succ.
    replace (Z.succ (Zpos (digits2_pos p)) - 1)%Z
      with (1 + (Zpos (digits2_pos p) - 1))%Z by lia.
    rewrite Z.pow_succ_r by lia. rewrite Z.pow_add_r by lia.
    change (2 ^ 1)%Z with 2%Z. lia.
  - rewrite Pos2Z.inj_succ.
    replace (Z.succ (Zpos (digits2_pos p)) - 1)%Z
      with (1 + (Zpos (digits2_pos p) - 1))%Z by lia.
    rewrite Z.pow_succ_r by lia. rewrite Z.pow_add_r by lia.
    change (2 ^ 1)%Z with 2%Z. lia.
  - cbn. lia.
Qed.

Lemma Zdigits2_bounds m :
  (0 < m)%Z -> (2 ^ (Zdigits2 m - 1) <= m < 2 ^ Zdigits2 m)%Z.
Proof.
  destruct m as [|p|p]; try lia. intros _. apply digits2_pos_bounds.
Qed.

Lemma Zdigits2_pos m : (0 < m)%Z -> (0 < Zdigits2 m)%Z.
Proof. destruct m; cbn; lia. Qed.

Lemma Zdigits2_unique m d :
  (2 ^ (d - 1) <= m < 2 ^ d)%Z -> (0 < d)%Z -> Zdigits2 m = d.
Proof.
  intros [Hlo Hhi] Hd.
  assert (Hm : (0 < m)%Z).
  { assert (0 < 2 ^ (d - 1))%Z by (apply Z.pow_pos_nonneg; lia). lia. }
  destruct (Zdigits2_bounds m Hm) as [Hlo' Hhi'].
  pose proof (Zdigits2_pos m Hm) as Hpos.
  destruct (Z.lt_trichotomy (Zdigits2 m) d) as [Hlt|[Heq|Hgt]]; [|exact Heq|].
  - assert (2 ^ Zdigits2 m <= 2 ^ (d - 1))%Z by (apply Z.pow_le_mono_r; lia). lia.
  - assert (2 ^ d <= 2 ^ (Zdigits2 m - 1))%Z by (apply Z.pow_le_mono_r; lia). lia.
Qed.

(** ** Shifting right with a round bit and a sticky bit *)

Lemma IZR_xO p : IZR (Zpos p~0) = 2 * IZR (Zpos p).
Proof. rewrite Pos2Z.inj_xO, mult_IZR. reflexivity. Qed.

Lemma IZR_xI p : IZR (Zpos p~1) = 2 * IZR (Zpos p) + 1.
Proof. rewrite Pos2Z.inj_xI, plus_IZR, mult_IZR. reflexivity. Qed.

Lemma loc_ok_bounds u m l : loc_ok u m l -> IZR m <= u < IZR m + 1.
Proof. destruct l as [|[]]; cbn [loc_ok]; lra. Qed.

Lemma shr_1_ok u mrs :
  (0 <= shr_m mrs)%Z ->
  loc_ok u (shr_m mrs) (loc_of_shr_record mrs) ->
  loc_ok (u / 2) (shr_m (shr_1 mrs)) (loc_of_shr_record (shr_1 mrs))
  /\ (0 <= shr_m (shr_1 mrs))%Z.
Proof.
  destruct mrs as [m r s]. cbn [shr_m]. intros Hm.
  destruct m as [|[p|p|]|p]; try lia;
    destruct r, s; cbn [shr_1 loc_of_shr_record orb shr_m loc_ok];
    try rewrite (IZR_xO p); try rewrite (IZR_xI p); intros H;
    (split; [lra|lia]).
Qed.

Lemma iter_pos_shr_1_ok n : forall u mrs,
  (0 <= shr_m mrs)%Z ->
  loc_ok u (shr_m mrs) (loc_of_shr_record mrs) ->
  loc_ok (u / pow2 (Zpos n)) (shr_m (iter_pos shr_1 n mrs))
         (loc_of_shr_record (iter_pos shr_1 n mrs))
  /\ (0 <= shr_m (iter_pos shr_1 n mrs))%Z.
Proof.
  induction n as [n IH|n IH|]; intros u mrs Hm Hu; cbn [iter_pos].
  - destruct (shr_1_ok u mrs Hm Hu) as [H1 Hm1].
    destruct (IH _ _ Hm1 H1) as [H2 Hm2].
    destruct (IH _ _ Hm2 H2) as [H3 Hm3].
    split; [|exact Hm3].
    replace (u / pow2 (Zpos n~1)) with (u / 2 / pow2 (Zpos n) / pow2 (Zpos n));
      [exact H3|].
    rewrite Pos2Z.inj_xI.
    replace (2 * Zpos n + 1)%Z with (Zpos n + Zpos n + 1)%Z by lia.
    rewrite pow2_succ, pow2_add. pose proof (pow2_pos (Zpos n)). field. lra.
  - destruct (IH _ _ Hm Hu) as [H2 Hm2].
    destruct (IH _ _ Hm2 H2) as [H3 Hm3].
    split; [|exact Hm3].
    replace (u / pow2 (Zpos n~0)) with (u / pow2 (Zpos n) / pow2 (Zpos n));
      [exact H3|].
    rewrite Pos2Z.inj_xO.
    replace (2 * Zpos n)%Z with (Zpos n + Zpos n)%Z by lia.
    rewrite pow2_add. pose proof (pow2_pos (Zpos n)). field. lra.
  - replace (pow2 1) with 2 by (symmetry; apply pow2_1).
    now apply shr_1_ok.
Qed.

Lemma loc_of_shr_record_of_loc m l :
  loc_of_shr_record (shr_record_of_loc m l) = l
  /\ shr_m (shr_record_of_loc m l) = m.
Proof. destruct l as [|[]]; split; reflexivity. Qed.

(** [shr]: the real number [x = u * 2^e] keeps its place. *)
Lemma shr_ok x mrs e n :
  (0 <= shr_m mrs)%Z ->
  loc_ok (x / pow2 e) (shr_m mrs) (loc_of_shr_record mrs) ->
  let '(mrs', e') := shr mrs e n in
  loc_ok (x / pow2 e') (shr_m mrs') (loc_of_shr_record mrs')
  /\ (0 <= shr_m mrs')%Z
  /\ e' = (if (0 <? n)%Z then e + n else e)%Z
  /\ ((n <= 0)%Z -> mrs' = mrs).
Proof.
  intros Hm Hu. unfold shr. destruct n as [|p|p].
  - cbn. auto.
  - destruct (iter_pos_shr_1_ok p _ _ Hm Hu) as [H1 H2].
    split; [|split; [exact H2|split; [reflexivity|lia]]].
    replace (x / pow2 (e + Zpos p)) with (x / pow2 e / pow2 (Zpos p));
      [exact H1|].
    rewrite pow2_add. pose proof (pow2_pos e). pose proof (pow2_pos (Zpos p)).
    field. lra.
  - cbn. auto.
Qed.

(** Rounding to nearest, ties to even: at most half a unit away. *)
Lemma round_nearest_even_ok u m l :
  loc_ok u m l ->
  Rabs (IZR (round_nearest_even m l) - u) <= / 2
  /\ (m <= round_nearest_even m l <= m + 1)%Z
  /\ (l = loc_Exact -> round_nearest_even m l = m).
Proof.
  destruct l as [|[]]; cbn [loc_ok round_nearest_even]; intros H.
  - split; [|split; [lia|reflexivity]].
    rewrite H. replace (IZR m - IZR m) with 0 by ring. rewrite Rabs_R0. lra.
  - split; [|split; [|discriminate]].
    + destruct (Z.even m).
      * rewrite H. replace (IZR m - (IZR m + / 2)) with (- / 2) by ring.
        rewrite Rabs_Ropp, Rabs_pos_eq; lra.
      * rewrite plus_IZR, H.
        replace (IZR m + 1 - (IZR m + / 2)) with (/ 2) by field.
        rewrite Rabs_pos_eq; lra.
    + destruct (Z.even m); lia.
  - split; [|split; [lia|discriminate]].
    apply Rabs_le. lra.
  - split; [|split; [lia|discriminate]].
    rewrite plus_IZR. apply Rabs_le. lra.
Qed.

(** ** Rounding a located number to binary64, in the normal range *)

Lemma fexp_normal e : (-1021 <= e)%Z -> fexp 53 1024 e = (e - 53)%Z.
Proof. unfold fexp, emin. lia. Qed.

Lemma IZR_pow2 e : (0 <= e)%Z -> IZR (2 ^ e) = pow2 e.
Proof. intros. symmetry. now apply pow2_IZR. Qed.

Lemma round_aux_normal s mx ex lx x :
  loc_ok (x / pow2 ex) mx lx ->
  pow2 (-1022) <= x -> x < pow2 1023 ->
  (53 <= Zdigits2 mx)%Z ->
  exists m e,
    binary_round_aux 53 1024 s mx ex lx = S754_finite s m e
    /\ Rabs (IZR (Zpos m) * pow2 e - x) <= pow2 (-53) * x.
Proof.
  intros Hloc Hlo Hhi Hd.
  pose proof (pow2_pos ex) as Hex. pose proof (pow2_pos (-1022)) as Hx0.
  assert (Hmx : (0 < mx)%Z).
  { destruct mx as [|p|p]; cbn in Hd; try lia.
    apply loc_ok_bounds in Hloc.
    assert (IZR (Z.neg p) <= -1) by (apply IZR_le; lia).
    assert (0 < x / pow2 ex) by (apply Rdiv_lt_0_compat; lra). lra. }
  set (d := Zdigits2 mx) in *.
  destruct (Zdigits2_bounds mx Hmx) as [Hdlo Hdhi]. fold d in Hdlo, Hdhi.
  pose proof (loc_ok_bounds _ _ _ Hloc) as [Hulo Huhi].
  assert (Hxlo : pow2 (d - 1 + ex) <= x).
  { rewrite pow2_add. apply IZR_le in Hdlo. rewrite IZR_pow2 in Hdlo by lia.
    apply (Rmult_le_reg_r (/ pow2 ex)); [now apply Rinv_0_lt_compat|].
    replace (pow2 (d - 1) * pow2 ex * / pow2 ex) with (pow2 (d - 1))
      by (field; lra).
    unfold Rdiv in Hulo. lra. }
  assert (Hxhi : x < pow2 (d + ex)).
  { rewrite pow2_add.
    assert (IZR mx + 1 <= pow2 d).
    { rewrite <- IZR_pow2 by lia. rewrite <- plus_IZR. apply IZR_le. lia. }
    apply (Rmult_lt_reg_r (/ pow2 ex)); [now apply Rinv_0_lt_compat|].
    replace (pow2 d * pow2 ex * / pow2 ex) with (pow2 d) by (field; lra).
    unfold Rdiv in Huhi. lra. }
  assert (He1 : (-1022 < d + ex)%Z) by (apply pow2_lt_inv; lra).
  assert (He2 : (d - 1 + ex < 1023)%Z) by (apply pow2_lt_inv; lra).
  unfold binary_round_aux, shr_fexp. fold d.
  rewrite (fexp_normal (d + ex)) by lia.
  destruct (loc_of_shr_record_of_loc mx lx) as [Hl0 Hm0].
  pose proof (shr_ok x (shr_record_of_loc mx lx) ex (d + ex - 53 - ex)) as Hshr.
  rewrite Hl0, Hm0 in Hshr. specialize (Hshr (Z.lt_le_incl _ _ Hmx) Hloc).
  destruct (shr (shr_record_of_loc mx lx) ex (d + ex - 53 - ex))
    as [mrs' e'] eqn:Hs.
  destruct Hshr as [Hloc' [Hm' [He' Hsame]]].
  assert (Hee : e' = (d + ex - 53)%Z).
  { rewrite He'. destruct (Z.ltb_spec 0 (d + ex - 53 - ex)); lia. }
  clear He' Hsame. subst e'.
  set (e' := (d + ex - 53)%Z) in *.
  set (m' := shr_m mrs') in *. set (l' := loc_of_shr_record mrs') in *.
  pose proof (pow2_pos e') as Hpe'.
  pose proof (loc_ok_bounds _ _ _ Hloc') as [Hu'lo Hu'hi].
  assert (Hu52 : pow2 52 <= x / pow2 e').
  { apply (Rmult_le_reg_r (pow2 e')); [exact Hpe'|].
    replace (x / pow2 e' * pow2 e') with x by (field; lra).
    rewrite <- pow2_add. replace (52 + e')%Z with (d - 1 + ex)%Z by (unfold e'; lia).
    exact Hxlo. }
  assert (Hu53 : x / pow2 e' < pow2 53).
  { apply (Rmult_lt_reg_r (pow2 e')); [exact Hpe'|].
    replace (x / pow2 e' * pow2 e') with x by (field; lra).
    rewrite <- pow2_add. replace (53 + e')%Z with (d + ex)%Z by (unfold e'; lia).
    exact Hxhi. }
  assert (Hm'lo : (2 ^ 52 <= m')%Z).
  { assert (IZR (2 ^ 52 - 1) < IZR m').
    { rewrite minus_IZR, IZR_pow2 by lia. lra. }
    apply lt_IZR in H. lia. }
  assert (Hm'hi : (m' < 2 ^ 53)%Z).
  { apply lt_IZR. rewrite IZR_pow2 by lia. lra. }
  destruct (round_nearest_even_ok _ _ _ Hloc') as [Hr1 [Hr2 _]].
  set (m1 := round_nearest_even m' l') in *.
  assert (Herr : Rabs (IZR m1 * pow2 e' - x) <= pow2 (-53) * x).
  { replace (IZR m1 * pow2 e' - x) with ((IZR m1 - x / pow2 e') * pow2 e')
      by (field; lra).
    rewrite Rabs_mult, (Rabs_pos_eq (pow2 e')) by lra.
    apply Rle_trans with (/ 2 * pow2 e').
    - apply Rmult_le_compat_r; lra.
    - assert (Hx52 : pow2 52 * pow2 e' <= x).
      { apply (Rmult_le_reg_r (/ pow2 e')); [now apply Rinv_0_lt_compat|].
        replace (pow2 52 * pow2 e' * / pow2 e') with (pow2 52) by (field; lra).
        exact Hu52. }
      assert (Hhalf : pow2 (-53) * pow2 52 = / 2).
      { rewrite <- pow2_add. change (-53 + 52)%Z with (-1)%Z.
        unfold pow2. simpl. lra. }
      apply Rle_trans with (pow2 (-53) * (pow2 52 * pow2 e')).
      + rewrite <- Rmult_assoc, Hhalf. lra.
      + apply Rmult_le_compat_l; [apply Rlt_le, pow2_pos | exact Hx52]. }
  destruct (Z.eq_dec m1 (2 ^ 53)) as [Hcarry|Hno].
  - (* the mantissa was rounded up to 2^53: one more shift, exact *)
    rewrite Hcarry in *.
    change (Zdigits2 (2 ^ 53)) with 54%Z.
    rewrite (fexp_normal (54 + e')) by (unfold e'; lia).
    replace (54 + e' - 53 - e')%Z with 1%Z by lia.
    cbn [shr shr_record_of_loc iter_pos shr_1 shr_m Z.pow Z.pow_pos Pos.iter
         Z.mul Pos.mul].
    assert (Hfit : (e' + 1 <=? 1024 - 53)%Z = true)
      by (apply Z.leb_le; unfold e'; lia).
    rewrite Hfit. do 2 eexists. split; [reflexivity|].
    replace (IZR (Zpos 4503599627370496) * pow2 (e' + 1))
      with (IZR (2 ^ 53) * pow2 e'); [exact Herr|].
    rewrite pow2_succ. change (2 ^ 53)%Z with (2 * 4503599627370496)%Z.
    rewrite mult_IZR. ring.
  - assert (Hd1 : Zdigits2 m1 = 53%Z) by (apply Zdigits2_unique; lia).
    rewrite Hd1. rewrite (fexp_normal (53 + e')) by (unfold e'; lia).
    replace (53 + e' - 53 - e')%Z with 0%Z by lia.
    cbn [shr shr_record_of_loc shr_m].
    destruct m1 as [|p|p]; try lia.
    assert (Hfit : (e' <=? 1024 - 53)%Z = true)
      by (apply Z.leb_le; unfold e'; lia).
    rewrite Hfit. do 2 eexists. split; [reflexivity|exact Herr].
Qed.

Lemma Zdigits2_ge_53 m : (2 ^ 52 <= m)%Z -> (53 <= Zdigits2 m)%Z.
Proof.
  intros H. assert (Hm : (0 < m)%Z) by (cbn in H; lia).
  destruct (Zdigits2_bounds m Hm) as [_ Hhi].
  destruct (Z_lt_le_dec (Zdigits2 m) 53) as [Hlt|Hle]; [|exact Hle].
  assert (2 ^ Zdigits2 m <= 2 ^ 52)%Z.
  { apply Z.pow_le_mono_r; [lia|]. lia. }
  lia.
Qed.

Lemma IZR_ge_pow2 m k : (0 <= k)%Z -> pow2 k <= IZR m -> (2 ^ k <= m)%Z.
Proof. intros Hk H. apply le_IZR. now rewrite IZR_pow2. Qed.

(** A number given exactly, with 53 digits or more. *)
Lemma round_aux_exact s mz ez x :
  x = IZR (Zpos mz) * pow2 ez ->
  pow2 (-1022) <= x -> x < pow2 1023 ->
  (2 ^ 52 <= Zpos mz)%Z ->
  exists m e,
    binary_round_aux 53 1024 s (Zpos mz) ez loc_Exact = S754_finite s m e
    /\ Rabs (IZR (Zpos m) * pow2 e - x) <= pow2 (-53) * x.
Proof.
  intros Hx Hlo Hhi Hm. apply round_aux_normal; try assumption.
  - cbn [loc_ok]. rewrite Hx. pose proof (pow2_pos ez). field. lra.
  - now apply Zdigits2_ge_53.
Qed.

Lemma shift_pos_value M k :
  IZR (Zpos (Pos.iter xO M k)) = IZR (Zpos M) * pow2 (Zpos k).
Proof.
  change (Pos.iter xO M k) with (shift_pos k M).
  rewrite shift_pos_correct, mult_IZR, pow2_IZR by lia.
  change (Z.pow_pos 2 k) with (2 ^ Zpos k)%Z. ring.
Qed.

(** [binary_round]: a positive number [M * 2^e] of the normal range. *)
Lemma binary_round_normal s M e :
  pow2 (-1022) <= IZR (Zpos M) * pow2 e ->
  IZR (Zpos M) * pow2 e < pow2 1023 ->
  exists m' e',
    binary_round 53 1024 s M e = S754_finite s m' e'
    /\ Rabs (IZR (Zpos m') * pow2 e' - IZR (Zpos M) * pow2 e)
       <= pow2 (-53) * (IZR (Zpos M) * pow2 e).
Proof.
  intros Hlo Hhi. set (x := IZR (Zpos M) * pow2 e) in *.
  unfold binary_round. set (d := Zpos (digits2_pos M)).
  destruct (digits2_pos_bounds M) as [Hdlo Hdhi]. fold d in Hdlo, Hdhi.
  pose proof (pow2_pos e) as Hpe.
  assert (Hxlo : pow2 (d - 1 + e) <= x).
  { unfold x. rewrite pow2_add. apply Rmult_le_compat_r; [lra|].
    rewrite <- IZR_pow2 by lia. now apply IZR_le. }
  assert (Hxhi : x < pow2 (d + e)).
  { unfold x. rewrite pow2_add. apply Rmult_lt_compat_r; [lra|].
    rewrite <- IZR_pow2 by lia. now apply IZR_lt. }
  assert (He1 : (-1022 < d + e)%Z) by (apply pow2_lt_inv; lra).
  rewrite (fexp_normal (d + e)) by lia.
  unfold shl_align. destruct (d + e - 53 - e)%Z as [|k|k] eqn:Hk.
  - apply round_aux_exact; try assumption; [reflexivity|].
    assert (d = 53%Z) by lia. replace 52%Z with (d - 1)%Z by lia. exact Hdlo.
  - apply round_aux_exact; try assumption; [reflexivity|].
    assert (2 ^ 52 <= 2 ^ (d - 1))%Z by (apply Z.pow_le_mono_r; lia). lia.
  - assert (Hval : x = IZR (Zpos (Pos.iter xO M k)) * pow2 (d + e - 53)).
    { rewrite shift_pos_value. unfold x. rewrite Rmult_assoc, <- pow2_add.
      do 2 f_equal. lia. }
    apply round_aux_exact; try assumption.
    apply IZR_ge_pow2; [lia|]. rewrite shift_pos_value.
    replace 52%Z with (d - 1 + Zpos k)%Z by lia. rewrite pow2_add.
    apply Rmult_le_compat_r; [apply Rlt_le, pow2_pos|].
    rewrite <- IZR_pow2 by lia. now apply IZR_le.
Qed.

(** ** The operations, on finite numbers and in the normal range *)

(** The product of two numbers with 53-digit mantissas. *)
Lemma mul_normal sx mx ex sy my ey :
  (2 ^ 52 <= Zpos mx)%Z -> (2 ^ 52 <= Zpos my)%Z ->
  let z := (IZR (Zpos mx) * pow2 ex) * (IZR (Zpos my) * pow2 ey) in
  pow2 (-1022) <= z -> z < pow2 1023 ->
  exists m e,
    float64.mul (S754_finite sx mx ex) (S754_finite sy my ey)
    = S754_finite (xorb sx sy) m e
    /\ Rabs (IZR (Zpos m) * pow2 e - z) <= pow2 (-53) * z.
Proof.
  intros Hmx Hmy z Hlo Hhi.
  unfold float64.mul, float64.prec, float64.emax. cbn [SFmul].
  apply round_aux_exact; try assumption.
  - unfold z. rewrite Pos2Z.inj_mul, mult_IZR, pow2_add. ring.
  - rewrite Pos2Z.inj_mul.
    assert (2 ^ 52 * 2 ^ 52 <= Zpos mx * Zpos my)%Z by (apply Z.mul_le_mono_nonneg; lia).
    assert (2 ^ 52 <= 2 ^ 52 * 2 ^ 52)%Z by (cbn; lia). lia.
Qed.

Lemma shl_align_value mx ex ez :
  (ez <= ex)%Z ->
  IZR (Zpos (fst (shl_align mx ex ez))) * pow2 ez = IZR (Zpos mx) * pow2 ex.
Proof.
  intros Hle. unfold shl_align. destruct (ez - ex)%Z as [|k|k] eqn:Hk;
    cbn [fst]; try lia.
  - now replace ez with ex by lia.
  - rewrite shift_pos_value, Rmult_assoc, <- pow2_add. do 2 f_equal. lia.
Qed.

(** The sum of two positive numbers. *)
Lemma add_normal mx ex my ey :
  let z := IZR (Zpos mx) * pow2 ex + IZR (Zpos my) * pow2 ey in
  pow2 (-1022) <= z -> z < pow2 1023 ->
  exists m e,
    float64.add (S754_finite false mx ex) (S754_finite false my ey)
    = S754_finite false m e
    /\ Rabs (IZR (Zpos m) * pow2 e - z) <= pow2 (-53) * z.
Proof.
  intros z Hlo Hhi.
  unfold float64.add, float64.prec, float64.emax. cbn [SFadd cond_Zopp].
  set (ez := Z.min ex ey).
  pose proof (shl_align_value mx ex ez ltac:(unfold ez; lia)) as Hx.
  pose proof (shl_align_value my ey ez ltac:(unfold ez; lia)) as Hy.
  set (A := fst (shl_align mx ex ez)) in *.
  set (B := fst (shl_align my ey ez)) in *.
  change (Zpos A + Zpos B)%Z with (Zpos (A + B)). cbn [binary_normalize].
  assert (Hz : z = IZR (Zpos (A + B)) * pow2 ez).
  { unfold z. rewrite Pos2Z.inj_add, plus_IZR, Rmult_plus_distr_r. lra. }
  rewrite Hz in *. now apply binary_round_normal.
Qed.

(** *** Square root *)

Lemma sqrt_pow2 k : sqrt (pow2 (2 * k)) = pow2 k.
Proof.
  replace (2 * k)%Z with (k + k)%Z by lia. rewrite pow2_add.
  apply sqrt_square. apply Rlt_le, pow2_pos.
Qed.

Lemma square_lt a b : 0 <= a -> 0 <= b -> a * a < b * b -> a < b.
Proof. intros. nra. Qed.

Lemma sqrtrem_ok m' q r :
  (0 < m')%Z -> Z.sqrtrem m' = (q, r) ->
  loc_ok (sqrt (IZR m')) q
    (if (r =? 0)%Z then loc_Exact
     else loc_Inexact (if (r <=? q)%Z then Lt else Gt))
  /\ (0 <= q)%Z /\ (m' < (q + 1) * (q + 1))%Z.
Proof.
  intros Hm Hs. pose proof (Z.sqrtrem_spec m' (Z.lt_le_incl _ _ Hm)) as Hspec.
  rewrite Hs in Hspec. destruct Hspec as [Heq [Hr0 Hr2]].
  assert (Hq : (0 <= q)%Z) by lia.
  split; [|split; [exact Hq|nia]].
  set (u := sqrt (IZR m')).
  assert (Hu0 : 0 <= u) by apply sqrt_pos.
  assert (Hm' : 0 <= IZR m') by (apply IZR_le; lia).
  assert (Huu : u * u = IZR q * IZR q + IZR r).
  { unfold u. rewrite sqrt_sqrt by exact Hm'.
    rewrite Heq, plus_IZR, mult_IZR. reflexivity. }
  assert (HQ : 0 <= IZR q) by (apply IZR_le; lia).
  destruct (Z.eqb_spec r 0) as [->|Hr].
  - cbn [loc_ok]. nra.
  - assert (HR1 : 1 <= IZR r) by (apply IZR_le; lia).
    destruct (Z.leb_spec r q) as [Hle|Hgt]; cbn [loc_ok].
    + apply IZR_le in Hle. split.
      * apply square_lt; [lra|lra|nra].
      * apply square_lt; [lra|lra|nra].
    + assert (HR2 : IZR q + 1 <= IZR r)
        by (rewrite <- plus_IZR; apply IZR_le; lia).
      assert (HR3 : IZR r <= 2 * IZR q)
        by (rewrite <- mult_IZR; apply IZR_le; lia).
      split.
      * apply square_lt; [lra|lra|nra].
      * apply square_lt; [lra|lra|nra].
Qed.

Lemma sqrt_normal mx ex :
  let x := IZR (Zpos mx) * pow2 ex in
  pow2 (-1022) <= x -> x < pow2 1023 ->
  exists m e,
    float64.sqrt (S754_finite false mx ex) = S754_finite false m e
    /\ Rabs (IZR (Zpos m) * pow2 e - sqrt x) <= pow2 (-53) * sqrt x.
Proof.
  intros x Hlo Hhi.
  unfold float64.sqrt, float64.prec, float64.emax. cbn [SFsqrt].
  unfold SFsqrt_core_binary.
  cbn [Zdigits2]. set (d := Zpos (digits2_pos mx)).
  destruct (digits2_pos_bounds mx) as [Hdlo Hdhi]. fold d in Hdlo, Hdhi.
  pose proof (pow2_pos ex) as Hpe.
  assert (Hxhi : x < pow2 (d + ex)).
  { unfold x. rewrite pow2_add. apply Rmult_lt_compat_r; [lra|].
    rewrite <- IZR_pow2 by lia. now apply IZR_lt. }
  assert (He1 : (-1022 < d + ex)%Z) by (apply pow2_lt_inv; lra).
  rewrite !Z.div2_div.
  assert (Hh1 : (-511 <= (d + ex + 1) / 2)%Z)
    by (apply Z.div_le_lower_bound; lia).
  rewrite (fexp_normal ((d + ex + 1) / 2)) by lia.
  set (e' := Z.min ((d + ex + 1) / 2 - 53) (ex / 2)).
  assert (He'1 : (2 * e' <= ex)%Z).
  { pose proof (Z.mul_div_le ex 2 ltac:(lia)). unfold e'. lia. }
  assert (He'2 : (2 * e' <= d + ex - 105)%Z).
  { pose proof (Z.mul_div_le (d + ex + 1) 2 ltac:(lia)). unfold e'. lia. }
  set (sh := (ex - 2 * e')%Z).
  set (m' := match sh with
             | 0%Z => Zpos mx
             | Zpos _ => Z.shiftl (Zpos mx) sh
             | Zneg _ => 0%Z
             end).
  assert (Hm' : m' = (Zpos mx * 2 ^ sh)%Z).
  { unfold m'. destruct sh as [|p|p] eqn:Hsh; try lia.
    apply Z.shiftl_mul_pow2. lia. }
  assert (Hsh0 : (0 <= sh)%Z) by (unfold sh; lia).
  assert (Hpow : (0 < 2 ^ sh)%Z) by (apply Z.pow_pos_nonneg; lia).
  assert (Hm'pos : (0 < m')%Z) by (rewrite Hm'; lia).
  assert (Hm'big : (2 ^ 104 <= m')%Z).
  { rewrite Hm'.
    assert (Hd1 : (0 < d)%Z) by (unfold d; lia).
    assert (H1 : (2 ^ 104 <= 2 ^ (d - 1 + sh))%Z)
      by (apply Z.pow_le_mono_r; unfold sh; lia).
    rewrite Z.pow_add_r in H1 by lia.
    assert (H2 : (2 ^ (d - 1) * 2 ^ sh <= Zpos mx * 2 ^ sh)%Z)
      by (apply Z.mul_le_mono_nonneg_r; lia).
    lia. }
  destruct (Z.sqrtrem m') as [q r] eqn:Hs.
  destruct (sqrtrem_ok m' q r Hm'pos Hs) as [Hloc [Hq Hq1]].
  assert (Hx : x = IZR m' * pow2 (2 * e')).
  { unfold x. rewrite Hm', mult_IZR, IZR_pow2 by lia.
    rewrite Rmult_assoc, <- pow2_add. do 2 f_equal. unfold sh. lia. }
  assert (Hsx : sqrt x = sqrt (IZR m') * pow2 e').
  { rewrite Hx, sqrt_mult, sqrt_pow2; [reflexivity| |apply Rlt_le, pow2_pos].
    apply IZR_le. lia. }
  assert (Hq52 : (2 ^ 52 <= q)%Z).
  { destruct (Z_lt_le_dec q (2 ^ 52)) as [Hlt|Hle]; [|exact Hle].
    assert ((q + 1) * (q + 1) <= 2 ^ 52 * 2 ^ 52)%Z
      by (apply Z.mul_le_mono_nonneg; lia).
    change (2 ^ 52 * 2 ^ 52)%Z with (2 ^ 104)%Z in H. lia. }
  apply round_aux_normal.
  - rewrite Hsx. replace (sqrt (IZR m') * pow2 e' / pow2 e') with (sqrt (IZR m'));
      [exact Hloc|]. pose proof (pow2_pos e'). field. lra.
  - apply Rle_trans with (pow2 (-511)); [apply pow2_le; lia|].
    rewrite <- (sqrt_pow2 (-511)). apply sqrt_le_1_alt. exact Hlo.
  - apply Rlt_le_trans with (pow2 512); [|apply pow2_le; lia].
    rewrite <- (sqrt_pow2 512). apply sqrt_lt_1_alt. split.
    + apply Rle_trans with (pow2 (-1022)); [apply Rlt_le, pow2_pos|exact Hlo].
    + apply Rlt_trans with (pow2 1023); [exact Hhi|apply pow2_lt; lia].
  - now apply Zdigits2_ge_53.
Qed.

(** *** Division *)

Lemma new_location_ok nb k q :
  (0 < nb)%Z -> (0 <= k < nb)%Z ->
  loc_ok (IZR q + IZR k / IZR nb) q (new_location nb k).
Proof.
  intros Hnb [Hk0 Hk1].
  assert (HN : 0 < IZR nb) by (apply IZR_lt; lia).
  set (v := IZR k / IZR nb).
  assert (Hv : IZR k = v * IZR nb) by (unfold v; field; lra).
  assert (Hcmp : forall a b : Z, (a < b)%Z -> IZR a < IZR b)
    by (intros; now apply IZR_lt).
  unfold new_location, new_location_even, new_location_odd.
  destruct (Z.even nb) eqn:Heven.
  - destruct (Z.eqb_spec k 0) as [->|Hk].
    + cbn [loc_ok]. unfold v. rewrite Rdiv_0_l. lra.
    + assert (0 < IZR k) by (apply IZR_lt; lia).
      destruct (Z.compare_spec (2 * k) nb) as [Heq|Hlt|Hgt]; cbn [loc_ok].
      * apply (f_equal IZR) in Heq. rewrite mult_IZR in Heq. nra.
      * apply Hcmp in Hlt. rewrite mult_IZR in Hlt. split; nra.
      * apply Hcmp in Hgt. rewrite mult_IZR in Hgt.
        apply Hcmp in Hk1. split; nra.
  - destruct (Z.eqb_spec k 0) as [->|Hk].
    + cbn [loc_ok]. unfold v. rewrite Rdiv_0_l. lra.
    + assert (0 < IZR k) by (apply IZR_lt; lia).
      assert (Hodd : (2 * k <> nb)%Z).
      { intros <-. rewrite Z.even_mul in Heven. discriminate. }
      destruct (Z.compare_spec (2 * k + 1) nb) as [Heq|Hlt|Hgt]; cbn [loc_ok].
      * assert (Hlt : (2 * k < nb)%Z) by lia.
        apply Hcmp in Hlt. rewrite mult_IZR in Hlt. split; nra.
      * assert (Hlt' : (2 * k < nb)%Z) by lia.
        apply Hcmp in Hlt'. rewrite mult_IZR in Hlt'. split; nra.
      * assert (Hgt' : (nb < 2 * k)%Z) by lia.
        apply Hcmp in Hgt'. rewrite mult_IZR in Hgt'.
        apply Hcmp in Hk1. split; nra.
Qed.

Lemma div_normal sx mx ex sy my ey :
  let z := (IZR (Zpos mx) * pow2 ex) / (IZR (Zpos my) * pow2 ey) in
  pow2 (-1022) <= z -> z < pow2 1023 ->
  exists m e,
    float64.div (S754_finite sx mx ex) (S754_finite sy my ey)
    = S754_finite (xorb sx sy) m e
    /\ Rabs (IZR (Zpos m) * pow2 e - z) <= pow2 (-53) * z.
Proof.
  intros z Hlo Hhi.
  unfold float64.div, float64.prec, float64.emax. cbn [SFdiv].
  unfold SFdiv_core_binary.
  cbn [Zdigits2]. set (d1 := Zpos (digits2_pos mx)).
  set (d2 := Zpos (digits2_pos my)).
  destruct (digits2_pos_bounds mx) as [Hd1lo Hd1hi]. fold d1 in Hd1lo, Hd1hi.
  destruct (digits2_pos_bounds my) as [Hd2lo Hd2hi]. fold d2 in Hd2lo, Hd2hi.
  pose proof (pow2_pos ex) as Hpex. pose proof (pow2_pos ey) as Hpey.
  assert (HX : 0 < IZR (Zpos mx)) by (apply IZR_lt; lia).
  assert (HY : 0 < IZR (Zpos my)) by (apply IZR_lt; lia).
  set (est := (d1 + ex - (d2 + ey))%Z).
  set (e' := Z.min (fexp 53 1024 est) (ex - ey)).
  set (sh := (ex - ey - e')%Z).
  assert (Hsh0 : (0 <= sh)%Z) by (unfold sh, e'; lia).
  set (m' := match sh with
             | 0%Z => Zpos mx
             | Zpos _ => Z.shiftl (Zpos mx) sh
             | Zneg _ => 0%Z
             end).
  assert (Hm' : m' = (Zpos mx * 2 ^ sh)%Z).
  { unfold m'. destruct sh as [|p|p] eqn:Hsh; try lia.
    apply Z.shiftl_mul_pow2. lia. }
  assert (Hpow : (0 < 2 ^ sh)%Z) by (apply Z.pow_pos_nonneg; lia).
  pose proof (Z_div_mod m' (Zpos my) ltac:(lia)) as Hdm.
  destruct (Z.div_eucl m' (Zpos my)) as [q r] eqn:Hqr.
  destruct Hdm as [Heq Hr].
  pose proof (pow2_pos e') as Hpe'.
  (* the quotient, in units of 2^e' *)
  assert (Hu : z / pow2 e' = IZR q + IZR r / IZR (Zpos my)).
  { assert (Hm'R : IZR m' = IZR (Zpos my) * IZR q + IZR r)
      by (rewrite Heq, plus_IZR, mult_IZR; reflexivity).
    assert (Hm'X : IZR m' = IZR (Zpos mx) * pow2 sh)
      by (rewrite Hm', mult_IZR, IZR_pow2 by lia; reflexivity).
    assert (Hsplit : pow2 ex = pow2 sh * pow2 ey * pow2 e').
    { rewrite <- !pow2_add. f_equal. unfold sh. lia. }
    unfold z. rewrite Hsplit.
    replace (IZR (Zpos mx) * (pow2 sh * pow2 ey * pow2 e')
             / (IZR (Zpos my) * pow2 ey) / pow2 e')
      with (IZR (Zpos mx) * pow2 sh / IZR (Zpos my)) by (field; lra).
    rewrite <- Hm'X, Hm'R. field. lra. }
  pose proof (new_location_ok (Zpos my) r q ltac:(lia) Hr) as Hloc.
  rewrite <- Hu in Hloc.
  (* it has 53 digits or more *)
  assert (Hu52 : pow2 52 <= z / pow2 e').
  { assert (Hzest : pow2 (est - 1) <= z).
    { unfold z, est.
      replace (d1 + ex - (d2 + ey) - 1)%Z
        with ((d1 - 1) + ex + (- d2) + (- ey))%Z by lia.
      rewrite !pow2_add, !pow2_opp.
      assert (H1 : pow2 (d1 - 1) <= IZR (Zpos mx))
        by (rewrite <- IZR_pow2 by lia; now apply IZR_le).
      assert (H2 : IZR (Zpos my) <= pow2 d2)
        by (rewrite <- IZR_pow2 by lia; apply IZR_le; lia).
      pose proof (pow2_pos (d1 - 1)). pose proof (pow2_pos d2).
      unfold Rdiv. rewrite Rinv_mult.
      replace (pow2 (d1 - 1) * pow2 ex * / pow2 d2 * / pow2 ey)
        with ((pow2 (d1 - 1) * pow2 ex * / pow2 ey) * / pow2 d2) by ring.
      replace (IZR (Zpos mx) * pow2 ex * (/ IZR (Zpos my) * / pow2 ey))
        with ((IZR (Zpos mx) * pow2 ex * / pow2 ey) * / IZR (Zpos my)) by ring.
      assert (0 < / pow2 ey) by now apply Rinv_0_lt_compat.
      assert (0 < pow2 ex * / pow2 ey) by now apply Rmult_lt_0_compat.
      apply Rmult_le_compat.
      - apply Rlt_le. apply Rmult_lt_0_compat; [|assumption].
        now apply Rmult_lt_0_compat.
      - apply Rlt_le. now apply Rinv_0_lt_compat.
      - rewrite !Rmult_assoc. apply Rmult_le_compat_r; lra.
      - apply Rinv_le_contravar; lra. }
    assert (Hcase : (e' <= est - 53 \/ e' <= -1074)%Z).
    { unfold e', fexp, emin. lia. }
    apply (Rmult_le_reg_r (pow2 e')); [exact Hpe'|].
    replace (z / pow2 e' * pow2 e') with z by (field; lra).
    rewrite <- pow2_add. destruct Hcase as [Hc|Hc].
    - apply Rle_trans with (pow2 (est - 1)); [apply pow2_le; lia|exact Hzest].
    - apply Rle_trans with (pow2 (-1022)); [apply pow2_le; lia|exact Hlo]. }
  pose proof (loc_ok_bounds _ _ _ Hloc) as [Hqlo Hqhi].
  assert (Hq52 : (2 ^ 52 <= q)%Z).
  { assert (IZR (2 ^ 52 - 1) < IZR q).
    { rewrite minus_IZR, IZR_pow2 by lia. lra. }
    apply lt_IZR in H. lia. }
  apply round_aux_normal; try assumption.
  now apply Zdigits2_ge_53.
Qed.

(** ** Real numbers: from the errors of the operations to the error of
    the result *)

Lemma sqrt_between (t a b : R) :
  0 <= a -> 0 <= b -> a * a <= t -> t <= b * b -> a <= sqrt t <= b.
Proof.
  intros Ha Hb Hat Htb.
  assert (Ht : 0 <= t) by nra.
  split.
  - rewrite <- (sqrt_square a Ha). now apply sqrt_le_1_alt.
  - rewrite <- (sqrt_square b Hb). now apply sqrt_le_1_alt.
Qed.

(** The computed norm of a row of three, against its Euclidean norm. *)
Lemma norm_chain (u x0 x1 x2 s0 s1 s2 t1 t n : R) :
  0 <= u <= / 1024 ->
  (1 - u) * (x0 * x0) <= s0 <= (1 + u) * (x0 * x0) ->
  (1 - u) * (x1 * x1) <= s1 <= (1 + u) * (x1 * x1) ->
  (1 - u) * (x2 * x2) <= s2 <= (1 + u) * (x2 * x2) ->
  (1 - u) * (s0 + s1) <= t1 <= (1 + u) * (s0 + s1) ->
  (1 - u) * (t1 + s2) <= t <= (1 + u) * (t1 + s2) ->
  (1 - u) * sqrt t <= n <= (1 + u) * sqrt t ->
  let E := sqrt (x0 * x0 + (x1 * x1 + (x2 * x2 + 0))) in
  (1 - 3 * u) * E <= n <= (1 + 4 * u) * E.
Proof.
  intros Hu H0 H1 H2 Ht1 Ht Hn E.
  set (S := x0 * x0 + (x1 * x1 + (x2 * x2 + 0))) in *.
  assert (HS : 0 <= S) by (unfold S; nra).
  assert (HE : 0 <= E) by apply sqrt_pos.
  assert (HEE : E * E = S) by (apply sqrt_sqrt; exact HS).
  assert (Hq0 : 0 <= x0 * x0) by nra.
  assert (Hq1 : 0 <= x1 * x1) by nra.
  assert (Hq2 : 0 <= x2 * x2) by nra.
  assert (Hs0 : 0 <= s0) by nra.
  assert (Hs1 : 0 <= s1) by nra.
  assert (Hs2 : 0 <= s2) by nra.
  assert (Ht1' : 0 <= t1) by nra.
  assert (Hup1 : t1 <= (1 + u) * (1 + u) * (x0 * x0 + x1 * x1)) by nra.
  assert (Hlo1 : (1 - u) * (1 - u) * (x0 * x0 + x1 * x1) <= t1) by nra.
  assert (Hup : t <= (1 + u) * (1 + u) * (1 + u) * S).
  { unfold S. apply Rle_trans with ((1 + u) * (t1 + s2)); [lra|].
    assert (t1 + s2 <= (1 + u) * (1 + u) * (x0 * x0 + (x1 * x1 + (x2 * x2 + 0)))) by nra.
    nra. }
  assert (Hlo : (1 - u) * (1 - u) * (1 - u) * S <= t).
  { unfold S. apply Rle_trans with ((1 - u) * (t1 + s2)); [|lra].
    assert ((1 - u) * (1 - u) * (x0 * x0 + (x1 * x1 + (x2 * x2 + 0))) <= t1 + s2) by nra.
    nra. }
  assert (Hsq : (1 - 2 * u) * E <= sqrt t <= (1 + 2 * u) * E).
  { apply sqrt_between.
    - nra.
    - nra.
    - apply Rle_trans with ((1 - u) * (1 - u) * (1 - u) * S); [|exact Hlo].
      replace ((1 - 2 * u) * E * ((1 - 2 * u) * E))
        with ((1 - 2 * u) * (1 - 2 * u) * S) by (rewrite <- HEE; ring).
      apply Rmult_le_compat_r; [exact HS|]. nra.
    - apply Rle_trans with ((1 + u) * (1 + u) * (1 + u) * S); [exact Hup|].
      replace ((1 + 2 * u) * E * ((1 + 2 * u) * E))
        with ((1 + 2 * u) * (1 + 2 * u) * S) by (rewrite <- HEE; ring).
      apply Rmult_le_compat_r; [exact HS|]. nra. }
  assert (Hst : 0 <= sqrt t) by apply sqrt_pos.
  split; nra.
Qed.

(** A component divided by the computed norm, against the component
    divided by the Euclidean norm. *)
Lemma component_chain (u a n E y : R) :
  0 <= u <= / 1024 -> 0 < E ->
  (1 - 3 * u) * E <= n <= (1 + 4 * u) * E ->
  Rabs (y - a / n) <= u * Rabs (a / n) ->
  Rabs (y - a / E) <= 8 * u * Rabs (a / E).
Proof.
  intros Hu HE Hn Hy.
  assert (Hn0 : 0 < n) by nra.
  set (c := a / E). set (k := E / n).
  assert (Hk : a / n = c * k) by (unfold c, k; field; lra).
  assert (Hk1 : 1 - 4 * u <= k <= 1 + 4 * u).
  { unfold k. split.
    - apply (Rmult_le_reg_r n); [exact Hn0|].
      replace (E / n * n) with E by (field; lra). nra.
    - apply (Rmult_le_reg_r n); [exact Hn0|].
      replace (E / n * n) with E by (field; lra). nra. }
  rewrite Hk in Hy. fold c.
  assert (Hk0 : 0 <= k) by lra.
  rewrite Rabs_mult, (Rabs_pos_eq k Hk0) in Hy.
  replace (y - c) with ((y - c * k) + c * (k - 1)) by ring.
  eapply Rle_trans; [apply Rabs_triang|].
  rewrite Rabs_mult.
  assert (Hc : 0 <= Rabs c) by apply Rabs_pos.
  assert (Hk2 : Rabs (k - 1) <= 4 * u) by (apply Rabs_le; lra).
  assert (Hd : 0 <= Rabs (k - 1)) by apply Rabs_pos.
  revert Hy Hc Hk2 Hd.
  generalize (Rabs (y - c * k)) (Rabs c) (Rabs (k - 1)).
  clear - Hu Hk1. clearbody k. intros A B D Hy Hc Hk2 Hd.
  assert (HuB : 0 <= u * B) by (apply Rmult_le_pos; lra).
  assert (H1 : u * B * k <= u * B * (1 + 4 * u))
    by (apply Rmult_le_compat_l; lra).
  assert (H2 : B * D <= B * (4 * u)) by (apply Rmult_le_compat_l; lra).
  assert (H3 : u * B * (4 * u) <= u * B * 1)
    by (apply Rmult_le_compat_l; lra).
  lra.
Qed.

(** A row whose components are within [eps] of a unit vector has a norm
    within [eps] of 1. *)
Lemma unit_chain (eps c0 c1 c2 y0 y1 y2 : R) :
  0 <= eps <= / 2 ->
  c0 * c0 + (c1 * c1 + (c2 * c2 + 0)) = 1 ->
  Rabs (y0 - c0) <= eps * Rabs c0 ->
  Rabs (y1 - c1) <= eps * Rabs c1 ->
  Rabs (y2 - c2) <= eps * Rabs c2 ->
  Rabs (sqrt (y0 * y0 + (y1 * y1 + (y2 * y2 + 0))) - 1) <= eps.
Proof.
  intros He Hc H0 H1 H2.
  assert (Hsq : forall y c, Rabs (y - c) <= eps * Rabs c ->
            (1 - eps) * (1 - eps) * (c * c) <= y * y
            <= (1 + eps) * (1 + eps) * (c * c)).
  { intros y c H. assert (Ha : 0 <= Rabs c) by apply Rabs_pos.
    assert (Hcc : c * c = Rabs c * Rabs c).
    { unfold Rabs. destruct (Rcase_abs c); ring. }
    assert (Hyy : y * y = Rabs y * Rabs y).
    { unfold Rabs. destruct (Rcase_abs y); ring. }
    assert (Hy1 : Rabs y <= (1 + eps) * Rabs c).
    { replace y with ((y - c) + c) by ring.
      eapply Rle_trans; [apply Rabs_triang|]. lra. }
    assert (Hy2 : (1 - eps) * Rabs c <= Rabs y).
    { assert (Htri : Rabs c <= Rabs y + Rabs (y - c)).
      { replace c with (y + - (y - c)) at 1 by ring.
        eapply Rle_trans; [apply Rabs_triang|]. rewrite Rabs_Ropp. lra. }
      lra. }
    assert (Hy0 : 0 <= Rabs y) by apply Rabs_pos.
    rewrite Hcc, Hyy. clear Hcc Hyy H.
    revert Ha Hy1 Hy2 Hy0. generalize (Rabs y) (Rabs c). intros Y C Ha Hy1 Hy2 Hy0.
    assert (Hlo : 0 <= (1 - eps) * C) by (apply Rmult_le_pos; lra).
    pose proof (Rmult_le_compat _ _ _ _ Hlo Hlo Hy2 Hy2) as Hl.
    pose proof (Rmult_le_compat _ _ _ _ Hy0 Hy0 Hy1 Hy1) as Hu.
    split; [eapply Rle_trans; [|exact Hl] | eapply Rle_trans; [exact Hu|]];
      apply Req_le; ring. }
  destruct (Hsq _ _ H0) as [L0 U0]. destruct (Hsq _ _ H1) as [L1 U1].
  destruct (Hsq _ _ H2) as [L2 U2].
  assert (Hb : 1 - eps <= sqrt (y0 * y0 + (y1 * y1 + (y2 * y2 + 0)))
               <= 1 + eps).
  { apply sqrt_between; try lra; nra. }
  apply Rabs_le. lra.
Qed.

(** ** The steps of normalize_vectors on numbers of moderate size *)

Lemma pow2_m53_small : 0 <= pow2 (-53) <= / 1024.
Proof.
  split; [apply Rlt_le, pow2_pos|].
  apply Rle_trans with (pow2 (-10)); [apply pow2_le; lia|].
  unfold pow2. simpl. lra.
Qed.

Lemma Rabs_close u v r : 0 <= v -> Rabs (r - v) <= u * v -> close u v r.
Proof.
  intros Hv H. unfold close. revert H. unfold Rabs.
  destruct (Rcase_abs (r - v)); intros H; lra.
Qed.

Lemma F2R_finite_pos m e : 0 < F2R (S754_finite false m e).
Proof.
  cbn [F2R]. rewrite Rmult_1_l. apply Rmult_lt_0_compat; [|apply pow2_pos].
  apply IZR_lt. lia.
Qed.

Lemma is_nonneg_cases r :
  is_nonneg r = true ->
  r = S754_zero false \/ exists m e, r = S754_finite false m e.
Proof.
  destruct r as [[]|[]| |[] m e]; try discriminate; intros _;
    [now left | right; eauto].
Qed.

Lemma is_nonneg_F2R r : is_nonneg r = true -> 0 <= F2R r.
Proof.
  intros H. destruct (is_nonneg_cases r H) as [->|[m [e ->]]].
  - cbn. lra.
  - apply Rlt_le, F2R_finite_pos.
Qed.

Lemma is_nonneg_finite r :
  is_nonneg r = true -> 0 < F2R r -> exists m e, r = S754_finite false m e.
Proof.
  intros H Hpos. destruct (is_nonneg_cases r H) as [->|Hf]; [|exact Hf].
  cbn in Hpos. lra.
Qed.

(** A number of moderate size has a mantissa of 53 digits. *)
Lemma moderate_finite s m e :
  moderate (S754_finite s m e) ->
  (2 ^ 52 <= Zpos m)%Z
  /\ pow2 (-500) <= IZR (Zpos m) * pow2 e <= pow2 500.
Proof.
  intros [Hvalid [Hz|[s' [m' [e' [[= <- <- <-] Hrange]]]]]]; [discriminate Hz|].
  split; [|exact Hrange].
  cbn [valid_binary] in Hvalid. unfold bounded, canonical_mantissa in Hvalid.
  apply andb_prop in Hvalid. destruct Hvalid as [Hc _].
  apply Z.eqb_eq in Hc.
  destruct (digits2_pos_bounds m) as [Hdlo Hdhi].
  set (d := Zpos (digits2_pos m)) in *.
  assert (Hlt : pow2 (-500) < pow2 (d + e)).
  { apply Rle_lt_trans with (IZR (Zpos m) * pow2 e); [apply Hrange|].
    rewrite pow2_add. apply Rmult_lt_compat_r; [apply pow2_pos|].
    rewrite <- IZR_pow2 by (unfold d; lia). now apply IZR_lt. }
  apply pow2_lt_inv in Hlt.
  unfold fexp, emin, float64.prec, float64.emax in Hc.
  assert (d = 53%Z) by lia.
  replace 52%Z with (d - 1)%Z by lia. exact Hdlo.
Qed.

(** The square. *)
Lemma square_moderate a :
  moderate a ->
  is_nonneg (float64.mul a a) = true
  /\ close (pow2 (-53)) (F2R a * F2R a) (F2R (float64.mul a a))
  /\ (is_zero a = true -> float64.mul a a = S754_zero false)
  /\ (is_zero a = false ->
      pow2 (-1000) <= F2R a * F2R a <= pow2 1000).
Proof.
  intros Ha. pose proof pow2_m53_small as Hu.
  destruct a as [s|s'| |s m e]; try (destruct Ha as [_ [Hz|[? [? [? [[=] _]]]]]];
                                    discriminate Hz).
  - split; [now destruct s|]. split; [|split; [|discriminate]].
    + destruct s; cbn; unfold close; lra.
    + intros _. now destruct s.
  - destruct (moderate_finite s m e Ha) as [Hm [Hlo Hhi]].
    set (X := IZR (Zpos m) * pow2 e) in *.
    assert (HX : 0 < X).
    { apply Rlt_le_trans with (pow2 (-500)); [apply pow2_pos|exact Hlo]. }
    assert (Hsq : F2R (S754_finite s m e) * F2R (S754_finite s m e) = X * X).
    { cbn [F2R]. fold X. destruct s; ring. }
    assert (Hrange : pow2 (-1000) <= X * X <= pow2 1000).
    { change (-1000)%Z with (-500 + -500)%Z. change 1000%Z with (500 + 500)%Z.
      rewrite !pow2_add. pose proof (pow2_pos (-500)). split.
      - apply Rmult_le_compat; lra.
      - apply Rmult_le_compat; lra. }
    destruct (mul_normal s m e s m e Hm Hm) as [m' [e' [Hmul Herr]]].
    + fold X. apply Rle_trans with (pow2 (-1000)); [apply pow2_le; lia|lra].
    + fold X. apply Rle_lt_trans with (pow2 1000); [lra|apply pow2_lt; lia].
    + fold X in Herr. rewrite Hmul, Bool.xorb_nilpotent, Hsq.
      split; [reflexivity|]. split; [|split; [discriminate|intros _; exact Hrange]].
      cbn [F2R]. rewrite Rmult_1_l. apply Rabs_close; [nra|exact Herr].
Qed.

(** The sum of two numbers that are zero or positive. *)
Lemma add_nonneg r1 r2 :
  is_nonneg r1 = true -> is_nonneg r2 = true ->
  (F2R r1 = 0 \/ pow2 (-1010) <= F2R r1 <= pow2 1010) ->
  (F2R r2 = 0 \/ pow2 (-1010) <= F2R r2 <= pow2 1010) ->
  is_nonneg (float64.add r1 r2) = true
  /\ close (pow2 (-53)) (F2R r1 + F2R r2) (F2R (float64.add r1 r2)).
Proof.
  intros H1 H2 Hr1 Hr2. pose proof pow2_m53_small as Hu.
  destruct (is_nonneg_cases r1 H1) as [->|[m1 [e1 ->]]];
    destruct (is_nonneg_cases r2 H2) as [->|[m2 [e2 ->]]].
  - split; [reflexivity|]. cbn. unfold close. lra.
  - split; [reflexivity|]. change (float64.add (S754_zero false)
                                     (S754_finite false m2 e2))
      with (S754_finite false m2 e2).
    pose proof (F2R_finite_pos m2 e2). cbn [F2R] in *. unfold close. nra.
  - split; [reflexivity|]. change (float64.add (S754_finite false m1 e1)
                                     (S754_zero false))
      with (S754_finite false m1 e1).
    pose proof (F2R_finite_pos m1 e1). cbn [F2R] in *. unfold close. nra.
  - pose proof (F2R_finite_pos m1 e1) as P1.
    pose proof (F2R_finite_pos m2 e2) as P2.
    destruct Hr1 as [Hr1|Hr1]; [lra|]. destruct Hr2 as [Hr2|Hr2]; [lra|].
    cbn [F2R] in *. rewrite !Rmult_1_l in *.
    destruct (add_normal m1 e1 m2 e2) as [m [e [Hadd Herr]]].
    + apply Rle_trans with (pow2 (-1010)); [apply pow2_le; lia|lra].
    + apply Rle_lt_trans with (pow2 1010 + pow2 1010); [lra|].
      replace (pow2 1010 + pow2 1010) with (pow2 (1010 + 1))
        by (rewrite pow2_succ; ring).
      apply pow2_lt. lia.
    + rewrite Hadd. split; [reflexivity|]. cbn [F2R]. rewrite Rmult_1_l.
      apply Rabs_close; [lra|exact Herr].
Qed.

(** The square root of a positive number. *)
Lemma sqrt_positive m e :
  pow2 (-1010) <= F2R (S754_finite false m e) <= pow2 1010 ->
  exists m' e',
    float64.sqrt (S754_finite false m e) = S754_finite false m' e'
    /\ close (pow2 (-53)) (sqrt (F2R (S754_finite false m e)))
             (F2R (S754_finite false m' e')).
Proof.
  cbn [F2R]. rewrite !Rmult_1_l. intros [Hlo Hhi].
  destruct (sqrt_normal m e) as [m' [e' [Hs Herr]]].
  - apply Rle_trans with (pow2 (-1010)); [apply pow2_le; lia|exact Hlo].
  - apply Rle_lt_trans with (pow2 1010); [exact Hhi|apply pow2_lt; lia].
  - exists m', e'. split; [exact Hs|]. rewrite Rmult_1_l.
    apply Rabs_close; [apply sqrt_pos|exact Herr].
Qed.

(** A number of moderate size divided by a positive number of moderate
    size. *)
Lemma div_moderate a mn en :
  moderate a ->
  pow2 (-502) <= F2R (S754_finite false mn en) <= pow2 502 ->
  is_finite (float64.div a (S754_finite false mn en)) = true
  /\ Rabs (F2R (float64.div a (S754_finite false mn en))
           - F2R a / F2R (S754_finite false mn en))
     <= pow2 (-53) * Rabs (F2R a / F2R (S754_finite false mn en)).
Proof.
  intros Ha. cbn [F2R]. rewrite !Rmult_1_l. intros [Hlo Hhi].
  set (Nn := IZR (Zpos mn) * pow2 en) in *.
  assert (HN : 0 < Nn).
  { apply Rlt_le_trans with (pow2 (-502)); [apply pow2_pos|exact Hlo]. }
  pose proof pow2_m53_small as Hu.
  destruct a as [s|s'| |s m e]; try (destruct Ha as [_ [Hz|[? [? [? [[=] _]]]]]];
                                    discriminate Hz).
  - split; [reflexivity|]. cbn.
    unfold Rdiv. rewrite Rmult_0_l, Rminus_0_r, Rabs_R0. lra.
  - destruct (moderate_finite s m e Ha) as [_ [Hxlo Hxhi]].
    set (X := IZR (Zpos m) * pow2 e) in *.
    assert (HX : 0 < X).
    { apply Rlt_le_trans with (pow2 (-500)); [apply pow2_pos|exact Hxlo]. }
    assert (Hzlo : pow2 (-1002) <= X / Nn).
    { apply (Rmult_le_reg_r Nn); [exact HN|].
      replace (X / Nn * Nn) with X by (field; lra).
      apply Rle_trans with (pow2 (-1002) * pow2 502).
      - apply Rmult_le_compat_l; [apply Rlt_le, pow2_pos|exact Hhi].
      - rewrite <- pow2_add. exact Hxlo. }
    assert (Hzhi : X / Nn <= pow2 1002).
    { apply (Rmult_le_reg_r Nn); [exact HN|].
      replace (X / Nn * Nn) with X by (field; lra).
      apply Rle_trans with (pow2 1002 * pow2 (-502)).
      - rewrite <- pow2_add. exact Hxhi.
      - apply Rmult_le_compat_l; [apply Rlt_le, pow2_pos|exact Hlo]. }
    destruct (div_normal s m e false mn en) as [m' [e' [Hd Herr]]].
    + fold X Nn. apply Rle_trans with (pow2 (-1002)); [apply pow2_le; lia|lra].
    + fold X Nn. apply Rle_lt_trans with (pow2 1002); [lra|apply pow2_lt; lia].
    + fold X Nn in Herr. rewrite Hd. split; [reflexivity|].
      rewrite Bool.xorb_false_r. cbn [F2R]. fold X.
      assert (Hq : 0 < X / Nn) by (apply Rdiv_lt_0_compat; lra).
      destruct s.
      * replace (-1 * (IZR (Zpos m') * pow2 e') - -1 * X / Nn)
          with (- (IZR (Zpos m') * pow2 e' - X / Nn)) by (field; lra).
        replace (-1 * X / Nn) with (- (X / Nn)) by (field; lra).
        rewrite !Rabs_Ropp, (Rabs_pos_eq (X / Nn)) by lra. exact Herr.
      * rewrite !Rmult_1_l, (Rabs_pos_eq (X / Nn)) by lra. exact Herr.
Qed.

End float_facts.

Module float_row.
Import utilities utilities_notions float_facts.
Local Open Scope R_scope.

Lemma close_range u v r lo hi :
  0 <= u <= / 1024 -> close u v r ->
  (v = 0 \/ pow2 lo <= v <= pow2 hi) ->
  r = 0 \/ pow2 (lo - 1) <= r <= pow2 (hi + 1).
Proof.
  intros Hu [H1 H2] [->|[Hlo Hhi]]; [left; lra|right].
  rewrite pow2_succ.
  assert (Hl : pow2 lo = 2 * pow2 (lo - 1)).
  { rewrite <- pow2_succ. f_equal. lia. }
  pose proof (pow2_pos (lo - 1)). pose proof (pow2_pos hi). split; nra.
Qed.

Lemma close_half u v r :
  0 <= u <= / 1024 -> 0 <= v -> close u v r -> v / 2 <= r.
Proof. intros Hu Hv [H _]. nra. Qed.

Lemma sum_range v1 v2 lo hi :
  (v1 = 0 \/ pow2 lo <= v1 <= pow2 hi) ->
  (v2 = 0 \/ pow2 lo <= v2 <= pow2 hi) ->
  v1 + v2 = 0 \/ pow2 lo <= v1 + v2 <= pow2 (hi + 1).
Proof.
  rewrite pow2_succ. pose proof (pow2_pos lo). pose proof (pow2_pos hi).
  intros [->|[L1 U1]] [->|[L2 U2]]; [left; lra|right; lra..].
Qed.

Lemma range_weaken v lo hi lo' hi' :
  (lo' <= lo)%Z -> (hi <= hi')%Z ->
  (v = 0 \/ pow2 lo <= v <= pow2 hi) ->
  v = 0 \/ pow2 lo' <= v <= pow2 hi'.
Proof.
  intros Hlo Hhi [->|[L U]]; [now left|right].
  pose proof (pow2_le lo' lo Hlo). pose proof (pow2_le hi hi' Hhi). lra.
Qed.

Lemma is_zero_F2R a : is_zero a = true -> F2R a = 0.
Proof. destruct a; try discriminate. reflexivity. Qed.

Lemma add_zero_l r :
  is_nonneg r = true -> float64.add float64.zero r = r.
Proof.
  intros H. destruct (is_nonneg_cases r H) as [->|[m [e ->]]]; reflexivity.
Qed.

Lemma square_facts a :
  moderate a ->
  is_nonneg (float64.mul a a) = true
  /\ close (pow2 (-53)) (F2R a * F2R a) (F2R (float64.mul a a))
  /\ (F2R a * F2R a = 0 \/ pow2 (-1000) <= F2R a * F2R a <= pow2 1000)
  /\ (is_zero a = false -> pow2 (-1000) <= F2R a * F2R a).
Proof.
  intros Ha. destruct (square_moderate a Ha) as [Hn [Hc [_ Hr]]].
  split; [exact Hn|]. split; [exact Hc|]. split.
  - destruct (is_zero a) eqn:Hz.
    + left. rewrite (is_zero_F2R a Hz). ring.
    + right. now apply Hr.
  - intros Hz. now apply Hr.
Qed.

(** The norm of a row of three numbers of moderate size, not all zero. *)
Lemma norm_three a b c :
  moderate a -> moderate b -> moderate c ->
  Exists (fun x => is_zero x = false) [a; b; c] ->
  exists mn en,
    norm [a; b; c] = S754_finite false mn en
    /\ pow2 (-500) <= euclidean_norm (map F2R [a; b; c]) <= pow2 501
    /\ (1 - 3 * pow2 (-53)) * euclidean_norm (map F2R [a; b; c])
       <= F2R (S754_finite false mn en)
       <= (1 + 4 * pow2 (-53)) * euclidean_norm (map F2R [a; b; c]).
Proof.
  intros Ha Hb Hc Hnz.
  pose proof pow2_m53_small as Hu.
  destruct (square_facts a Ha) as [Na [Ca [Ra Za]]].
  destruct (square_facts b Hb) as [Nb [Cb [Rb Zb]]].
  destruct (square_facts c Hc) as [Nc [Cc [Rc Zc]]].
  unfold norm. cbn [map fold_left]. rewrite (add_zero_l _ Na).
  unfold euclidean_norm, sum_of_squares. cbn [map fold_right].
  set (sa := float64.mul a a) in *. set (sb := float64.mul b b) in *.
  set (sc := float64.mul c c) in *.
  set (xa := F2R a) in *. set (xb := F2R b) in *. set (xc := F2R c) in *.
  set (u := pow2 (-53)) in *.
  pose proof (close_range _ _ _ _ _ Hu Ca Ra) as Rsa.
  pose proof (close_range _ _ _ _ _ Hu Cb Rb) as Rsb.
  pose proof (close_range _ _ _ _ _ Hu Cc Rc) as Rsc.
  destruct (add_nonneg sa sb Na Nb) as [N1 C1];
    [eapply range_weaken; [| |exact Rsa]; lia
    |eapply range_weaken; [| |exact Rsb]; lia|].
  set (t1 := float64.add sa sb) in *.
  pose proof (close_range _ _ _ _ _ Hu C1 (sum_range _ _ _ _ Rsa Rsb)) as Rt1.
  destruct (add_nonneg t1 sc N1 Nc) as [N2 C2];
    [eapply range_weaken; [| |exact Rt1]; lia
    |eapply range_weaken; [| |exact Rsc]; lia|].
  set (t := float64.add t1 sc) in *.
  assert (Rsc' : F2R sc = 0
                 \/ pow2 (-1000 - 1 - 1) <= F2R sc <= pow2 (1000 + 1 + 1 + 1)).
  { eapply range_weaken; [| |exact Rsc]; lia. }
  pose proof (close_range _ _ _ _ _ Hu C2 (sum_range _ _ _ _ Rt1 Rsc')) as Rt.
  assert (Hqa : 0 <= xa * xa) by nra.
  assert (Hqb : 0 <= xb * xb) by nra.
  assert (Hqc : 0 <= xc * xc) by nra.
  assert (HS : pow2 (-1000) <= xa * xa + (xb * xb + (xc * xc + 0))).
  { apply Exists_cons in Hnz. destruct Hnz as [H|Hnz]; [apply Za in H; lra|].
    apply Exists_cons in Hnz. destruct Hnz as [H|Hnz]; [apply Zb in H; lra|].
    apply Exists_cons in Hnz. destruct Hnz as [H|Hnz]; [apply Zc in H; lra|].
    inversion Hnz. }
  assert (HS' : xa * xa + (xb * xb + (xc * xc + 0)) <= pow2 1002).
  { replace 1002%Z with (1000 + 1 + 1)%Z by lia. rewrite !pow2_succ.
    pose proof (pow2_pos 1000).
    destruct Ra as [Ra|Ra]; destruct Rb as [Rb|Rb]; destruct Rc as [Rc|Rc];
      lra. }
  pose proof (pow2_pos (-1000)) as Hp.
  assert (Hpos : 0 < F2R t).
  { pose proof (is_nonneg_F2R sa Na). pose proof (is_nonneg_F2R sb Nb).
    pose proof (is_nonneg_F2R sc Nc). pose proof (is_nonneg_F2R t1 N1).
    pose proof (close_half _ _ _ Hu Hqa Ca).
    pose proof (close_half _ _ _ Hu Hqb Cb).
    pose proof (close_half _ _ _ Hu Hqc Cc).
    assert (H12 : 0 <= F2R sa + F2R sb) by lra.
    assert (H1c : 0 <= F2R t1 + F2R sc) by lra.
    pose proof (close_half _ _ _ Hu H12 C1).
    pose proof (close_half _ _ _ Hu H1c C2).
    lra. }
  destruct (is_nonneg_finite t N2 Hpos) as [mt [et Ht]].
  destruct Rt as [Rt|Rt]; [lra|].
  destruct (sqrt_positive mt et) as [mn [en [Hs Cn]]].
  { rewrite <- Ht.
    assert (pow2 (-1010) <= pow2 (-1000 - 1 - 1 - 1)) by (apply pow2_le; lia).
    assert (pow2 (1000 + 1 + 1 + 1 + 1 + 1) <= pow2 1010)
      by (apply pow2_le; lia).
    lra. }
  exists mn, en. rewrite Ht. split; [exact Hs|]. rewrite <- Ht in Cn.
  split.
  - apply sqrt_between.
    + apply Rlt_le, pow2_pos.
    + apply Rlt_le, pow2_pos.
    + rewrite <- pow2_add. exact HS.
    + rewrite <- pow2_add. exact HS'.
  - exact (norm_chain u xa xb xc (F2R sa) (F2R sb) (F2R sc) (F2R t1) (F2R t)
             _ Hu Ca Cb Cc C1 C2 Cn).
Qed.

(** 8 * 2^-53 is 2^-50. *)
Lemma eight_ulps : 8 * pow2 (-53) = pow2 (-50).
Proof.
  replace (-50)%Z with (-53 + 1 + 1 + 1)%Z by lia. rewrite !pow2_succ. ring.
Qed.

(** A row of three numbers of moderate size, not all zero, divided by its
    norm. *)
Lemma normalized_three a b c :
  moderate a -> moderate b -> moderate c ->
  Exists (fun x => is_zero x = false) [a; b; c] ->
  0 < euclidean_norm (map F2R [a; b; c])
  /\ Forall2
       (fun x y =>
          is_finite y = true
          /\ Rabs (F2R y - F2R x / euclidean_norm (map F2R [a; b; c]))
             <= pow2 (-50) * Rabs (F2R x / euclidean_norm (map F2R [a; b; c])))
       [a; b; c] (map (fun x => float64.div x (norm [a; b; c])) [a; b; c])
  /\ Rabs (euclidean_norm
             (map F2R (map (fun x => float64.div x (norm [a; b; c])) [a; b; c]))
           - 1) <= pow2 (-50).
Proof.
  intros Ha Hb Hc Hnz.
  destruct (norm_three a b c Ha Hb Hc Hnz) as [mn [en [Hn [[El Eh] HN]]]].
  rewrite Hn. set (n := S754_finite false mn en) in *.
  set (E := euclidean_norm (map F2R [a; b; c])) in *.
  pose proof pow2_m53_small as Hu. set (u := pow2 (-53)) in *.
  assert (HE : 0 < E).
  { apply Rlt_le_trans with (pow2 (-500)); [apply pow2_pos|exact El]. }
  assert (Hrange : pow2 (-502) <= F2R n <= pow2 502).
  { assert (L : pow2 (-500) = 2 * (2 * pow2 (-502))).
    { rewrite <- !pow2_succ. f_equal. }
    assert (U : pow2 502 = 2 * pow2 501) by (rewrite <- pow2_succ; f_equal).
    pose proof (pow2_pos (-502)). pose proof (pow2_pos 501). split; nra. }
  assert (Hcomp : forall x, moderate x ->
            is_finite (float64.div x n) = true
            /\ Rabs (F2R (float64.div x n) - F2R x / E)
               <= pow2 (-50) * Rabs (F2R x / E)).
  { intros x Hx. destruct (div_moderate x mn en Hx Hrange) as [Hf Hd].
    split; [exact Hf|]. rewrite <- eight_ulps.
    exact (component_chain u (F2R x) (F2R n) E _ Hu HE HN Hd). }
  destruct (Hcomp a Ha) as [Fa Da]. destruct (Hcomp b Hb) as [Fb Db].
  destruct (Hcomp c Hc) as [Fc Dc].
  split; [exact HE|]. split.
  - cbn [map]. repeat (constructor; [split; assumption|]). constructor.
  - cbn [map]. unfold euclidean_norm at 1, sum_of_squares. cbn [fold_right].
    apply unit_chain with (c0 := F2R a / E) (c1 := F2R b / E)
                          (c2 := F2R c / E); try assumption.
    + split; [apply Rlt_le, pow2_pos|].
      apply Rle_trans with (pow2 (-1)); [apply pow2_le; lia|].
      unfold pow2. simpl. lra.
    + assert (HEE : E * E = F2R a * F2R a + (F2R b * F2R b + (F2R c * F2R c + 0))).
      { unfold E, euclidean_norm, sum_of_squares. cbn [map fold_right].
        apply sqrt_sqrt. nra. }
      field_simplify_eq; [|lra]. rewrite <- (Rmult_1_r (E ^ 2)).
      simpl. rewrite !Rmult_1_r. rewrite HEE. ring.
Qed.

Lemma relative_factor eps c y :
  0 <= eps -> Rabs (y - c) <= eps * Rabs c ->
  exists k, 1 - eps <= k <= 1 + eps /\ y = k * c.
Proof.
  intros He H. destruct (Req_dec c 0) as [Hc|Hc].
  - exists 1. subst c. rewrite Rabs_R0, Rmult_0_r, Rminus_0_r in H.
    pose proof (Rabs_pos y) as Hy.
    destruct (Req_dec y 0) as [->|Hne]; [split; [lra|ring]|].
    apply Rabs_no_R0 in Hne. lra.
  - exists (y / c). split; [|field; exact Hc].
    assert (Hac : 0 < Rabs c) by now apply Rabs_pos_lt.
    assert (Hk : Rabs (y / c - 1) <= eps).
    { replace (y / c - 1) with ((y - c) / c) by (field; exact Hc).
      unfold Rdiv. rewrite Rabs_mult, Rabs_inv.
      apply (Rmult_le_reg_r (Rabs c)); [exact Hac|].
      rewrite Rmult_assoc, Rinv_l, Rmult_1_r by lra. exact H. }
    revert Hk. unfold Rabs. destruct (Rcase_abs (y / c - 1)); lra.
Qed.

(** A float64 number with 53 digits and an exponent between -552 and 447
    is of moderate size. *)
Lemma moderate_intro s m e :
  valid_binary float64.prec float64.emax (S754_finite s m e) = true ->
  (2 ^ 52 <= Zpos m < 2 ^ 53)%Z -> (-552 <= e <= 447)%Z ->
  moderate (S754_finite s m e).
Proof.
  intros Hv [Hlo Hhi] He. split; [exact Hv|]. right. exists s, m, e.
  split; [reflexivity|]. pose proof (pow2_pos e) as Hp.
  apply IZR_le in Hlo. apply IZR_lt in Hhi.
  rewrite <- pow2_IZR in Hlo, Hhi by lia. split.
  - apply Rle_trans with (pow2 52 * pow2 e).
    + rewrite <- pow2_add. apply pow2_le. lia.
    + apply Rmult_le_compat_r; lra.
  - apply Rle_trans with (pow2 53 * pow2 e).
    + apply Rmult_le_compat_r; lra.
    + rewrite <- pow2_add. apply pow2_le. lia.
Qed.

Lemma moderate_zero s : moderate (S754_zero s).
Proof. split; [reflexivity|now left]. Qed.

(** The sign does not matter to the norm, and passes through the
    division. *)
Lemma mul_opp a : float64.mul (SFopp a) (SFopp a) = float64.mul a a.
Proof. destruct a as [[]|[]| |[] m e]; reflexivity. Qed.

Lemma norm_opp row : norm (map SFopp row) = norm row.
Proof.
  unfold norm. rewrite map_map. f_equal. f_equal. apply map_ext.
  intros a. apply mul_opp.
Qed.

Lemma binary_round_aux_opp s m e l :
  binary_round_aux float64.prec float64.emax (negb s) m e l
  = SFopp (binary_round_aux float64.prec float64.emax s m e l).
Proof.
  unfold binary_round_aux.
  destruct (shr_fexp float64.prec float64.emax m e l) as [mrs e'].
  destruct (shr_fexp float64.prec float64.emax
              (round_nearest_even (shr_m mrs) (loc_of_shr_record mrs)) e'
              loc_Exact) as [mrs' e''].
  destruct (shr_m mrs'); [reflexivity| |reflexivity].
  destruct (e'' <=? float64.emax - float64.prec)%Z; reflexivity.
Qed.

Lemma div_opp a n : float64.div (SFopp a) n = SFopp (float64.div a n).
Proof.
  destruct a as [sa|sa| |sa ma ea]; destruct n as [sn|sn| |sn mn en];
    try reflexivity; try (destruct sa, sn; reflexivity).
  unfold float64.div, SFdiv. cbn [SFopp].
  destruct (SFdiv_core_binary float64.prec float64.emax (Zpos ma) ea
              (Zpos mn) en) as [[mz ez] lz].
  rewrite <- binary_round_aux_opp. f_equal. now destruct sa, sn.
Qed.

(** normalize_vectors works row by row. *)
Lemma normalize_vectors_map vectors :
  normalize_vectors vectors
  = map (fun row => map (fun a => float64.div a (norm row)) row) vectors.
Proof.
  unfold normalize_vectors.
  induction vectors as [|row vectors IH]; simpl; [reflexivity|].
  now rewrite IH.
Qed.

(** The norm of a row of zeros is +0. *)
Lemma norm_zeros row :
  Forall (fun a => is_zero a = true) row -> norm row = S754_zero false.
Proof.
  intros H. unfold norm.
  assert (Hs : fold_left float64.add (map (fun a => float64.mul a a) row)
                 float64.zero = S754_zero false).
  { change float64.zero with (S754_zero false).
    induction H as [|a row Ha _ IH]; [reflexivity|].
    cbn [map fold_left]. destruct a as [[]| | |]; try discriminate Ha;
      exact IH. }
  now rewrite Hs.
Qed.

End float_row.

(** ** The claims about the configuration generator *)

Module generator_claims.
Import generator generator_notions slice_facts chain_facts molecule_facts.
Local Open Scope R_scope.

Lemma nth_map_seq {A} (f : nat -> A) (n i : nat) (d : A) :
  (i < n)%nat -> nth i (map f (seq 0 n)) d = f i.
Proof.
  intros Hi. rewrite (nth_indep _ d (f O)) by (now rewrite length_map, length_seq).
  rewrite map_nth, seq_nth by assumption. reflexivity.
Qed.

Lemma nth_map_seq_from {A} (f : nat -> A) (a n i : nat) (d : A) :
  (i < n)%nat -> nth i (map f (seq a n)) d = f (a + i)%nat.
Proof.
  intros Hi. rewrite (nth_indep _ d (f O)) by (now rewrite length_map, length_seq).
  rewrite map_nth, seq_nth by assumption. reflexivity.
Qed.

Lemma length_concat_uniform {A B} (f : A -> list B) (n : nat) ms :
  (forall m, In m ms -> List.length (f m) = n) ->
  List.length (List.concat (map f ms)) = (List.length ms * n)%nat.
Proof.
  induction ms as [|m ms IH]; intros H; simpl; [reflexivity|].
  rewrite length_app, (H m (or_introl eq_refl)), IH; [reflexivity|].
  intros m' Hm'. apply H. now right.
Qed.

(** In a list made of blocks of [n] elements, element [j] of block [k] is
    at place [n * k + j]. *)
Lemma nth_concat_uniform {A B} (f : A -> list B) (n : nat) (d : B) ms :
  (forall m, In m ms -> List.length (f m) = n) ->
  forall k m j, nth_error ms k = Some m -> (j < n)%nat ->
  nth (n * k + j) (List.concat (map f ms)) d = nth j (f m) d.
Proof.
  induction ms as [|m0 ms IH]; intros H k m j Hk Hj.
  - destruct k; discriminate Hk.
  - pose proof (H m0 (or_introl eq_refl)) as H0. simpl.
    destruct k as [|k]; cbn [nth_error] in Hk.
    + injection Hk as <-. rewrite Nat.mul_0_r, Nat.add_0_l.
      apply app_nth1. now rewrite H0.
    + rewrite app_nth2 by (rewrite H0; lia). rewrite H0.
      replace (n * S k + j - n)%nat with (n * k + j)%nat by lia.
      apply IH; [|exact Hk|exact Hj]. intros m' Hm'. apply H. now right.
Qed.

Section Claims.

Variable E : Randomness.

(** The local coordinates of a rod. *)
Lemma rod_positions tok ix0 np0 :
  is_rods tok = true -> is_random tok = false ->
  positions_of (atom_loop E tok NPOLY 0 (0, 0, 0) ix0 np0)
  = map (fun k => (0, 0, INR k)) (seq 0 NPOLY).
Proof.
  intros Hrods Hrandom. rewrite atom_loop_rods by assumption.
  apply map_ext. intros k. now rewrite Rplus_0_l.
Qed.

(** The local coordinates of a helix. *)
Lemma helix_positions tok ix0 np0 :
  is_helices tok = true ->
  positions_of (atom_loop E tok NPOLY 0 (0, 0, 0) ix0 np0)
  = origin :: map (fun k => helix_point (INR k)) (seq 1 (NPOLY - 1)).
Proof.
  intros Hh. unfold NPOLY. rewrite atom_loop_helices by assumption.
  unfold origin. f_equal. apply map_ext. intros k. apply helix_code_point.
Qed.

(** C7.  The run makes 4000 molecules of 20 particles and writes their
    positions molecule by molecule.  When the token does not start with
    "disordered", the rotation of every molecule is the first rotation that
    numpy's generator hands out, drawn before the loop; when it does, the
    rotation of molecule [k] is the rotation number [k] of that generator,
    drawn in the turn of the loop that places the molecule.  That rotation
    is the one applied: particle [j] of molecule [k] is written at its
    local position turned by it, then moved by the translation of the
    molecule. *)
Theorem molecule_orientations tok np0 :
  exists c ms,
    main E tok np0 = Some c
    /\ molecules E tok np0 = Some ms
    /\ List.length ms = 4000%nat
    /\ List.length (positions c) = (4000 * 20)%nat
    /\ forall k m, nth_error ms k = Some m ->
         molecule_rotation E m
         = (if is_disordered tok
            then nth_rotation E k np0 else nth_rotation E 0 np0)
         /\ forall j, (j < 20)%nat ->
              nth (20 * k + j) (positions c) origin
              = vadd (Rotation_apply E
                        (if is_disordered tok
                         then nth_rotation E k np0 else nth_rotation E 0 np0)
                        (nth j (local_positions E m) origin))
                     (translation_vector E m).
Proof.
  destruct (molecules_spec E tok np0) as [ms [Hms [Hlen Hspec]]].
  exists (assemble E ms), ms. split; [unfold main; now rewrite Hms|].
  split; [exact Hms|]. split; [exact Hlen|].
  assert (Hplaced : forall m, In m ms ->
             List.length (placed_positions E m) = 20%nat).
  { intros m Hm. apply In_nth_error in Hm. destruct Hm as [k Hk].
    destruct (Hspec k m Hk) as [[ix0 [np1 Hloc]] _].
    unfold placed_positions. rewrite length_map, Hloc.
    apply atom_loop_length. }
  split.
  { cbn [assemble positions]. rewrite (length_concat_uniform _ 20 ms Hplaced).
    now rewrite Hlen. }
  intros k m Hm.
  assert (Hrot : molecule_rotation E m
                 = (if is_disordered tok
                    then nth_rotation E k np0 else nth_rotation E 0 np0)).
  { destruct (Hspec k m Hm) as [_ [_ [Hshared Hown]]].
    destruct (is_disordered tok); [now apply Hown | now apply Hshared]. }
  split; [exact Hrot|]. intros j Hj.
  cbn [assemble positions].
  rewrite (nth_concat_uniform _ 20 origin ms Hplaced k m j Hm Hj).
  assert (Hin : In m ms) by (eapply nth_error_In; exact Hm).
  pose proof (Hplaced m Hin) as Hlenm. unfold placed_positions in *.
  rewrite length_map in Hlenm.
  set (f := fun p => vadd (Rotation_apply E (molecule_rotation E m) p)
                          (translation_vector E m)).
  rewrite (nth_indep (map f (local_positions E m)) origin (f origin))
    by (rewrite length_map, Hlenm; exact Hj).
  rewrite map_nth. unfold f. now rewrite Hrot.
Qed.

(** What the seed does fix: the translation of molecule [k] is made of the
    [k]-th triple of numbers of Python's generator seeded with 42, whatever
    the state of numpy's generator. *)
Lemma translations_seeded tok np0 ms k m :
  molecules E tok np0 = Some ms -> nth_error ms k = Some m ->
  translation_vector E m
  = translation_at E (Nat.iter k (skip3 E) (seed E RANDOM_SEED)).
Proof.
  intros Hms Hm. destruct (molecules_spec E tok np0) as [ms' [Hms' [_ Hspec]]].
  rewrite Hms in Hms'. injection Hms' as <-. now apply Hspec.
Qed.

(** C8, as amended.  For a token that ends in "rods" and does not start
    with "random", every molecule has 20 particles, particle [i] at
    (0, 0, i) before rotation and translation; consecutive particles differ
    by the bond vector (0, 0, LBOND), and the last particle is 19 above the
    first. *)
Theorem rods_geometry tok np0 :
  is_rods tok = true -> is_random tok = false ->
  exists ms,
    molecules E tok np0 = Some ms
    /\ List.length ms = NMOL
    /\ forall m, In m ms ->
         List.length (local_positions E m) = 20%nat
         /\ (forall i, (i < 20)%nat ->
               nth i (local_positions E m) origin = (0, 0, INR i))
         /\ (forall i, (S i < 20)%nat ->
               vsub (nth (S i) (local_positions E m) origin)
                    (nth i (local_positions E m) origin) = (0, 0, LBOND))
         /\ vsub (nth 19 (local_positions E m) origin)
                 (nth 0 (local_positions E m) origin) = (0, 0, 19).
Proof.
  intros Hrods Hrandom.
  destruct (molecules_spec E tok np0) as [ms [Hms [Hlen Hspec]]].
  exists ms. split; [exact Hms|]. split; [exact Hlen|]. intros m Hm.
  apply In_nth_error in Hm. destruct Hm as [k Hk].
  destruct (Hspec k m Hk) as [[ix0 [np1 Hloc]] _].
  rewrite Hloc, rod_positions by assumption. unfold NPOLY.
  assert (Hnth : forall i, (i < 20)%nat ->
            nth i (map (fun k => (0, 0, INR k)) (seq 0 20)) origin = (0, 0, INR i))
    by (intros i Hi; now apply (nth_map_seq (fun k => (0, 0, INR k)))).
  split; [now rewrite length_map, length_seq|]. split; [exact Hnth|]. split.
  - intros i Hi. rewrite !Hnth by lia. rewrite S_INR. unfold vsub, LBOND.
    f_equal; [f_equal|]; lra.
  - rewrite !Hnth by lia. unfold vsub. simpl. f_equal; [f_equal|]; lra.
Qed.

(** C4, as amended.  For a token that ends in "helices", every molecule has
    20 particles.  Particle 0 is at the origin, on the axis.  Particle [i],
    for [i] from 1 to 19, is at RTUBE cos(2 pi i / PER_TURN),
    RTUBE sin(2 pi i / PER_TURN), PITCH i / PER_TURN, at distance RTUBE from
    the axis.  From each particle to the next, z grows by PITCH / PER_TURN. *)
Theorem helices_geometry tok np0 :
  is_helices tok = true ->
  exists ms,
    molecules E tok np0 = Some ms
    /\ List.length ms = NMOL
    /\ forall m, In m ms ->
         List.length (local_positions E m) = 20%nat
         /\ nth 0 (local_positions E m) origin = origin
         /\ radial (nth 0 (local_positions E m) origin) = 0
         /\ (forall i, (1 <= i < 20)%nat ->
               nth i (local_positions E m) origin = helix_point (INR i)
               /\ radial (nth i (local_positions E m) origin) = RTUBE)
         /\ (forall i, (S i < 20)%nat ->
               z_of (nth (S i) (local_positions E m) origin)
               - z_of (nth i (local_positions E m) origin) = PITCH / PER_TURN).
Proof.
  intros Hh.
  destruct (molecules_spec E tok np0) as [ms [Hms [Hlen Hspec]]].
  exists ms. split; [exact Hms|]. split; [exact Hlen|]. intros m Hm.
  apply In_nth_error in Hm. destruct Hm as [k Hk].
  destruct (Hspec k m Hk) as [[ix0 [np1 Hloc]] _].
  rewrite Hloc, helix_positions by assumption. unfold NPOLY.
  change (20 - 1)%nat with 19%nat.
  assert (Hnth : forall i, (1 <= i < 20)%nat ->
            nth i (origin :: map (fun k => helix_point (INR k)) (seq 1 19)) origin
            = helix_point (INR i)).
  { intros [|i] Hi; [lia|]. cbn [nth].
    rewrite (nth_map_seq_from (fun k => helix_point (INR k))) by lia.
    reflexivity. }
  split; [cbn [List.length]; now rewrite length_map, length_seq|].
  split; [reflexivity|]. split.
  - cbn [nth]. unfold radial, origin.
    replace (0 * 0 + 0 * 0) with 0 by ring. apply sqrt_0.
  - split.
    + intros i Hi. rewrite Hnth by assumption.
      split; [reflexivity | apply radial_helix_point].
    + intros [|i] Hi.
      * rewrite Hnth by lia. cbn [nth]. unfold z_of, helix_point, origin.
        cbn [snd INR]. unfold PITCH, PER_TURN. field.
      * rewrite !Hnth by lia. unfold z_of, helix_point. cbn [snd].
        rewrite (S_INR (S i)). unfold PITCH, PER_TURN. field.
Qed.

End Claims.

(** *** Runs of the generator with the counting generators *)

(** C8, at the token "rods". *)
Lemma rods_geometry_witness :
  is_rods "rods" = true /\ is_random "rods" = false
  /\ exists ms,
      molecules counting "rods" 0%nat = Some ms
      /\ List.length ms = NMOL
      /\ forall m, In m ms ->
           List.length (local_positions counting m) = 20%nat
           /\ (forall i, (i < 20)%nat ->
                 nth i (local_positions counting m) origin = (0, 0, INR i))
           /\ (forall i, (S i < 20)%nat ->
                 vsub (nth (S i) (local_positions counting m) origin)
                      (nth i (local_positions counting m) origin) = (0, 0, LBOND))
           /\ vsub (nth 19 (local_positions counting m) origin)
                   (nth 0 (local_positions counting m) origin) = (0, 0, 19).
Proof.
  split; [reflexivity|]. split; [reflexivity|].
  apply (rods_geometry counting "rods" 0%nat); reflexivity.
Defined.

(** C4, at the token "helices". *)
Lemma helices_geometry_witness :
  is_helices "helices" = true
  /\ exists ms,
      molecules counting "helices" 0%nat = Some ms
      /\ List.length ms = NMOL
      /\ forall m, In m ms ->
           List.length (local_positions counting m) = 20%nat
           /\ nth 0 (local_positions counting m) origin = origin
           /\ radial (nth 0 (local_positions counting m) origin) = 0
           /\ (forall i, (1 <= i < 20)%nat ->
                 nth i (local_positions counting m) origin = helix_point (INR i)
                 /\ radial (nth i (local_positions counting m) origin) = RTUBE)
           /\ (forall i, (S i < 20)%nat ->
                 z_of (nth (S i) (local_positions counting m) origin)
                 - z_of (nth i (local_positions counting m) origin)
                 = PITCH / PER_TURN).
Proof.
  split; [reflexivity|].
  apply (helices_geometry counting "helices" 0%nat); reflexivity.
Defined.

(** C4, as stated, fails in the first molecule.  Particle 0 is at the
    origin, which is not the point the formula gives for [i = 0] and is not
    at distance 0.53 from the axis; particle 1 is at the point of parameter
    1, not at the point of parameter 2. *)
Lemma helix_first_particle_on_axis :
  is_helices "helices" = true
  /\ exists m rest,
      molecules counting "helices" 0%nat = Some (m :: rest)
      /\ nth 0 (local_positions counting m) origin = (0, 0, 0)
      /\ (0, 0, 0) <> helix_point (INR (0 + 1))
      /\ radial (0, 0, 0) <> 53 / 100
      /\ nth 1 (local_positions counting m) origin = helix_point (INR 1)
      /\ helix_point (INR 1) <> helix_point (INR (1 + 1)).
Proof.
  split; [reflexivity|].
  destruct (first_molecule counting "helices" 0%nat)
    as [m [rest [Hms [Hloc _]]]].
  exists m, rest. split; [exact Hms|].
  rewrite Hloc, chain_eq, helix_positions by reflexivity.
  split; [reflexivity|]. split; [|split; [|split; [reflexivity|]]].
  - unfold helix_point. intros H. injection H as _ _ Hz.
    cbn [INR Nat.add] in Hz. unfold PITCH, PER_TURN in Hz. lra.
  - unfold radial. replace (0 * 0 + 0 * 0) with 0 by ring.
    rewrite sqrt_0. lra.
  - unfold helix_point. intros H. injection H as _ _ Hz.
    cbn [INR Nat.add] in Hz. unfold PITCH, PER_TURN in Hz. lra.
Qed.

(** C8, as stated, fails at the token "random-rods", which ends in "rods":
    the bond from particle 0 to particle 1 of the first molecule is the sum
    of a rotated bond and of (0, 0, 1), here the null vector. *)
Lemma random_rods_bond :
  is_rods "random-rods" = true
  /\ exists m rest,
      molecules counting "random-rods" 0%nat = Some (m :: rest)
      /\ vsub (nth 1 (local_positions counting m) origin)
              (nth 0 (local_positions counting m) origin)
         <> (0, 0, LBOND).
Proof.
  split; [reflexivity|].
  destruct (first_molecule counting "random-rods" 0%nat)
    as [m [rest [Hms [Hloc _]]]].
  exists m, rest. split; [exact Hms|].
  destruct (chain_first_two counting "random-rods" 1%nat) as [tail Hchain].
  change (local_positions counting m = chain counting "random-rods" 1%nat)
    in Hloc.
  rewrite Hloc, Hchain. cbn [nth].
  change (fst (next_coordinates counting "random-rods" 0 (0, 0, 0) 1%nat))
    with (0 + 0 + 0, 0 + - 0 + 0, 0 + - LBOND + LBOND).
  unfold vsub, LBOND. intros H. injection H as _ _ Hz. lra.
Qed.

(** C3.  Two runs for the token "rods" that differ only in the state in
    which numpy's generator happens to start: the second particle is
    written at different places. *)
Theorem rotations_not_seeded :
  exists c0 c1,
    main counting "rods" 0%nat = Some c0
    /\ main counting "rods" 1%nat = Some c1
    /\ nth 1 (positions c0) origin = (20, 30, 41)
    /\ nth 1 (positions c1) origin = (20, 30, 39).
Proof.
  assert (Hrun : forall np0 : nat,
            exists c, main counting "rods" np0 = Some c
              /\ nth 1 (positions c) origin
                 = vadd (Rotation_apply counting (Nat.odd np0) (0, 0, 1))
                        (20, 30, 40)).
  { intros np0.
    destruct (first_molecule counting "rods" np0)
      as [m [rest [Hms [Hloc [Hrot Htr]]]]].
    exists (assemble counting (m :: rest)). unfold main. rewrite Hms.
    split; [reflexivity|].
    cbn [assemble positions map List.concat].
    assert (Hlen : (1 < List.length (local_positions counting m))%nat).
    { rewrite Hloc, chain_eq, atom_loop_length. unfold NPOLY. lia. }
    unfold placed_positions.
    rewrite app_nth1 by (rewrite length_map; exact Hlen).
    rewrite (nth_indep _ origin
               (vadd (Rotation_apply counting (molecule_rotation counting m) origin)
                     (translation_vector counting m)))
      by (rewrite length_map; exact Hlen).
    rewrite (map_nth (fun p => vadd (Rotation_apply counting
                                       (molecule_rotation counting m) p)
                                    (translation_vector counting m))).
    rewrite Hloc, chain_eq, rod_positions by reflexivity.
    rewrite (nth_map_seq (fun k => (0, 0, INR k))) by (unfold NPOLY; lia).
    rewrite Hrot, Htr. unfold nth_rotation. cbn [Nat.iter nat_rect].
    cbn [Rotation_random counting fst INR].
    f_equal.
    change (translation_at counting (seed counting RANDOM_SEED))
      with (100 * (INR 2 / 10), 100 * (INR 3 / 10), 100 * (INR 4 / 10)).
    cbn [INR]. f_equal; [f_equal|]; lra. }
  destruct (Hrun 0%nat) as [c0 [H0 Hp0]]. destruct (Hrun 1%nat) as [c1 [H1 Hp1]].
  exists c0, c1. split; [exact H0|]. split; [exact H1|].
  rewrite Hp0, Hp1. cbn. split; f_equal; try f_equal; lra.
Qed.

End generator_claims.

(** ** The claim about normalize_vectors *)

Module utilities_claims.
Import utilities utilities_notions utilities_samples float_facts float_row.
Local Open Scope R_scope.

(** C9.  For every N-by-3 array of float64 numbers that are zero or of
    magnitude between 2^-500 and 2^500, without zero row, normalize_vectors
    returns an array of the same shape.  Each entry of it is the input entry
    divided by the computed norm of its row; it is finite, and it is the
    input entry divided by the Euclidean norm of the input row up to the
    relative error 2^-50, that is, multiplied by a factor between 1 - 2^-50
    and 1 + 2^-50.  The Euclidean norm of each output row is 1 up to
    2^-50.  The Euclidean norms are those of real numbers. *)
Theorem normalize_vectors_rows (vectors : array2) :
  Forall (fun row => List.length row = 3%nat
                     /\ Forall moderate row
                     /\ Exists (fun a => is_zero a = false) row) vectors ->
  List.length (normalize_vectors vectors) = List.length vectors
  /\ Forall2
       (fun row out =>
          List.length out = 3%nat
          /\ out = map (fun a => float64.div a (norm row)) row
          /\ 0 < euclidean_norm (map F2R row)
          /\ Forall2
               (fun a y =>
                  is_finite y = true
                  /\ Rabs (F2R y - F2R a / euclidean_norm (map F2R row))
                     <= pow2 (-50)
                        * Rabs (F2R a / euclidean_norm (map F2R row))
                  /\ exists k,
                       1 - pow2 (-50) <= k <= 1 + pow2 (-50)
                       /\ F2R y = k * (F2R a / euclidean_norm (map F2R row)))
               row out
          /\ Rabs (euclidean_norm (map F2R out) - 1) <= pow2 (-50))
       vectors (normalize_vectors vectors).
Proof.
  intros Hrows. rewrite normalize_vectors_map. split; [apply length_map|].
  induction Hrows as [|row vectors [Hlen [Hmod Hnz]] _ IH]; cbn [map];
    constructor; [|exact IH].
  destruct row as [|a [|b [|c [|d row]]]]; try discriminate Hlen.
  apply Forall_cons_iff in Hmod. destruct Hmod as [Ha Hmod].
  apply Forall_cons_iff in Hmod. destruct Hmod as [Hb Hmod].
  apply Forall_cons_iff in Hmod. destruct Hmod as [Hc _].
  destruct (normalized_three a b c Ha Hb Hc Hnz) as [HE [Hcomp Hunit]].
  split; [reflexivity|]. split; [reflexivity|]. split; [exact HE|].
  split; [|exact Hunit].
  eapply Forall2_impl; [|exact Hcomp].
  intros x y [Hf Hd]. split; [exact Hf|]. split; [exact Hd|].
  apply relative_factor; [apply Rlt_le, pow2_pos|exact Hd].
Qed.

Lemma sample_rows_moderate :
  Forall (fun row => List.length row = 3%nat
                     /\ Forall moderate row
                     /\ Exists (fun a => is_zero a = false) row)
    [[f_3; f_4; f_0]; [f_0; f_1; f_1]].
Proof.
  assert (H0 : moderate f_0) by apply moderate_zero.
  assert (H1 : moderate f_1)
    by (apply moderate_intro; [reflexivity|lia|lia]).
  assert (H3 : moderate f_3)
    by (apply moderate_intro; [reflexivity|lia|lia]).
  assert (H4 : moderate f_4)
    by (apply moderate_intro; [reflexivity|lia|lia]).
  constructor; [|constructor; [|constructor]];
    (split; [reflexivity|split]).
  - repeat (constructor; [assumption|]). constructor.
  - apply Exists_cons_hd. reflexivity.
  - repeat (constructor; [assumption|]). constructor.
  - apply Exists_cons_tl, Exists_cons_hd. reflexivity.
Qed.

(** C9, at the rows (3, 4, 0) and (0, 1, 1). *)
Lemma normalize_vectors_rows_witness :
  Forall (fun row => List.length row = 3%nat
                     /\ Forall moderate row
                     /\ Exists (fun a => is_zero a = false) row)
    [[f_3; f_4; f_0]; [f_0; f_1; f_1]]
  /\ List.length (normalize_vectors [[f_3; f_4; f_0]; [f_0; f_1; f_1]])
     = List.length [[f_3; f_4; f_0]; [f_0; f_1; f_1]]
  /\ Forall2
       (fun row out =>
          List.length out = 3%nat
          /\ out = map (fun a => float64.div a (norm row)) row
          /\ 0 < euclidean_norm (map F2R row)
          /\ Forall2
               (fun a y =>
                  is_finite y = true
                  /\ Rabs (F2R y - F2R a / euclidean_norm (map F2R row))
                     <= pow2 (-50)
                        * Rabs (F2R a / euclidean_norm (map F2R row))
                  /\ exists k,
                       1 - pow2 (-50) <= k <= 1 + pow2 (-50)
                       /\ F2R y = k * (F2R a / euclidean_norm (map F2R row)))
               row out
          /\ Rabs (euclidean_norm (map F2R out) - 1) <= pow2 (-50))
       [[f_3; f_4; f_0]; [f_0; f_1; f_1]]
       (normalize_vectors [[f_3; f_4; f_0]; [f_0; f_1; f_1]]).
Proof.
  split; [exact sample_rows_moderate|].
  exact (normalize_vectors_rows [[f_3; f_4; f_0]; [f_0; f_1; f_1]]
           sample_rows_moderate).
Defined.

(** What the program returns at these rows: (0.6, 0.8, 0) and
    (0, 0.7071067811865475, 0.7071067811865475). *)
Example normalize_vectors_sample :
  normalize_vectors [[f_3; f_4; f_0]; [f_0; f_1; f_1]]
  = [[f_0_6; f_0_8; f_0]; [f_0; f_0_707_475; f_0_707_475]].
Proof. vm_compute. reflexivity. Qed.

(** C9 as the claim has it, for every array without zero row, does not
    hold: the row (1e200, 0, 0) is not zero, the sum of its squares
    overflows, its computed norm is +inf, and the program returns the zero
    row, of Euclidean norm 0. *)
Lemma huge_row_collapses :
  Exists (fun a => is_zero a = false) [f_1e200; f_0; f_0]
  /\ Forall (fun a => valid_binary float64.prec float64.emax a = true)
       [f_1e200; f_0; f_0]
  /\ norm [f_1e200; f_0; f_0] = S754_infinity false
  /\ normalize_vectors [[f_1e200; f_0; f_0]] = [[f_0; f_0; f_0]]
  /\ euclidean_norm (map F2R [f_0; f_0; f_0]) = 0.
Proof.
  split; [now constructor|].
  split; [repeat constructor|].
  split; [vm_compute; reflexivity|].
  split; [vm_compute; reflexivity|].
  unfold euclidean_norm, sum_of_squares. cbn [map fold_right f_0 F2R].
  replace (0 * 0 + (0 * 0 + (0 * 0 + 0))) with 0 by ring. apply sqrt_0.
Qed.

(** Nor at the other end: the square of 1e-200 underflows to 0, the
    computed norm of (1e-200, 0, 0) is +0, and the program returns
    (+inf, NaN, NaN). *)
Example tiny_row_not_finite :
  norm [f_1em200; f_0; f_0] = f_0
  /\ normalize_vectors [[f_1em200; f_0; f_0]]
     = [[S754_infinity false; S754_nan; S754_nan]].
Proof. split; vm_compute; reflexivity. Qed.

(** Normalising a second time can change the last digit:
    (0, 1, 1) gives 0.7071067811865475 twice, which gives
    0.7071067811865476 twice. *)
Example normalize_vectors_twice :
  normalize_vectors [[f_0; f_1; f_1]] = [[f_0; f_0_707_475; f_0_707_475]]
  /\ normalize_vectors (normalize_vectors [[f_0; f_1; f_1]])
     = [[f_0; f_0_707_476; f_0_707_476]].
Proof. split; vm_compute; reflexivity. Qed.

End utilities_claims.

(** * Further properties of the aggregate detector *)

Module aggregation_extras.
Import nx graph graph_facts dfs_facts aggregation aggregation_facts.
Import dict_facts document_facts aggregate_notions cli_notions cli_facts.

(** ** Removing from a list without repetition *)

Lemma without_nil L : without [] L = L.
Proof. unfold without. apply filter_keep_all. reflexivity. Qed.

Lemma In_without ys L x : In x (without ys L) <-> In x L /\ ~ In x ys.
Proof.
  unfold without. rewrite filter_In, negb_true_iff, mem_not_In. tauto.
Qed.

Lemma list_remove_without x L :
  NoDup L -> In x L -> list_remove x L = Some (without [x] L).
Proof.
  unfold without. induction L as [|y L IH]; simpl; [contradiction|].
  intros Hnd Hin. inversion Hnd as [|? ? Hy Hnd']; subst.
  rewrite orb_false_r. destruct (Z.eqb_spec y x) as [->|Hne]; simpl.
  - f_equal. symmetry. apply filter_keep_all. intros a Ha.
    rewrite orb_false_r. apply negb_true_iff, Z.eqb_neq. congruence.
  - destruct Hin as [Heq|Hin]; [congruence|]. now rewrite (IH Hnd' Hin).
Qed.

Lemma without_cons y ys L : without ys (without [y] L) = without (y :: ys) L.
Proof.
  unfold without. rewrite filter_filter. apply filter_ext. intros a. simpl.
  now rewrite orb_false_r, negb_orb.
Qed.

(** The [for] loop of lines 97-99 leaves the unassigned indices that were
    not yielded, in their order. *)
Lemma collect_without ys : forall aggregate L,
  NoDup L -> NoDup ys -> incl ys L ->
  collect ys aggregate L = Returns (aggregate ++ ys, without ys L).
Proof.
  induction ys as [|y ys IH]; intros aggregate L HndL Hnd Hincl; simpl.
  - now rewrite app_nil_r, without_nil.
  - inversion Hnd as [|? ? Hy Hnd']; subst.
    rewrite (list_remove_without y L HndL (Hincl y (or_introl eq_refl))).
    rewrite IH.
    + now rewrite <- app_assoc, without_cons.
    + now apply NoDup_filter.
    + exact Hnd'.
    + intros z Hz. apply In_without. split; [apply Hincl; now right|].
      intros [->|[]]. contradiction.
Qed.

Lemma filter_split {A} (f : A -> bool) L : forall b k a,
  filter f L = b ++ k :: a ->
  exists b0 a0, L = b0 ++ k :: a0 /\ filter f b0 = b.
Proof.
  induction L as [|x L IH]; intros b k a; simpl.
  - destruct b; discriminate.
  - destruct (f x) eqn:Hfx.
    + destruct b as [|y b]; simpl.
      * intros [= -> _]. exists [], L. split; reflexivity.
      * intros [= -> Hrest]. destruct (IH _ _ _ Hrest) as [b0 [a0 [-> Hb]]].
        exists (y :: b0), a0. simpl. rewrite Hfx, Hb. split; reflexivity.
    + intros Hrest. destruct (IH _ _ _ Hrest) as [b0 [a0 [-> Hb]]].
      exists (x :: b0), a0. simpl. rewrite Hfx. split; [reflexivity | exact Hb].
Qed.

Lemma two_splits {A} (b : list A) : forall k a b' k' a',
  b ++ k :: a = b' ++ k' :: a' -> k = k' \/ In k' b \/ In k b'.
Proof.
  induction b as [|x b IH]; intros k a b' k' a'; simpl.
  - destruct b' as [|y b']; simpl; intros [= -> Hrest]; [now left|].
    right. right. now left.
  - destruct b' as [|y b']; simpl; intros [= -> Hrest].
    + right. left. now left.
    + destruct (IH _ _ _ _ _ Hrest) as [H|[H|H]]; auto.
Qed.

Lemma StronglySorted_filter (f : Z -> bool) L :
  StronglySorted Z.lt L -> StronglySorted Z.lt (filter f L).
Proof.
  induction 1 as [|x L _ IH Hx]; simpl; [constructor|].
  destruct (f x); [|exact IH]. constructor; [exact IH|].
  apply Forall_forall. intros y Hy. apply filter_In in Hy.
  rewrite Forall_forall in Hx. now apply Hx.
Qed.

Lemma StronglySorted_seq_Z n : forall a,
  StronglySorted Z.lt (map Z.of_nat (seq a n)).
Proof.
  induction n as [|n IH]; intros a; simpl; constructor; [apply IH|].
  apply Forall_forall. intros y Hy. apply in_map_iff in Hy.
  destruct Hy as [k [<- Hk]]. apply in_seq in Hk. lia.
Qed.

(** ** The traversal *)

Lemma dfs_postorder_nodes_last G s ys :
  dfs_postorder_nodes G s = Some (ys, None) -> exists out, ys = out ++ [s].
Proof.
  unfold dfs_postorder_nodes. destruct (adj G s); [|discriminate].
  destruct (dfs_loop G (dfs_fuel G) [s] [(s, List.length G, l)] [])
    as [[out [e|]]|]; try discriminate.
  intros [= <-]. eauto.
Qed.

Section Loop.

Variable G : Graph.
Hypothesis HG : undirected G.

(** One turn of the while loop, from a first index that is a node. *)
Lemma partition_loop_turn fuel first L0 aggregates :
  NoDup (first :: L0) -> closed G (first :: L0) -> In first (nodes G) ->
  exists ys,
    component_of G first ys
    /\ (exists out, ys = out ++ [first])
    /\ incl ys (first :: L0)
    /\ NoDup (without ys (first :: L0))
    /\ closed G (without ys (first :: L0))
    /\ (List.length (without ys (first :: L0)) <= List.length L0)%nat
    /\ partition_loop G (S fuel) (first :: L0) aggregates
       = partition_loop G fuel (without ys (first :: L0)) (aggregates ++ [ys]).
Proof.
  intros Hnd Hc Hin.
  destruct (dfs_postorder_nodes_component G first HG Hin) as [ys [Hrun Hcomp]].
  exists ys. split; [exact Hcomp|].
  split; [eapply dfs_postorder_nodes_last; eassumption|].
  assert (Hys : incl ys (first :: L0)).
  { intros v Hv. apply (proj2 Hcomp) in Hv.
    eapply reach_closed; [exact Hc | now left | exact Hv]. }
  split; [exact Hys|].
  pose proof (collect_without ys [] (first :: L0) Hnd (proj1 Hcomp) Hys) as Hcol.
  destruct (collect_returns ys [] (first :: L0) (proj1 Hcomp) Hys)
    as [L' [Hcol' Hp]].
  rewrite Hcol in Hcol'. injection Hcol' as <-.
  split; [now apply NoDup_filter|].
  split.
  { exact (closed_remove_component G HG (first :: L0) first ys _ Hnd Hc
             (or_introl eq_refl) Hcomp Hp). }
  split.
  { assert (Hlen0 : List.length (first :: L0)
                     = (List.length ys
                        + List.length (without ys (first :: L0)))%nat).
    { rewrite <- length_app. apply Permutation_length. exact Hp. }
    assert (Hfirst : In first ys) by (apply (proj2 Hcomp); constructor).
    revert Hlen0. generalize (without ys (first :: L0)). intros W Hlen0.
    destruct ys; [destruct Hfirst | cbn [List.length] in Hlen0; lia]. }
  cbn [partition_loop]. rewrite Hrun, Hcol. reflexivity.
Qed.

(** The KeyError of the loop names the first index of the list that is not
    a node of the graph. *)
Lemma partition_loop_first_missing fuel : forall L aggregates k,
  NoDup L -> closed G L -> (List.length L <= fuel)%nat ->
  partition_loop G fuel L aggregates = Raises (KeyError k) ->
  exists before after,
    L = before ++ k :: after /\ ~ In k (nodes G)
    /\ forall j, In j before -> In j (nodes G).
Proof.
  induction fuel as [|fuel IH]; intros L aggregates k Hnd Hc Hlen Hr.
  - destruct L; [discriminate Hr | simpl in Hlen; lia].
  - destruct L as [|first L0]; [discriminate Hr|].
    destruct (in_dec Z.eq_dec first (nodes G)) as [Hin|Hnin].
    + destruct (partition_loop_turn fuel first L0 aggregates Hnd Hc Hin)
        as [ys [Hcomp [_ [Hys [Hnd' [Hc' [Hlen' Heq]]]]]]].
      rewrite Heq in Hr.
      destruct (IH _ _ _ Hnd' Hc' ltac:(simpl in Hlen; lia) Hr)
        as [b' [a' [Hsplit [Hk Hb]]]].
      destruct (filter_split _ _ _ _ _ Hsplit) as [b0 [a0 [HL Hb0]]].
      exists b0, a0. split; [exact HL | split; [exact Hk|]].
      intros j Hj. destruct (mem j ys) eqn:Hm.
      * apply mem_In in Hm.
        eapply component_in_graph; [exact HG | exact Hin | exact Hcomp | exact Hm].
      * apply Hb. rewrite <- Hb0. apply filter_In. split; [exact Hj|].
        now rewrite Hm.
    + cbn [partition_loop] in Hr.
      rewrite (dfs_postorder_nodes_missing G first Hnin) in Hr. simpl in Hr.
      injection Hr as <-. exists [], L0. split; [reflexivity|].
      split; [exact Hnin | intros j []].
Qed.

(** On an increasing list of indices, every aggregate the loop returns ends
    with its smallest index, the one its traversal was seeded at, and the
    aggregates come in the increasing order of these indices. *)
Lemma partition_loop_order fuel : forall L aggregates result,
  NoDup L -> closed G L -> StronglySorted Z.lt L ->
  (List.length L <= fuel)%nat ->
  partition_loop G fuel L aggregates = Returns result ->
  exists new,
    result = aggregates ++ new
    /\ Forall (fun a => In (seed_of a) a /\ In (seed_of a) L
                        /\ forall x, In x a -> (seed_of a <= x)%Z) new
    /\ StronglySorted Z.lt (map seed_of new).
Proof.
  induction fuel as [|fuel IH]; intros L aggregates result Hnd Hc Hs Hlen Hr.
  - destruct L; [|simpl in Hlen; lia]. injection Hr as <-. exists [].
    rewrite app_nil_r. repeat constructor.
  - destruct L as [|first L0].
    { injection Hr as <-. exists []. rewrite app_nil_r. repeat constructor. }
    destruct (in_dec Z.eq_dec first (nodes G)) as [Hin|Hnin].
    + destruct (partition_loop_turn fuel first L0 aggregates Hnd Hc Hin)
        as [ys [Hcomp [[out ->] [Hys [Hnd' [Hc' [Hlen' Heq]]]]]]].
      rewrite Heq in Hr.
      destruct (IH _ _ _ Hnd' Hc' (StronglySorted_filter _ _ Hs)
                  ltac:(simpl in Hlen; lia) Hr)
        as [new [-> [Hall Hsorted]]].
      apply StronglySorted_inv in Hs. destruct Hs as [_ Hfirst].
      rewrite Forall_forall in Hfirst.
      assert (Hseed : seed_of (out ++ [first]) = first)
        by (unfold seed_of; apply last_last).
      exists ((out ++ [first]) :: new). rewrite <- app_assoc.
      split; [reflexivity|]. split.
      * constructor.
        -- rewrite Hseed. split; [apply in_app_iff; right; now left|].
           split; [now left|]. intros x Hx. destruct (Hys x Hx) as [<-|Hx0];
             [lia | specialize (Hfirst x Hx0); lia].
        -- eapply Forall_impl; [|exact Hall]. intros a [Ha [HaL Hmin]].
           split; [exact Ha | split; [|exact Hmin]].
           apply In_without in HaL. tauto.
      * cbn [map]. rewrite Hseed. constructor; [exact Hsorted|].
        apply Forall_forall. intros z Hz. apply in_map_iff in Hz.
        destruct Hz as [a [<- Ha]]. rewrite Forall_forall in Hall.
        destruct (Hall a Ha) as [_ [HaL _]]. apply In_without in HaL.
        destruct HaL as [[Heq'|HaL0] Hnot].
        -- exfalso. apply Hnot. rewrite <- Heq'. apply in_app_iff. right. now left.
        -- now apply Hfirst.
    + cbn [partition_loop] in Hr.
      rewrite (dfs_postorder_nodes_missing G first Hnin) in Hr. discriminate Hr.
Qed.

End Loop.

(** ** Lookup in a dict in insertion order *)

Lemma dict_get_app {V} (l1 l2 : list (string * V)) k :
  dict_get (l1 ++ l2) k =
  match dict_get l1 k with Some v => Some v | None => dict_get l2 k end.
Proof.
  induction l1 as [|[k' v'] l1 IH]; simpl; [reflexivity|].
  destruct (String.eqb k' k); [reflexivity | exact IH].
Qed.

Lemma dict_get_dict_set {V} (d : list (string * V)) k0 v0 k :
  dict_get (dict_set d k0 v0) k =
  if String.eqb k0 k then Some v0 else dict_get d k.
Proof.
  induction d as [|[k' v'] d IH]; simpl; [reflexivity|].
  destruct (String.eqb_spec k' k0) as [->|Hne]; simpl.
  - destruct (String.eqb k0 k); reflexivity.
  - rewrite IH. destruct (String.eqb_spec k' k) as [->|Hne'];
      [|reflexivity].
    destruct (String.eqb_spec k0 k); [congruence | reflexivity].
Qed.

(** After a run of assignments a key holds what was assigned to it last,
    or what it held before. *)
Lemma dict_get_set_all {V} (kvs : list (string * V)) : forall d k,
  dict_get (set_all kvs d) k =
  match dict_get (rev kvs) k with Some v => Some v | None => dict_get d k end.
Proof.
  induction kvs as [|[k0 v0] kvs IH]; intros d k; simpl; [reflexivity|].
  rewrite IH, dict_get_app, dict_get_dict_set. simpl.
  destruct (dict_get (rev kvs) k); [reflexivity|].
  destruct (String.eqb k0 k); reflexivity.
Qed.

Lemma dict_get_absent {V} (l : list (string * V)) k :
  (forall kv, In kv l -> fst kv <> k) -> dict_get l k = None.
Proof.
  induction l as [|[k' v'] l IH]; simpl; intros H; [reflexivity|].
  destruct (String.eqb_spec k' k) as [->|Hne].
  - exfalso. now apply (H (k, v') (or_introl eq_refl)).
  - apply IH. intros kv Hkv. apply H. now right.
Qed.

Lemma dict_get_present {V} (d : list (string * V)) k :
  In k (dict_keys d) -> exists v, dict_get d k = Some v /\ In (k, v) d.
Proof.
  unfold dict_keys. induction d as [|[k' v'] d IH]; simpl; [contradiction|].
  intros Hin. destruct (String.eqb_spec k' k) as [->|Hne].
  - exists v'. split; [reflexivity | now left].
  - destruct Hin as [Heq|Hin]; [congruence|].
    destruct (IH Hin) as [v [Hget Hv]]. exists v. split; [exact Hget | now right].
Qed.

Lemma combine_app_same {A B} (a : list A) : forall (a' : list B) b b',
  List.length a = List.length a' ->
  combine (a ++ b) (a' ++ b') = combine a a' ++ combine b b'.
Proof.
  induction a as [|x a IH]; intros [|y a'] b b' Hlen; simpl in *;
    try discriminate; [reflexivity|].
  f_equal. apply IH. now injection Hlen.
Qed.

Lemma Forall2_In_l {A B} (P : A -> B -> Prop) l vs a :
  Forall2 P l vs -> In a l -> exists v, In v vs /\ P a v.
Proof.
  induction 1 as [|x y l vs Hxy _ IH]; simpl; [contradiction|].
  intros [<-|Hin]; [exists y; auto|].
  destruct (IH Hin) as [v [Hv Hp]]. exists v. auto.
Qed.

Lemma Forall2_In_r {A B} (P : A -> B -> Prop) l vs v :
  Forall2 P l vs -> In v vs -> exists a, In a l /\ P a v.
Proof.
  induction 1 as [|x y l vs Hxy _ IH]; simpl; [contradiction|].
  intros [<-|Hin]; [exists x; auto|].
  destruct (IH Hin) as [a [Ha Hp]]. exists a. auto.
Qed.

(** ** The frame *)

Section Frame.

Variable N : mda.Numerics.
Variable ts : mda.Timestep N.
Variable r : mda.float N.
Variable indices : list Z.

Lemma edge_linked u v :
  edge (build_graph (calculate_neighborlists_from_distances N indices ts r)) u v
  <-> linked N ts r indices u v.
Proof.
  rewrite (proj2 (proj2 (build_graph_spec _))), !In_pairs_of.
  unfold linked. split.
  - intros [[Hu [Hv [Hne Hw]]]|[Hv [Hu [Hne Hw]]]]; repeat split; auto.
  - intros [Hu [Hv [Hne [Hw|Hw]]]]; [left | right]; repeat split; auto.
Qed.

Lemma reach_connected s v :
  reach (build_graph (calculate_neighborlists_from_distances N indices ts r)) s v
  <-> connected N ts r indices s v.
Proof.
  split; induction 1; try constructor.
  - eapply connected_step; [eassumption | now apply edge_linked].
  - eapply reach_step; [eassumption | now apply edge_linked].
Qed.

End Frame.

Lemma selected_atoms_sorted N (u : mda.Universe N) selection indices :
  selected_atoms N u selection = Returns indices ->
  StronglySorted Z.lt indices.
Proof.
  unfold selected_atoms, mda.select_atoms, mda.atoms_indices.
  destruct selection as [sel|].
  - destruct (mda.select u sel); [|discriminate].
    intros [= <-]. apply StronglySorted_filter, StronglySorted_seq_Z.
  - intros [= <-]. apply StronglySorted_seq_Z.
Qed.

Section Properties.

Variable N : mda.Numerics.

(** X1.  The aggregates are the classes of particles connected by chains of
    neighbours: a particle of an aggregate has in its aggregate exactly the
    selected particles that can be reached from it through neighbour
    pairs. *)
Theorem aggregates_are_components (u : mda.Universe N) selection indices
  ts r aggregates :
  selected_atoms N u selection = Returns indices ->
  frame_aggregates N indices ts r = Returns aggregates ->
  forall a i j, In a aggregates -> In i a ->
    (In j a <-> connected N ts r indices i j).
Proof.
  intros Hsel Hf a i j Ha Hi.
  pose proof (selected_atoms_NoDup N u selection indices Hsel) as Hnd.
  destruct (frame_aggregates_cases N ts r indices Hnd)
    as [[aggregates' [Hr [_ [_ Hcomps]]]]|[k [Hr _]]]; [|congruence].
  rewrite Hf in Hr. injection Hr as <-.
  rewrite Forall_forall in Hcomps.
  destruct (Hcomps a Ha) as [s [_ [_ Hreach]]].
  pose proof (proj1 (build_graph_spec
    (calculate_neighborlists_from_distances N indices ts r))) as HG.
  rewrite <- reach_connected. apply Hreach in Hi. rewrite Hreach. split.
  - intros Hj. eapply reach_trans; [apply reach_sym; eassumption | exact Hj].
  - intros Hij. eapply reach_trans; eassumption.
Qed.

(** X2.  When a frame has selected particles without neighbour, the
    KeyError names the first of them in the order of the selection. *)
Theorem first_isolated_raises (u : mda.Universe N) selection indices ts r
  before k after :
  selected_atoms N u selection = Returns indices ->
  indices = before ++ k :: after ->
  isolated N ts r indices k ->
  (forall j, In j before -> has_neighbour N ts r indices j) ->
  frame_aggregates N indices ts r = Raises (KeyError k).
Proof.
  intros Hsel Hsplit Hiso Hbefore.
  pose proof (selected_atoms_NoDup N u selection indices Hsel) as Hnd.
  assert (Hk : In k indices) by (rewrite Hsplit; apply in_app_iff; right; now left).
  destruct (frame_aggregates_cases N ts r indices Hnd)
    as [[aggregates [_ [_ [Hall _]]]]|[k' [Hr _]]].
  { apply isolated_no_neighbour in Hiso. destruct (Hiso (Hall k Hk)). }
  rewrite Hr. do 2 f_equal.
  unfold frame_aggregates in Hr.
  destruct (partition_loop_first_missing _ (proj1 (build_graph_spec _)) _ _ _ _
              Hnd (frame_graph_closed N ts r indices) (le_n _) Hr)
    as [b' [a' [Hsplit' [Hk' Hb']]]].
  rewrite Hsplit in Hsplit'.
  destruct (two_splits _ _ _ _ _ _ Hsplit') as [Heq|[Hin|Hin]];
    [symmetry; exact Heq| |].
  - exfalso. apply Hk'. apply frame_graph_node. split; [|now apply Hbefore].
    rewrite Hsplit. apply in_app_iff. now left.
  - exfalso. apply isolated_no_neighbour in Hiso. apply Hiso.
    exact (proj2 (proj1 (frame_graph_node N ts r indices k) (Hb' k Hin))).
Qed.

(** X3.  determine_aggregates returns a document exactly when the selection
    is accepted and, in every frame of the trajectory, every selected
    particle has a neighbour. *)
Theorem determine_aggregates_returns_iff (u : mda.Universe N) r selection :
  (exists document, determine_aggregates N u r selection = Returns document)
  <-> exists indices,
        selected_atoms N u selection = Returns indices
        /\ forall ts k, In ts (mda.trajectory u) -> In k indices ->
                        has_neighbour N ts r indices k.
Proof.
  destruct (determine_aggregates_cases N u r selection)
    as [[indices [values [Hsel [Hall Hdoc]]]]
       |[[indices [ts [k [Hsel [Hts [Hk [Hiso Hr]]]]]]]|[Hsel Hr]]].
  - split; [|eauto]. intros _. exists indices. split; [exact Hsel|].
    intros ts k Hts Hk.
    destruct (Forall2_In_l _ _ _ _ Hall Hts) as [v [_ [aggregates [Hf _]]]].
    pose proof (selected_atoms_NoDup N u selection indices Hsel) as Hnd.
    destruct (frame_aggregates_cases N ts r indices Hnd)
      as [[aggregates' [_ [_ [Hn _]]]]|[k' [Hr' _]]]; [auto | congruence].
  - split; [intros [document Hd]; congruence|].
    intros [indices' [Hsel' Hn]]. rewrite Hsel in Hsel'. injection Hsel' as <-.
    apply isolated_no_neighbour in Hiso. destruct (Hiso (Hn ts k Hts Hk)).
  - split; [intros [document Hd]; congruence|].
    intros [indices' [Hsel' _]]. congruence.
Qed.

(** X4.  Every aggregate ends with the index its traversal was seeded at,
    which is the smallest index of the aggregate, and the aggregates of a
    frame are listed in the increasing order of these indices. *)
Theorem aggregates_in_seed_order (u : mda.Universe N) selection indices
  ts r aggregates :
  selected_atoms N u selection = Returns indices ->
  frame_aggregates N indices ts r = Returns aggregates ->
  Forall (fun a => In (seed_of a) a
                   /\ forall x, In x a -> (seed_of a <= x)%Z) aggregates
  /\ StronglySorted Z.lt (map seed_of aggregates).
Proof.
  intros Hsel Hf. unfold frame_aggregates in Hf.
  destruct (partition_loop_order _ (proj1 (build_graph_spec _)) _ _ _ _
              (selected_atoms_NoDup N u selection indices Hsel)
              (frame_graph_closed N ts r indices)
              (selected_atoms_sorted N u selection indices Hsel)
              (le_n _) Hf)
    as [new [-> [Hall Hsorted]]].
  split; [|exact Hsorted].
  eapply Forall_impl; [|exact Hall]. intros a [Ha [_ Hmin]]. auto.
Qed.

(** X5.  In the returned data, the key of a frame holds the aggregates of
    the last frame of the trajectory with that textual form; when no later
    frame has the same textual form, it holds the aggregates of the frame
    itself. *)
Theorem data_lookup_last_frame (u : mda.Universe N) r selection document
  before ts after :
  determine_aggregates N u r selection = Returns document ->
  mda.trajectory u = before ++ ts :: after ->
  (forall ts', In ts' after -> mda.str_Timestep N ts' <> mda.str_Timestep N ts) ->
  exists indices data aggregates,
    selected_atoms N u selection = Returns indices
    /\ document = PyDict [("description"%string, PyStr (describe N r selection));
                          ("data"%string, PyDict data)]
    /\ frame_aggregates N indices ts r = Returns aggregates
    /\ dict_get data (mda.str_Timestep N ts) = Some (aggregates_value aggregates).
Proof.
  intros Hret Hsplit Hlast.
  destruct (determine_aggregates_cases N u r selection)
    as [[indices [values [Hsel [Hall Hdoc]]]]
       |[[indices [ts0 [k [_ [_ [_ [_ Hr]]]]]]]|[_ Hr]]]; try congruence.
  rewrite Hdoc in Hret. injection Hret as <-. rewrite Hsplit in Hall |- *.
  apply Forall2_app_inv_l in Hall.
  destruct Hall as [vb [vrest [Hb [Hrest ->]]]].
  inversion Hrest as [|? v ? va [aggregates [Hf ->]] Ha]; subst.
  exists indices. eexists. exists aggregates.
  split; [exact Hsel|]. split; [reflexivity|]. split; [exact Hf|].
  rewrite dict_get_set_all, map_app. cbn [map].
  rewrite combine_app_same
    by (rewrite length_map; eapply Forall2_length; eassumption).
  cbn [combine]. rewrite rev_app_distr. cbn [rev].
  rewrite <- app_assoc, dict_get_app, dict_get_absent.
  - simpl. now rewrite String.eqb_refl.
  - intros [k v] Hkv. apply in_rev in Hkv. apply in_combine_l in Hkv.
    apply in_map_iff in Hkv. destruct Hkv as [ts' [<- Hts']]. simpl.
    now apply Hlast.
Qed.

(** X6.  When no atom is selected, determine_aggregates returns a document
    in which every frame of the trajectory has the empty list of
    aggregates. *)
Theorem no_atoms_no_aggregates (u : mda.Universe N) r selection :
  selected_atoms N u selection = Returns [] ->
  exists data,
    determine_aggregates N u r selection
    = Returns (PyDict [("description"%string, PyStr (describe N r selection));
                       ("data"%string, PyDict data)])
    /\ (forall key value, In (key, value) data -> value = PyList [])
    /\ (forall ts, In ts (mda.trajectory u) ->
                   dict_get data (mda.str_Timestep N ts) = Some (PyList [])).
Proof.
  intros Hsel.
  destruct (determine_aggregates_cases N u r selection)
    as [[indices [values [Hsel' [Hall Hdoc]]]]
       |[[indices [ts0 [k [Hsel' [_ [Hk _]]]]]]|[Hsel' _]]]; try congruence.
  2:{ rewrite Hsel in Hsel'. injection Hsel' as <-. destruct Hk. }
  rewrite Hsel in Hsel'. injection Hsel' as <-.
  eexists. split; [exact Hdoc|].
  assert (Hvalues : forall key value,
             In (key, value)
                (set_all (combine (map (mda.str_Timestep N) (mda.trajectory u))
                                  values) []) ->
             value = PyList []).
  { intros key value Hin. apply In_set_all in Hin. destruct Hin as [[]|Hin].
    apply in_combine_r in Hin.
    destruct (Forall2_In_r _ _ _ _ Hall Hin) as [ts [_ [aggregates [Hf ->]]]].
    cbv in Hf. injection Hf as <-. reflexivity. }
  split; [exact Hvalues|]. intros ts Hts.
  destruct (dict_get_present
              (set_all (combine (map (mda.str_Timestep N) (mda.trajectory u))
                                values) [])
              (mda.str_Timestep N ts)) as [v [Hget Hv]].
  - rewrite dict_keys_set_all. simpl.
    rewrite (Forall2_combine_keys _ _ _ _ Hall).
    rewrite filter_keep_all by reflexivity.
    apply In_first_occurrences, in_map, Hts.
  - rewrite Hget. f_equal. eapply Hvalues. exact Hv.
Qed.

(** X7.  The graph built for a frame has every node once; its edges are the
    pairs of linked particles, in both directions, and none joins a
    particle to itself; its nodes are the selected particles that have a
    neighbour. *)
Theorem frame_graph_shape ts r indices :
  NoDup (nodes (build_graph
                  (calculate_neighborlists_from_distances N indices ts r)))
  /\ (forall u v,
        edge (build_graph
                (calculate_neighborlists_from_distances N indices ts r)) u v
        <-> linked N ts r indices u v)
  /\ (forall u,
        ~ edge (build_graph
                  (calculate_neighborlists_from_distances N indices ts r)) u u)
  /\ (forall k,
        In k (nodes (build_graph
                       (calculate_neighborlists_from_distances N indices ts r)))
        <-> In k indices /\ has_neighbour N ts r indices k).
Proof.
  split; [apply (proj1 (build_graph_spec _))|].
  split; [apply edge_linked|]. split.
  - intros v Hv. apply edge_linked in Hv. destruct Hv as [_ [_ [Hne _]]].
    now apply Hne.
  - apply frame_graph_node.
Qed.

(** X8.  Whatever the words of the command line, the process ends, and in
    one of these ways: a usage error, the help, the traceback of an
    unreadable input, of a rejected selection or of the KeyError of an
    isolated particle, the printed document, or, when the command line
    was accepted with the cutoff None (--r_neigh without a word), as the
    analysis without cutoff ends.  Neither the parser nor the analysis
    runs out of the fuel of its loops. *)
Theorem main_outcomes (load : list string -> option (mda.Universe N))
  (without_cutoff : mda.Universe N -> option string -> process_result)
  (argv : list string) :
  main N load without_cutoff argv = UsageError
  \/ main N load without_cutoff argv = HelpPrinted
  \/ main N load without_cutoff argv = Traceback OSError
  \/ main N load without_cutoff argv = Traceback SelectionError
  \/ (exists k, main N load without_cutoff argv = Traceback (KeyError k))
  \/ (exists document, main N load without_cutoff argv = Printed document)
  \/ (exists files u sel,
        parse_args N argv
        = Goes_on {| input := files; r_neigh := None; selection := sel |}
        /\ load files = Some u
        /\ main N load without_cutoff argv = without_cutoff u sel).
Proof.
  unfold main. pose proof (parse_args_ends N argv) as Hends.
  destruct (parse_args N argv) as [[files [r0|] sel]|status|];
    [| | |congruence].
  - cbn [input r_neigh selection]. destruct (load files) as [u|]; [|tauto].
    destruct (determine_aggregates_cases N u r0 sel)
      as [[indices [values [_ [_ Hr]]]]
         |[[indices [ts [k [_ [_ [_ [_ Hr]]]]]]]|[_ Hr]]]; rewrite Hr;
      cbn [report]; eauto 10.
  - cbn [input r_neigh selection].
    destruct (load files) as [u|] eqn:Hload; [|tauto].
    do 6 right. exists files, u, sel. auto.
  - destruct (status =? 0)%Z; tauto.
Qed.


End Properties.

(** *** Runs on the particles on a line *)

(** X1, at the second frame of the two-frame trajectory. *)
Lemma aggregates_are_components_witness :
  selected_atoms line.numerics line.two_frames None = Returns [0; 1; 2; 3]%Z
  /\ frame_aggregates line.numerics [0; 1; 2; 3]%Z
       {| line.frame := 1; line.x := [0; 10; 100; 110]%Z |} 12%Z
     = Returns [[1; 0]; [3; 2]]%Z
  /\ forall a i j, In a [[1; 0]; [3; 2]]%Z -> In i a ->
       (In j a <-> connected line.numerics
                     {| line.frame := 1; line.x := [0; 10; 100; 110]%Z |}
                     12%Z [0; 1; 2; 3]%Z i j).
Proof.
  split; [reflexivity|]. split; [reflexivity|].
  apply (aggregates_are_components line.numerics line.two_frames None
           [0; 1; 2; 3]%Z
           {| line.frame := 1; line.x := [0; 10; 100; 110]%Z |} 12%Z
           [[1; 0]; [3; 2]]%Z); reflexivity.
Defined.

(** X2, at the pair and the loner. *)
Lemma first_isolated_raises_witness :
  selected_atoms line.numerics line.pair_and_loner None = Returns [0; 1; 2]%Z
  /\ [0; 1; 2]%Z = [0; 1]%Z ++ 2%Z :: []
  /\ isolated line.numerics {| line.frame := 0; line.x := [0; 10; 500]%Z |}
       12%Z [0; 1; 2]%Z 2%Z
  /\ (forall j, In j [0; 1]%Z ->
        has_neighbour line.numerics
          {| line.frame := 0; line.x := [0; 10; 500]%Z |} 12%Z [0; 1; 2]%Z j)
  /\ frame_aggregates line.numerics [0; 1; 2]%Z
       {| line.frame := 0; line.x := [0; 10; 500]%Z |} 12%Z
     = Raises (KeyError 2).
Proof.
  assert (Hiso : isolated line.numerics
                   {| line.frame := 0; line.x := [0; 10; 500]%Z |}
                   12%Z [0; 1; 2]%Z 2%Z).
  { intros j [<-|[<-|[<-|[]]]] Hne; [split; reflexivity .. | congruence]. }
  assert (Hn : forall j, In j [0; 1]%Z ->
             has_neighbour line.numerics
               {| line.frame := 0; line.x := [0; 10; 500]%Z |}
               12%Z [0; 1; 2]%Z j).
  { intros j [<-|[<-|[]]].
    - exists 1%Z. split; [simpl; auto | split; [discriminate | now left]].
    - exists 0%Z. split; [simpl; auto | split; [discriminate | now left]]. }
  split; [reflexivity|]. split; [reflexivity|]. split; [exact Hiso|].
  split; [exact Hn|].
  exact (first_isolated_raises line.numerics line.pair_and_loner None
           [0; 1; 2]%Z {| line.frame := 0; line.x := [0; 10; 500]%Z |} 12%Z
           [0; 1]%Z 2%Z [] eq_refl eq_refl Hiso Hn).
Defined.

(** X4, at the second frame of the two-frame trajectory. *)
Lemma aggregates_in_seed_order_witness :
  selected_atoms line.numerics line.two_frames None = Returns [0; 1; 2; 3]%Z
  /\ frame_aggregates line.numerics [0; 1; 2; 3]%Z
       {| line.frame := 1; line.x := [0; 10; 100; 110]%Z |} 12%Z
     = Returns [[1; 0]; [3; 2]]%Z
  /\ Forall (fun a => In (seed_of a) a
                      /\ forall x, In x a -> (seed_of a <= x)%Z)
            [[1; 0]; [3; 2]]%Z
  /\ StronglySorted Z.lt (map seed_of [[1; 0]; [3; 2]]%Z).
Proof.
  split; [reflexivity|]. split; [reflexivity|].
  apply (aggregates_in_seed_order line.numerics line.two_frames None
           [0; 1; 2; 3]%Z
           {| line.frame := 1; line.x := [0; 10; 100; 110]%Z |} 12%Z
           [[1; 0]; [3; 2]]%Z); reflexivity.
Defined.

(** X5, at the second frame of the two-frame trajectory. *)
Lemma data_lookup_last_frame_witness :
  determine_aggregates line.numerics line.two_frames 12%Z None
  = Returns line_runs.two_frames_document
  /\ mda.trajectory line.two_frames
     = [{| line.frame := 0; line.x := [0; 10; 20; 30]%Z |}]
       ++ {| line.frame := 1; line.x := [0; 10; 100; 110]%Z |} :: []
  /\ (forall ts', In ts' [] ->
        mda.str_Timestep line.numerics ts'
        <> mda.str_Timestep line.numerics
             {| line.frame := 1; line.x := [0; 10; 100; 110]%Z |})
  /\ exists indices data aggregates,
      selected_atoms line.numerics line.two_frames None = Returns indices
      /\ line_runs.two_frames_document
         = PyDict [("description"%string,
                    PyStr (describe line.numerics 12%Z None));
                   ("data"%string, PyDict data)]
      /\ frame_aggregates line.numerics indices
           {| line.frame := 1; line.x := [0; 10; 100; 110]%Z |} 12%Z
         = Returns aggregates
      /\ dict_get data
           (mda.str_Timestep line.numerics
              {| line.frame := 1; line.x := [0; 10; 100; 110]%Z |})
         = Some (aggregates_value aggregates).
Proof.
  split; [reflexivity|]. split; [reflexivity|].
  split; [intros ts' []|].
  apply (data_lookup_last_frame line.numerics line.two_frames 12%Z None
           line_runs.two_frames_document
           [{| line.frame := 0; line.x := [0; 10; 20; 30]%Z |}]
           {| line.frame := 1; line.x := [0; 10; 100; 110]%Z |} []);
    [reflexivity | reflexivity | intros ts' []].
Defined.

(** X6, at the selection that matches nothing. *)
Lemma no_atoms_no_aggregates_witness :
  selected_atoms line.numerics line.two_frames (Some "none"%string) = Returns []
  /\ exists data,
      determine_aggregates line.numerics line.two_frames 12%Z (Some "none"%string)
      = Returns (PyDict [("description"%string,
                          PyStr (describe line.numerics 12%Z (Some "none"%string)));
                         ("data"%string, PyDict data)])
      /\ (forall key value, In (key, value) data -> value = PyList [])
      /\ (forall ts, In ts (mda.trajectory line.two_frames) ->
            dict_get data (mda.str_Timestep line.numerics ts) = Some (PyList [])).
Proof.
  split; [reflexivity|].
  apply (no_atoms_no_aggregates line.numerics line.two_frames 12%Z
           (Some "none"%string)).
  reflexivity.
Defined.


End aggregation_extras.

(** * Further properties of the configuration generator *)

Module generator_extras.
Import generator generator_notions placement_notions.
Import slice_facts chain_facts molecule_facts.
Local Open Scope R_scope.

(** ** Lists made molecule by molecule *)

Lemma concat_map_from {A B} (f : A -> list B) (g : nat -> list B) ms :
  forall a,
  (forall k m, nth_error ms k = Some m -> f m = g (a + k)%nat) ->
  List.concat (map f ms) = flat_map g (seq a (List.length ms)).
Proof.
  induction ms as [|m ms IH]; intros a H; simpl; [reflexivity|].
  rewrite (H O m eq_refl), Nat.add_0_r. f_equal.
  apply IH. intros k m' Hk. rewrite (H (S k) m' Hk). f_equal. lia.
Qed.

Lemma concat_map_by_index {A B} (f : A -> list B) (g : nat -> list B) ms :
  (forall k m, nth_error ms k = Some m -> f m = g k) ->
  List.concat (map f ms) = flat_map g (seq 0 (List.length ms)).
Proof. intros H. apply concat_map_from. exact H. Qed.

Lemma length_flat_map_const {A B} (g : A -> list B) n l :
  (forall a, In a l -> List.length (g a) = n) ->
  List.length (flat_map g l) = (List.length l * n)%nat.
Proof.
  induction l as [|a l IH]; intros H; simpl; [reflexivity|].
  rewrite length_app, (H a (or_introl eq_refl)), IH; [reflexivity|].
  intros b Hb. apply H. now right.
Qed.

Lemma map_const_repeat {A B} (b : B) (l : list A) :
  map (fun _ => b) l = repeat b (List.length l).
Proof. induction l; simpl; [reflexivity | now f_equal]. Qed.

Lemma Forall_flat_map {A B} (P : B -> Prop) (g : A -> list B) l :
  (forall a, In a l -> Forall P (g a)) -> Forall P (flat_map g l).
Proof.
  induction l as [|a l IH]; intros H; simpl; [constructor|].
  apply Forall_app. split; [apply H; now left | apply IH; intros; apply H; now right].
Qed.

Section Layout.

Variable E : Randomness.

(** ** Atom indices and bonds of a chain *)

Lemma atom_loop_ix tok count : forall iatom xyz ix0 np0,
  ix_of (atom_loop E tok count iatom xyz ix0 np0) = (ix0 + Z.of_nat count)%Z.
Proof.
  induction count as [|count IH]; intros iatom xyz ix0 np0.
  - unfold ix_of. simpl. lia.
  - rewrite atom_loop_S. cbv zeta. unfold ix_of at 1. cbn [fst snd].
    rewrite IH. lia.
Qed.

Lemma atom_loop_bonds_later tok count : forall iatom xyz ix0 np0,
  (0 < iatom)%nat ->
  bonds_of (atom_loop E tok count iatom xyz ix0 np0)
  = map (fun j => ((ix0 + Z.of_nat j - 1)%Z, (ix0 + Z.of_nat j)%Z)) (seq 0 count).
Proof.
  induction count as [|count IH]; intros iatom xyz ix0 np0 Hi; [reflexivity|].
  rewrite atom_loop_S. cbv zeta. unfold bonds_of at 1. cbn [fst snd].
  apply Nat.ltb_lt in Hi. rewrite Hi. rewrite IH by lia.
  cbn [seq map app]. f_equal.
  - f_equal; lia.
  - rewrite <- seq_shift, map_map. apply map_ext. intros j. f_equal; lia.
Qed.

(** The bonds of a chain join each atom but the first to the atom made
    before it. *)
Lemma atom_loop_bonds tok xyz ix0 np0 :
  bonds_of (atom_loop E tok NPOLY 0 xyz ix0 np0) = bonds_from ix0.
Proof.
  unfold NPOLY. rewrite atom_loop_S. cbv zeta. unfold bonds_of at 1.
  cbn [fst snd Nat.ltb Nat.leb app]. rewrite atom_loop_bonds_later by lia.
  unfold bonds_from, NPOLY. cbn [Nat.sub]. apply map_ext. intros j. f_equal; lia.
Qed.

(** What a turn of the loop over the molecules records, beside the
    coordinates: the residue number, the number of atoms and the bonds. *)
Lemma molecule_loop_layout tok shared count : forall imol st ms,
  molecule_loop E tok shared count imol st = Some ms ->
  forall k m, nth_error ms k = Some m ->
    resid E m = (Z.of_nat (imol + k) + 1)%Z
    /\ List.length (local_positions E m) = NPOLY
    /\ molecule_bonds E m = bonds_from (ix E st + Z.of_nat (NPOLY * k))%Z.
Proof.
  induction count as [|count IH]; intros imol st ms Hms k m Hk.
  - injection Hms as <-. destruct k; discriminate Hk.
  - rewrite molecule_loop_S, place_molecule_eq in Hms. cbv zeta in Hms.
    pose proof (atom_loop_length E tok NPOLY 0 (0, 0, 0) (ix E st) (np E st))
      as Hlen0.
    pose proof (atom_loop_bonds tok (0, 0, 0) (ix E st) (np E st)) as Hbonds0.
    pose proof (atom_loop_ix tok NPOLY 0 (0, 0, 0) (ix E st) (np E st)) as Hix0.
    remember (atom_loop E tok NPOLY 0 (0, 0, 0) (ix E st) (np E st)) as al
      eqn:Hal.
    clear Hal.
    destruct (if is_disordered tok
              then Some (fst (Rotation_random E (np_of al)))
              else shared) as [rot|]; [|discriminate Hms].
    match type of Hms with
    | context [molecule_loop E tok shared count (S imol) ?st'] =>
        destruct (molecule_loop E tok shared count (S imol) st') as [ms'|] eqn:Hrest;
          [|discriminate Hms]
    end.
    injection Hms as <-. destruct k as [|k]; cbn [nth_error] in Hk.
    + injection Hk as <-. cbn [resid local_positions molecule_bonds].
      split; [f_equal; lia|]. split; [exact Hlen0|].
      rewrite Hbonds0. f_equal. lia.
    + destruct (IH _ _ _ Hrest k m Hk) as [Hres [Hlen Hbonds]].
      split; [rewrite Hres; f_equal; lia|]. split; [exact Hlen|].
      rewrite Hbonds. cbn [ix]. rewrite Hix0. f_equal. lia.
Qed.

Lemma molecules_layout tok np0 ms :
  molecules E tok np0 = Some ms ->
  forall k m, nth_error ms k = Some m ->
    resid E m = (Z.of_nat k + 1)%Z
    /\ List.length (local_positions E m) = NPOLY
    /\ molecule_bonds E m = bonds_from (Z.of_nat (NPOLY * k)).
Proof.
  unfold molecules. intros Hms k m Hk.
  destruct (negb (is_disordered tok)).
  - destruct (Rotation_random E np0) as [rot np1].
    exact (molecule_loop_layout _ _ _ _ _ _ Hms k m Hk).
  - exact (molecule_loop_layout _ _ _ _ _ _ Hms k m Hk).
Qed.

(** The run and its molecules, with their layout. *)
Lemma run_layout tok np0 :
  exists ms,
    molecules E tok np0 = Some ms
    /\ main E tok np0 = Some (assemble E ms)
    /\ List.length ms = NMOL
    /\ forall k m, nth_error ms k = Some m ->
         resid E m = (Z.of_nat k + 1)%Z
         /\ List.length (local_positions E m) = NPOLY
         /\ molecule_bonds E m = bonds_from (Z.of_nat (NPOLY * k)).
Proof.
  destruct (molecules_spec E tok np0) as [ms [Hms [Hlen _]]].
  exists ms. split; [exact Hms|]. split; [unfold main; now rewrite Hms|].
  split; [exact Hlen|]. exact (molecules_layout tok np0 ms Hms).
Qed.

Lemma length_bonds_from base : List.length (bonds_from base) = (NPOLY - 1)%nat.
Proof. unfold bonds_from. now rewrite length_map, length_seq. Qed.

(** X9.  The configuration handed to the writer has NMOL * NPOLY particles:
    as many positions, types, masses and residue numbers; every type is
    "1" and every mass 1.  It has NMOL * (NPOLY - 1) bonds, each of type
    "1", and the box of the constant CELL. *)
Theorem written_sizes tok np0 :
  exists c,
    main E tok np0 = Some c
    /\ List.length (positions c) = (NMOL * NPOLY)%nat
    /\ List.length (types c) = (NMOL * NPOLY)%nat
    /\ List.length (masses c) = (NMOL * NPOLY)%nat
    /\ List.length (resids c) = (NMOL * NPOLY)%nat
    /\ List.length (bonds c) = (NMOL * (NPOLY - 1))%nat
    /\ List.length (bond_types c) = (NMOL * (NPOLY - 1))%nat
    /\ Forall (eq "1"%string) (types c)
    /\ Forall (eq 1) (masses c)
    /\ Forall (eq "1"%string) (bond_types c)
    /\ dimensions c = CELL.
Proof.
  destruct (run_layout tok np0) as [ms [_ [Hmain [Hlen Hlay]]]].
  exists (assemble E ms). split; [exact Hmain|].
  assert (Hsize : forall {B} (f : Molecule E -> list B),
             (forall m, List.length (f m) = List.length (local_positions E m)) ->
             List.length (List.concat (map f ms)) = (NMOL * NPOLY)%nat).
  { intros B f Hf. rewrite <- flat_map_concat_map, <- Hlen.
    apply length_flat_map_const. intros m Hm. rewrite Hf.
    apply In_nth_error in Hm. destruct Hm as [k Hk]. now apply (Hlay k m Hk). }
  assert (Hbonds : List.length (List.concat (map (molecule_bonds E) ms))
                   = (NMOL * (NPOLY - 1))%nat).
  { rewrite <- flat_map_concat_map, <- Hlen.
    apply length_flat_map_const. intros m Hm.
    apply In_nth_error in Hm. destruct Hm as [k Hk].
    destruct (Hlay k m Hk) as [_ [_ ->]]. apply length_bonds_from. }
  cbn [assemble positions types masses resids bonds bond_types dimensions].
  repeat split.
  - apply Hsize. intros m. unfold placed_positions. apply length_map.
  - apply Hsize. intros m. apply length_map.
  - apply Hsize. intros m. apply length_map.
  - apply Hsize. intros m. apply length_map.
  - exact Hbonds.
  - rewrite length_map. exact Hbonds.
  - rewrite <- flat_map_concat_map. apply Forall_flat_map. intros m _.
    apply Forall_forall. intros t Ht. apply in_map_iff in Ht.
    destruct Ht as [? [<- _]]. reflexivity.
  - rewrite <- flat_map_concat_map. apply Forall_flat_map. intros m _.
    apply Forall_forall. intros t Ht. apply in_map_iff in Ht.
    destruct Ht as [? [<- _]]. reflexivity.
  - apply Forall_forall. intros t Ht. apply in_map_iff in Ht.
    destruct Ht as [? [<- _]]. reflexivity.
Qed.

(** X10.  The bonds are written molecule by molecule: molecule [k] gives
    the bonds that join each of its atoms but the last to the next one.  So
    a bond joins two consecutive atom indices of one molecule, and no bond
    joins two molecules. *)
Theorem written_bonds tok np0 :
  exists c,
    main E tok np0 = Some c
    /\ bonds c = flat_map (fun k => bonds_from (Z.of_nat (NPOLY * k)))
                          (seq 0 NMOL)
    /\ forall a b, In (a, b) (bonds c) ->
         (b = a + 1
          /\ a / Z.of_nat NPOLY = b / Z.of_nat NPOLY
          /\ 0 <= a /\ b < Z.of_nat (NMOL * NPOLY))%Z.
Proof.
  destruct (run_layout tok np0) as [ms [_ [Hmain [Hlen Hlay]]]].
  exists (assemble E ms). split; [exact Hmain|].
  assert (Hbonds : bonds (assemble E ms)
                   = flat_map (fun k => bonds_from (Z.of_nat (NPOLY * k)))
                              (seq 0 NMOL)).
  { cbn [assemble bonds]. rewrite <- Hlen. apply concat_map_by_index.
    intros k m Hk. now apply (Hlay k m Hk). }
  split; [exact Hbonds|]. rewrite Hbonds. intros a b Hab.
  apply in_flat_map in Hab. destruct Hab as [k [Hk Hab]].
  apply in_seq in Hk. unfold bonds_from in Hab. apply in_map_iff in Hab.
  destruct Hab as [j [[= <- <-] Hj]]. apply in_seq in Hj.
  revert Hk Hj. generalize NMOL. unfold NPOLY. cbn [Nat.sub]. intros n Hk Hj.
  split; [lia|]. split; [|lia].
  change (Z.of_nat 20) with 20%Z.
  assert (Hq : forall x, (20 * Z.of_nat k <= x < 20 * Z.of_nat k + 20)%Z ->
                         (x / 20 = Z.of_nat k)%Z).
  { intros x Hx. symmetry.
    apply (Z.div_unique x 20 (Z.of_nat k) (x - 20 * Z.of_nat k)); lia. }
  rewrite !Hq by lia. reflexivity.
Qed.

(** X11.  The residue number of a particle is the number of its molecule,
    counted from 1: NPOLY times 1, then NPOLY times 2, and so on. *)
Theorem written_resids tok np0 :
  exists c,
    main E tok np0 = Some c
    /\ resids c = flat_map (fun k => repeat (Z.of_nat k + 1)%Z NPOLY)
                           (seq 0 NMOL).
Proof.
  destruct (run_layout tok np0) as [ms [_ [Hmain [Hlen Hlay]]]].
  exists (assemble E ms). split; [exact Hmain|].
  cbn [assemble resids]. rewrite <- Hlen. apply concat_map_by_index.
  intros k m Hk. destruct (Hlay k m Hk) as [Hres [Hn _]].
  now rewrite map_const_repeat, Hres, Hn.
Qed.

Lemma next_coordinates_none tok iatom xyz np0 :
  is_random tok = false -> is_rods tok = false -> is_helices tok = false ->
  next_coordinates E tok iatom xyz np0 = (xyz, np0).
Proof.
  intros H1 H2 H3. unfold next_coordinates. now rewrite H1, H2, H3.
Qed.

Lemma atom_loop_none tok count : forall iatom xyz ix0 np0,
  is_random tok = false -> is_rods tok = false -> is_helices tok = false ->
  positions_of (atom_loop E tok count iatom xyz ix0 np0) = repeat xyz count.
Proof.
  induction count as [|count IH]; intros iatom xyz ix0 np0 H1 H2 H3;
    [reflexivity|].
  rewrite atom_loop_S. cbv zeta. unfold positions_of at 1. cbn [fst snd repeat].
  rewrite next_coordinates_none by assumption. cbn [fst snd].
  now rewrite IH.
Qed.

(** X12.  A token that neither starts with "random" nor ends in "rods" or
    "helices" is not rejected: every molecule is made of NPOLY particles at
    the local origin, so the particles of a molecule are all written at one
    place. *)
Theorem unrecognised_type_collapses tok np0 :
  is_random tok = false -> is_rods tok = false -> is_helices tok = false ->
  exists ms,
    molecules E tok np0 = Some ms
    /\ List.length ms = NMOL
    /\ forall m, In m ms ->
         local_positions E m = repeat (0, 0, 0) NPOLY
         /\ placed_positions E m
            = repeat (vadd (Rotation_apply E (molecule_rotation E m) (0, 0, 0))
                           (translation_vector E m)) NPOLY.
Proof.
  intros H1 H2 H3.
  destruct (molecules_spec E tok np0) as [ms [Hms [Hlen Hspec]]].
  exists ms. split; [exact Hms|]. split; [exact Hlen|]. intros m Hm.
  apply In_nth_error in Hm. destruct Hm as [k Hk].
  destruct (Hspec k m Hk) as [[ix0 [np1 Hloc]] _].
  rewrite atom_loop_none in Hloc by assumption.
  split; [exact Hloc|]. unfold placed_positions. rewrite Hloc.
  now rewrite map_repeat.
Qed.

(** X14.  When [random.random()] gives numbers from 0 up to, but not, 1,
    every molecule is translated to a point of the box: each coordinate of
    the translation is at least 0 and less than the edge 100. *)
Theorem translation_in_box tok np0 :
  (forall s, 0 <= fst (random E s) < 1) ->
  exists ms,
    molecules E tok np0 = Some ms
    /\ forall m, In m ms ->
         let '(tx, ty, tz) := translation_vector E m in
         0 <= tx < 100 /\ 0 <= ty < 100 /\ 0 <= tz < 100.
Proof.
  intros Hrandom.
  destruct (molecules_spec E tok np0) as [ms [Hms [_ Hspec]]].
  exists ms. split; [exact Hms|]. intros m Hm.
  apply In_nth_error in Hm. destruct Hm as [k Hk].
  destruct (Hspec k m Hk) as [_ [-> _]].
  unfold translation_at. cbn [nth CELL].
  generalize (Nat.iter k (skip3 E) (seed E RANDOM_SEED)). intros s.
  pose proof (Hrandom s) as H1.
  pose proof (Hrandom (snd (random E s))) as H2.
  pose proof (Hrandom (snd (random E (snd (random E s))))) as H3.
  repeat split; lra.
Qed.

Lemma dist_vadd a b t : dist (vadd a t) (vadd b t) = dist a b.
Proof.
  destruct a as [[ax ay] az], b as [[bx by_] bz], t as [[tx ty] tz].
  unfold dist, vadd. f_equal. ring.
Qed.

(** X15.  When the rotations keep distances, so does the placement of a
    molecule: two particles of a molecule are written as far from each
    other as they are in the local coordinates. *)
Theorem placement_keeps_distances tok np0 :
  (forall rot a b,
      dist (Rotation_apply E rot a) (Rotation_apply E rot b) = dist a b) ->
  exists ms,
    molecules E tok np0 = Some ms
    /\ forall m i j, In m ms -> (i < NPOLY)%nat -> (j < NPOLY)%nat ->
         dist (nth i (placed_positions E m) origin)
              (nth j (placed_positions E m) origin)
         = dist (nth i (local_positions E m) origin)
                (nth j (local_positions E m) origin).
Proof.
  intros Hrigid.
  destruct (run_layout tok np0) as [ms [Hms [_ [_ Hlay]]]].
  exists ms. split; [exact Hms|]. intros m i j Hm Hi Hj.
  apply In_nth_error in Hm. destruct Hm as [k Hk].
  destruct (Hlay k m Hk) as [_ [Hlen _]].
  unfold placed_positions.
  set (f := fun p => vadd (Rotation_apply E (molecule_rotation E m) p)
                          (translation_vector E m)).
  rewrite (nth_indep (map f (local_positions E m)) origin (f origin))
    by (rewrite length_map, Hlen; exact Hi).
  rewrite (nth_indep (map f (local_positions E m)) origin (f origin))
    by (rewrite length_map, Hlen; exact Hj).
  rewrite !map_nth. unfold f. now rewrite dist_vadd, Hrigid.
Qed.

(** ** The random walk *)

Lemma next_coordinates_random tok iatom xyz np0 :
  is_random tok = true -> is_rods tok = false -> is_helices tok = false ->
  next_coordinates E tok iatom xyz np0
  = (vadd xyz (Rotation_apply E (fst (Rotation_random E np0)) (0, 0, LBOND)),
     np_step E np0).
Proof.
  intros H1 H2 H3. unfold next_coordinates, np_step. rewrite H1, H2, H3.
  destruct (Rotation_random E np0). reflexivity.
Qed.

Lemma atom_loop_random_np tok count : forall iatom xyz ix0 np0,
  is_random tok = true -> is_rods tok = false -> is_helices tok = false ->
  np_of (atom_loop E tok count iatom xyz ix0 np0)
  = Nat.iter count (np_step E) np0.
Proof.
  induction count as [|count IH]; intros iatom xyz ix0 np0 H1 H2 H3;
    [reflexivity|].
  rewrite atom_loop_S. cbv zeta. unfold np_of at 1. cbn [fst snd].
  rewrite IH, next_coordinates_random by assumption. cbn [snd].
  now rewrite Nat.iter_succ_r.
Qed.

(** In a random walk every particle is the one before it moved by the bond
    vector, rotated by the next rotation of numpy's generator. *)
Lemma atom_loop_walk tok count : forall iatom xyz ix0 np0,
  is_random tok = true -> is_rods tok = false -> is_helices tok = false ->
  ((0 < count)%nat ->
   nth 0 (positions_of (atom_loop E tok count iatom xyz ix0 np0)) origin = xyz)
  /\ forall j, (S j < count)%nat ->
       nth (S j) (positions_of (atom_loop E tok count iatom xyz ix0 np0)) origin
       = vadd (nth j (positions_of (atom_loop E tok count iatom xyz ix0 np0))
                   origin)
              (Rotation_apply E
                 (fst (Rotation_random E (Nat.iter j (np_step E) np0)))
                 (0, 0, LBOND)).
Proof.
  induction count as [|count IH]; intros iatom xyz ix0 np0 H1 H2 H3.
  - split; intros; lia.
  - rewrite atom_loop_S. cbv zeta. unfold positions_of at 1 2 3.
    cbn [fst snd]. rewrite next_coordinates_random by assumption. cbn [fst snd].
    split; [reflexivity|]. intros j Hj.
    destruct (IH (S iatom)
                (vadd xyz (Rotation_apply E (fst (Rotation_random E np0))
                             (0, 0, LBOND)))
                (ix0 + 1)%Z (np_step E np0) H1 H2 H3) as [Hfirst Hnext].
    destruct j as [|j]; cbn [nth].
    + rewrite Hfirst by lia. reflexivity.
    + rewrite Hnext by lia. now rewrite Nat.iter_succ_r.
Qed.

Lemma molecule_loop_walk tok shared count :
  is_random tok = true -> is_rods tok = false -> is_helices tok = false ->
  is_disordered tok = false ->
  forall imol st ms,
  molecule_loop E tok shared count imol st = Some ms ->
  forall k m, nth_error ms k = Some m ->
    exists ix0,
      local_positions E m
      = positions_of (atom_loop E tok NPOLY 0 (0, 0, 0) ix0
                        (Nat.iter (NPOLY * k) (np_step E) (np E st))).
Proof.
  intros H1 H2 H3 Hd.
  induction count as [|count IH]; intros imol st ms Hms k m Hk.
  - injection Hms as <-. destruct k; discriminate Hk.
  - rewrite molecule_loop_S, place_molecule_eq in Hms. cbv zeta in Hms.
    rewrite Hd in Hms.
    pose proof (atom_loop_random_np tok NPOLY 0 (0, 0, 0) (ix E st) (np E st)
                  H1 H2 H3) as Hnp.
    assert (Hk0 : Nat.iter (NPOLY * 0) (np_step E) (np E st) = np E st)
      by (now rewrite Nat.mul_0_r).
    remember (atom_loop E tok NPOLY 0 (0, 0, 0) (ix E st) (np E st)) as al
      eqn:Hal.
    destruct shared as [rot|]; [|discriminate Hms].
    match type of Hms with
    | context [molecule_loop E tok (Some rot) count (S imol) ?st'] =>
        destruct (molecule_loop E tok (Some rot) count (S imol) st')
          as [ms'|] eqn:Hrest; [|discriminate Hms]
    end.
    injection Hms as <-. destruct k as [|k]; cbn [nth_error] in Hk.
    + injection Hk as <-. cbn [local_positions]. exists (ix E st).
      now rewrite Hk0, Hal.
    + destruct (IH _ _ _ Hrest k m Hk) as [ix0 Hloc]. exists ix0.
      rewrite Hloc. cbn [np]. rewrite Hnp, <- Nat.iter_add.
      replace (NPOLY * k + NPOLY)%nat with (NPOLY * S k)%nat by lia.
      reflexivity.
Qed.

(** X13.  For a token that starts with "random" and does not end in "rods"
    or "helices", every molecule is a random walk from the local origin:
    particle [j + 1] of molecule [k] is particle [j] moved by the bond
    vector (0, 0, LBOND) rotated by rotation number NPOLY * k + j + 1 of
    numpy's generator (rotation 0 is the one shared by the molecules). *)
Theorem random_walk_bonds tok np0 :
  is_random tok = true -> is_rods tok = false -> is_helices tok = false ->
  exists ms,
    molecules E tok np0 = Some ms
    /\ forall k m, nth_error ms k = Some m ->
         nth 0 (local_positions E m) origin = (0, 0, 0)
         /\ forall j, (S j < NPOLY)%nat ->
              nth (S j) (local_positions E m) origin
              = vadd (nth j (local_positions E m) origin)
                     (Rotation_apply E
                        (nth_rotation E (NPOLY * k + j + 1) np0)
                        (0, 0, LBOND)).
Proof.
  intros H1 H2 H3.
  assert (Hd : is_disordered tok = false).
  { destruct (is_disordered tok) eqn:Hd; [|reflexivity].
    apply disordered_not_random in Hd. congruence. }
  destruct (molecules_spec E tok np0) as [ms [Hms _]].
  exists ms. split; [exact Hms|]. intros k m Hk.
  assert (Hloc : exists ix0,
             local_positions E m
             = positions_of (atom_loop E tok NPOLY 0 (0, 0, 0) ix0
                 (Nat.iter (NPOLY * k) (np_step E) (np_step E np0)))).
  { unfold molecules in Hms. rewrite Hd in Hms. cbn [negb] in Hms.
    unfold np_step at 2. destruct (Rotation_random E np0) as [rot np1].
    exact (molecule_loop_walk tok (Some rot) NMOL H1 H2 H3 Hd _ _ _ Hms k m Hk). }
  destruct Hloc as [ix0 ->].
  destruct (atom_loop_walk tok NPOLY 0 (0, 0, 0) ix0
              (Nat.iter (NPOLY * k) (np_step E) (np_step E np0)) H1 H2 H3)
    as [Hfirst Hnext].
  split; [apply Hfirst; unfold NPOLY; lia|].
  intros j Hj. rewrite (Hnext j Hj). do 2 f_equal.
  unfold nth_rotation. f_equal.
  change (fun s => snd (Rotation_random E s)) with (np_step E).
  rewrite <- Nat.iter_succ_r, <- Nat.iter_add.
  replace (j + S (NPOLY * k))%nat with (NPOLY * k + j + 1)%nat by lia.
  reflexivity.
Qed.

End Layout.

(** X16.  The translations do not depend on the type token nor on the state
    of numpy's generator: any two runs translate their molecules alike. *)
Theorem translations_fixed_by_seed (E : Randomness) tok tok' np0 np0' :
  exists ms ms',
    molecules E tok np0 = Some ms
    /\ molecules E tok' np0' = Some ms'
    /\ map (translation_vector E) ms = map (translation_vector E) ms'.
Proof.
  destruct (molecules_spec E tok np0) as [ms [Hms [Hlen Hspec]]].
  destruct (molecules_spec E tok' np0') as [ms' [Hms' [Hlen' Hspec']]].
  exists ms, ms'. split; [exact Hms|]. split; [exact Hms'|].
  apply nth_error_ext. intros k. rewrite !nth_error_map.
  destruct (nth_error ms k) as [m|] eqn:Hk;
    destruct (nth_error ms' k) as [m'|] eqn:Hk'; cbn [option_map].
  - f_equal. destruct (Hspec k m Hk) as [_ [-> _]].
    destruct (Hspec' k m' Hk') as [_ [-> _]]. reflexivity.
  - apply nth_error_None in Hk'.
    assert (k < List.length ms)%nat by (apply nth_error_Some; congruence). lia.
  - apply nth_error_None in Hk.
    assert (k < List.length ms')%nat by (apply nth_error_Some; congruence). lia.
  - reflexivity.
Qed.

(** *** Runs with the counting generators *)

(** X12, at the token "chains". *)
Lemma unrecognised_type_collapses_witness :
  is_random "chains" = false /\ is_rods "chains" = false
  /\ is_helices "chains" = false
  /\ exists ms,
      molecules counting "chains" 0%nat = Some ms
      /\ List.length ms = NMOL
      /\ forall m, In m ms ->
           local_positions counting m = repeat (0, 0, 0) NPOLY
           /\ placed_positions counting m
              = repeat (vadd (Rotation_apply counting
                                (molecule_rotation counting m) (0, 0, 0))
                             (translation_vector counting m)) NPOLY.
Proof.
  split; [reflexivity|]. split; [reflexivity|]. split; [reflexivity|].
  apply (unrecognised_type_collapses counting "chains" 0%nat); reflexivity.
Defined.

(** X13, at the token "random". *)
Lemma random_walk_bonds_witness :
  is_random "random" = true /\ is_rods "random" = false
  /\ is_helices "random" = false
  /\ exists ms,
      molecules counting "random" 0%nat = Some ms
      /\ forall k m, nth_error ms k = Some m ->
           nth 0 (local_positions counting m) origin = (0, 0, 0)
           /\ forall j, (S j < NPOLY)%nat ->
                nth (S j) (local_positions counting m) origin
                = vadd (nth j (local_positions counting m) origin)
                       (Rotation_apply counting
                          (nth_rotation counting (NPOLY * k + j + 1) 0%nat)
                          (0, 0, LBOND)).
Proof.
  split; [reflexivity|]. split; [reflexivity|]. split; [reflexivity|].
  apply (random_walk_bonds counting "random" 0%nat); reflexivity.
Defined.

Lemma counting_random_unit (s : nat) : 0 <= fst (random counting s) < 1.
Proof.
  cbn [random counting fst].
  assert (Hm : (s mod 10 < 10)%nat) by (apply Nat.mod_upper_bound; lia).
  pose proof (pos_INR (s mod 10)) as Hpos.
  apply lt_INR in Hm. change (INR 10) with (INR 10) in Hm.
  assert (H10 : INR 10 = 10) by (simpl; lra).
  rewrite H10 in Hm. split; lra.
Qed.

(** X14, with the counting generator of random numbers. *)
Lemma translation_in_box_witness :
  (forall s, 0 <= fst (random counting s) < 1)
  /\ exists ms,
      molecules counting "rods" 0%nat = Some ms
      /\ forall m, In m ms ->
           let '(tx, ty, tz) := translation_vector counting m in
           0 <= tx < 100 /\ 0 <= ty < 100 /\ 0 <= tz < 100.
Proof.
  split; [exact counting_random_unit|].
  exact (translation_in_box counting "rods" 0%nat counting_random_unit).
Defined.

Lemma counting_rigid (rot : Rotation counting) (a b : vec) :
  dist (Rotation_apply counting rot a) (Rotation_apply counting rot b)
  = dist a b.
Proof.
  destruct a as [[ax ay] az], b as [[bx by_] bz].
  destruct rot; cbn [Rotation_apply counting]; [|reflexivity].
  unfold dist. f_equal. ring.
Qed.

(** X15, with the identity and the half turn. *)
Lemma placement_keeps_distances_witness :
  (forall rot a b,
      dist (Rotation_apply counting rot a) (Rotation_apply counting rot b)
      = dist a b)
  /\ exists ms,
      molecules counting "helices" 0%nat = Some ms
      /\ forall m i j, In m ms -> (i < NPOLY)%nat -> (j < NPOLY)%nat ->
           dist (nth i (placed_positions counting m) origin)
                (nth j (placed_positions counting m) origin)
           = dist (nth i (local_positions counting m) origin)
                  (nth j (local_positions counting m) origin).
Proof.
  split; [exact counting_rigid|].
  exact (placement_keeps_distances counting "helices" 0%nat counting_rigid).
Defined.

End generator_extras.

(** * Further properties of normalize_vectors *)

Module utilities_extras.
Import utilities utilities_notions utilities_samples float_facts float_row.

(** X17.  A row of zeros, of either sign, has the computed norm +0 and
    becomes a row of NaN; the other rows are not affected. *)
Theorem zero_row_nan (before after : array2) (row : list float64.float) :
  Forall (fun a => is_zero a = true) row ->
  norm row = S754_zero false
  /\ normalize_vectors (before ++ row :: after)
     = normalize_vectors before
         ++ map (fun _ => S754_nan) row :: normalize_vectors after.
Proof.
  intros Hz. pose proof (norm_zeros row Hz) as Hn. split; [exact Hn|].
  rewrite !normalize_vectors_map, map_app. cbn [map]. f_equal. f_equal.
  rewrite Hn. apply map_ext_in. intros a Ha.
  rewrite Forall_forall in Hz. specialize (Hz a Ha).
  destruct a as [[]| | |]; try discriminate Hz; reflexivity.
Qed.

(** X17, at the row (+0, -0, +0) after the row (3, 4, 0). *)
Lemma zero_row_nan_witness :
  Forall (fun a => is_zero a = true) [f_0; S754_zero true; f_0]
  /\ norm [f_0; S754_zero true; f_0] = S754_zero false
  /\ normalize_vectors ([[f_3; f_4; f_0]] ++ [f_0; S754_zero true; f_0] :: [])
     = normalize_vectors [[f_3; f_4; f_0]]
         ++ map (fun _ => S754_nan) [f_0; S754_zero true; f_0]
            :: normalize_vectors [].
Proof.
  assert (H : Forall (fun a => is_zero a = true) [f_0; S754_zero true; f_0])
    by (repeat (constructor; [reflexivity|]); constructor).
  split; [exact H|].
  exact (zero_row_nan [[f_3; f_4; f_0]] [] [f_0; S754_zero true; f_0] H).
Defined.

(** X18.  A row of zeros and finite numbers whose computed norm is +inf
    becomes a row of zeros: every entry becomes the zero of its sign. *)
Theorem infinite_norm_row_zero (before after : array2)
  (row : list float64.float) :
  Forall (fun a => is_finite a = true) row ->
  norm row = S754_infinity false ->
  normalize_vectors (before ++ row :: after)
  = normalize_vectors before
      ++ map (fun a => match a with
                       | S754_zero s | S754_finite s _ _ => S754_zero s
                       | _ => a
                       end) row
         :: normalize_vectors after.
Proof.
  intros Hf Hn.
  rewrite !normalize_vectors_map, map_app. cbn [map]. f_equal. f_equal.
  rewrite Hn. apply map_ext_in. intros a Ha.
  rewrite Forall_forall in Hf. specialize (Hf a Ha).
  destruct a as [[]|[]| |[] m e]; try discriminate Hf; reflexivity.
Qed.

(** X18, at the row (1e200, -0, 0). *)
Lemma infinite_norm_row_zero_witness :
  Forall (fun a => is_finite a = true) [f_1e200; S754_zero true; f_0]
  /\ norm [f_1e200; S754_zero true; f_0] = S754_infinity false
  /\ normalize_vectors ([] ++ [f_1e200; S754_zero true; f_0] :: [])
     = normalize_vectors []
         ++ map (fun a => match a with
                          | S754_zero s | S754_finite s _ _ => S754_zero s
                          | _ => a
                          end) [f_1e200; S754_zero true; f_0]
            :: normalize_vectors [].
Proof.
  assert (Hf : Forall (fun a => is_finite a = true)
                 [f_1e200; S754_zero true; f_0])
    by (repeat (constructor; [reflexivity|]); constructor).
  assert (Hn : norm [f_1e200; S754_zero true; f_0] = S754_infinity false)
    by (vm_compute; reflexivity).
  split; [exact Hf|]. split; [exact Hn|].
  exact (infinite_norm_row_zero [] [] [f_1e200; S754_zero true; f_0] Hf Hn).
Defined.

(** X19.  The array of the opposite numbers gives the opposite result,
    whatever the numbers are. *)
Theorem normalize_vectors_opposite (vectors : array2) :
  normalize_vectors (map (map SFopp) vectors)
  = map (map SFopp) (normalize_vectors vectors).
Proof.
  rewrite !normalize_vectors_map, !map_map. apply map_ext. intros row.
  rewrite norm_opp, !map_map. apply map_ext. intros a. apply div_opp.
Qed.

End utilities_extras.
